(** * transpiler.py: lexer, parser and code generator of the C++ to Python
    converter, as a shallow embedding.

    The source drives two generated machines of the PLY library: a lexer built
    from the [t_] rules and an LALR(1) parser built from the grammar in the
    docstrings of the [p_] functions.  The embedding keeps the three stages of
    the source (tokens, tree, text) and the one piece of state that outlives a
    call, the line counter of the module-level [lexer] object.

    Source text is ASCII text: a [string] whose characters have codes below
    128, which is where the character classes below agree with Python's.
    Of the interpreter's limits, the one on the digits of an integer string
    is part of the embedding ([py_int]); the recursion limit is not:
    [generate_code] is a total function here. *)

From Stdlib Require Import String Ascii List NArith Bool Arith Lia DecimalString.
From Stdlib Require Import DecimalPos DecimalN.
Import ListNotations.
Local Open Scope string_scope.
Set Warnings "-register-all".

(** ** Python values carried by tokens and nodes *)

(** [t.value] and [node.value]: [None], a [str], an [int], or a [float].  A
    float is kept as the literal text it was read from; its printed form is
    the interpreter's business (see [float_str] below). *)
Inductive pyval : Type :=
| VNone
| VStr (s : string)
| VInt (n : N)
| VFloat (lexeme : string).

(** What the [try] body of [transpile] can end with.  [SyntaxError] is the
    only exception the lexer and parser rules raise themselves; [ValueError]
    is what [int] raises in [t_NUMBER] on a digit string beyond the
    interpreter's limit; the others are what indexing, dictionary lookup and
    [str.join] raise on a tree of the wrong shape. *)
Inductive pyexn : Type :=
| SyntaxError (msg : string)
| IndexError
| KeyError
| TypeError
| ValueError.

Inductive outcome (A : Type) : Type :=
| Return (a : A)
| Raise (e : pyexn).
Arguments Return {A} a.
Arguments Raise {A} e.

Definition bind {A B} (m : outcome A) (k : A -> outcome B) : outcome B :=
  match m with
  | Return a => k a
  | Raise e => Raise e
  end.

Notation "x <- m ;; k" := (bind m (fun x => k))
  (at level 61, m at next level, right associativity).

(** ** Lexer *)

Module Lexer.

(** The [tokens] tuple. *)
Inductive toktype : Type :=
| IDENTIFIER | NUMBER | STRING | INT | FLOAT | CLASS | IF | ELSE | FOR | WHILE
| RETURN | COUT | ENDL | LPAREN | RPAREN | LBRACE | RBRACE | SEMICOLON | COMMA
| EQUALS | PLUS | MINUS | MULTIPLY | DIVIDE | LT | GT | AND | OR | NOT
| COLON | ARROW | LBRACKET | RBRACKET | INCLUDE | STRING_H | IOSTREAM
| NAMESPACE | STD | PLUSPLUS.

(** A [LexToken]: type, value and the line counter when it was matched. *)
Record LexToken : Type := mkTok {
  type : toktype;
  value : pyval;
  lineno : N
}.

(** *** Character classes of the patterns *)

Definition code (c : ascii) : nat := nat_of_ascii c.

Definition between (lo hi : nat) (c : ascii) : bool :=
  Nat.leb lo (code c) && Nat.leb (code c) hi.

(** [\d] *)
Definition is_digit (c : ascii) : bool := between 48 57 c.

(** [[a-zA-Z_]] *)
Definition is_ident_start (c : ascii) : bool :=
  between 97 122 c || between 65 90 c || Nat.eqb (code c) 95.

(** [[a-zA-Z0-9_]], which is also [\w] on ASCII text *)
Definition is_ident_char (c : ascii) : bool :=
  is_ident_start c || is_digit c.

(** [\s] on ASCII text: tab, line feed, vertical tab, form feed, carriage
    return, the four separators 28 to 31, and space. *)
Definition is_space (c : ascii) : bool :=
  between 9 13 c || between 28 31 c || Nat.eqb (code c) 32.

Definition is_newline (c : ascii) : bool := Nat.eqb (code c) 10.

(** [t_ignore = ' \t'] *)
Definition is_ignored (c : ascii) : bool := Nat.eqb (code c) 32 || Nat.eqb (code c) 9.

(** *** Pattern matchers

    Each matcher takes the text at the scanning position and gives the matched
    text and what is left, as [re.match] does for the rule's pattern. *)

(** A greedy run [c*] of a character class. *)
Fixpoint span (p : ascii -> bool) (s : string) : string * string :=
  match s with
  | EmptyString => (EmptyString, EmptyString)
  | String c s' =>
      if p c
      then let (a, b) := span p s' in (String c a, b)
      else (EmptyString, s)
  end.

(** A literal prefix. *)
Fixpoint strip (lit s : string) : option string :=
  match lit with
  | EmptyString => Some s
  | String c lit' =>
      match s with
      | String d s' => if Ascii.eqb c d then strip lit' s' else None
      | EmptyString => None
      end
  end.

Definition lit_rule (lit : string) (s : string) : option (string * string) :=
  match strip lit s with
  | Some rest => Some (lit, rest)
  | None => None
  end.

(** [[a-zA-Z_][a-zA-Z0-9_]*] *)
Definition re_IDENTIFIER (s : string) : option (string * string) :=
  match s with
  | String c s' =>
      if is_ident_start c
      then let (a, b) := span is_ident_char s' in Some (String c a, b)
      else None
  | EmptyString => None
  end.

(** [\d+(\.\d+)?] *)
Definition re_NUMBER (s : string) : option (string * string) :=
  match span is_digit s with
  | (EmptyString, _) => None
  | (ds, rest) =>
      match rest with
      | String "." rest' =>
          match span is_digit rest' with
          | (EmptyString, _) => Some (ds, rest)
          | (fs, rest'') => Some (ds ++ "." ++ fs, rest'')
          end
      | _ => Some (ds, rest)
      end
  end.

(** [\n+] *)
Definition re_newline (s : string) : option (string * string) :=
  match span is_newline s with
  | (EmptyString, _) => None
  | (nl, rest) => Some (nl, rest)
  end.

(** [\#include\s*<\w+>] *)
Definition re_INCLUDE (s : string) : option (string * string) :=
  match strip "#include" s with
  | None => None
  | Some s1 =>
      let (ws, s2) := span is_space s1 in
      match s2 with
      | String "<" s3 =>
          match span is_ident_char s3 with
          | (EmptyString, _) => None
          | (name, String ">" s4) =>
              Some ("#include" ++ ws ++ "<" ++ name ++ ">", s4)
          | _ => None
          end
      | _ => None
      end
  end.

(** [.*?\*/]: the shortest run of characters other than a line feed that is
    followed by [*/]. *)
Fixpoint until_star_slash (s : string) : option (string * string) :=
  match s with
  | EmptyString => None
  | String c s' =>
      match strip "*/" s with
      | Some rest => Some ("*/", rest)
      | None =>
          if is_newline c then None
          else match until_star_slash s' with
               | Some (m, rest) => Some (String c m, rest)
               | None => None
               end
      end
  end.

(** [//.*|/\*.*?\*/] *)
Definition re_COMMENT (s : string) : option (string * string) :=
  match strip "//" s with
  | Some s1 =>
      let (body, rest) := span (fun c => negb (is_newline c)) s1 in
      Some ("//" ++ body, rest)
  | None =>
      match strip "/*" s with
      | Some s1 =>
          match until_star_slash s1 with
          | Some (m, rest) => Some ("/*" ++ m, rest)
          | None => None
          end
      | None => None
      end
  end.

(** The double quote character. *)
Definition dquote : ascii := ascii_of_nat 34.

Definition is_dquote (c : ascii) : bool := Ascii.eqb c dquote.

(** The pattern of [t_STRING]: a double quote, a greedy run of characters
    other than a double quote (line feeds included), a double quote. *)
Definition re_STRING (s : string) : option (string * string) :=
  match s with
  | String q s1 =>
      if is_dquote q then
        match span (fun c => negb (is_dquote c)) s1 with
        | (body, String q' rest) =>
            Some (String q (body ++ String q' EmptyString), rest)
        | _ => None
        end
      else None
  | EmptyString => None
  end.

(** *** The rule table

    PLY joins the rules into one alternation, tried left to right at the
    scanning position: first the rules given as functions, in the order they
    are defined ([t_IDENTIFIER], [t_NUMBER], [t_newline]), then the rules given
    as strings, sorted by decreasing length of the pattern text (the sort is
    stable, so patterns of one length keep their order of definition). *)

Inductive action : Type :=
| Ident                 (* t_IDENTIFIER: keyword lookup *)
| Number                (* t_NUMBER: int or float value *)
| Newline               (* t_newline: count lines, no token *)
| Emit (t : toktype)    (* a string rule: the token as matched *)
| Discard.              (* t_ignore_COMMENT *)

Record rule : Type := mkRule {
  pattern : string;
  act : action;
  matcher : string -> option (string * string)
}.

Definition function_rules : list rule :=
  [ mkRule "[a-zA-Z_][a-zA-Z0-9_]*" Ident re_IDENTIFIER;
    mkRule "\d+(\.\d+)?" Number re_NUMBER;
    mkRule "\n+" Newline re_newline ].

(** The pattern text of [t_STRING], seven characters. *)
Definition STRING_pattern : string :=
  String dquote ("[^" ++ String dquote ("]*" ++ String dquote EmptyString)).

(** The string rules in the order the module defines them. *)
Definition string_rules : list rule :=
  [ mkRule "\(" (Emit LPAREN) (lit_rule "(");
    mkRule "\)" (Emit RPAREN) (lit_rule ")");
    mkRule "\{" (Emit LBRACE) (lit_rule "{");
    mkRule "\}" (Emit RBRACE) (lit_rule "}");
    mkRule ";" (Emit SEMICOLON) (lit_rule ";");
    mkRule "," (Emit COMMA) (lit_rule ",");
    mkRule "=" (Emit EQUALS) (lit_rule "=");
    mkRule "\+" (Emit PLUS) (lit_rule "+");
    mkRule "-" (Emit MINUS) (lit_rule "-");
    mkRule "\*" (Emit MULTIPLY) (lit_rule "*");
    mkRule "/" (Emit DIVIDE) (lit_rule "/");
    mkRule "<" (Emit LT) (lit_rule "<");
    mkRule ">" (Emit GT) (lit_rule ">");
    mkRule "&&" (Emit AND) (lit_rule "&&");
    mkRule "\|\|" (Emit OR) (lit_rule "||");
    mkRule "!" (Emit NOT) (lit_rule "!");
    mkRule ":" (Emit COLON) (lit_rule ":");
    mkRule "->" (Emit ARROW) (lit_rule "->");
    mkRule "\[" (Emit LBRACKET) (lit_rule "[");
    mkRule "\]" (Emit RBRACKET) (lit_rule "]");
    mkRule STRING_pattern (Emit STRING) re_STRING;
    mkRule "\#include\s*<\w+>" (Emit INCLUDE) re_INCLUDE;
    mkRule "\+\+" (Emit PLUSPLUS) (lit_rule "++");
    mkRule "//.*|/\*.*?\*/" Discard re_COMMENT ].

(** Stable sort by decreasing pattern length. *)
Fixpoint insert_rule (r : rule) (l : list rule) : list rule :=
  match l with
  | [] => [r]
  | r' :: l' =>
      if Nat.ltb (String.length (pattern r')) (String.length (pattern r))
      then r :: l
      else r' :: insert_rule r l'
  end.

Definition sort_rules (l : list rule) : list rule :=
  fold_left (fun acc r => insert_rule r acc) l [].

Definition master_rules : list rule :=
  function_rules ++ sort_rules string_rules.

(** The first alternative that matches, with the text it matched. *)
Fixpoint first_match (rs : list rule) (s : string) : option (action * string) :=
  match rs with
  | [] => None
  | r :: rs' =>
      match matcher r s with
      | Some (m, _) => Some (act r, m)
      | None => first_match rs' s
      end
  end.

(** *** The rule functions *)

Definition reserved : list (string * toktype) :=
  [ ("int", INT); ("float", FLOAT); ("class", CLASS); ("if", IF);
    ("else", ELSE); ("for", FOR); ("while", WHILE); ("return", RETURN);
    ("cout", COUT); ("endl", ENDL); ("include", INCLUDE);
    ("string", STRING_H); ("iostream", IOSTREAM); ("namespace", NAMESPACE);
    ("std", STD) ].

(** [reserved.get(k, default)] *)
Fixpoint dict_get {V} (d : list (string * V)) (k : string) (default : V) : V :=
  match d with
  | [] => default
  | (k', v) :: d' => if String.eqb k k' then v else dict_get d' k default
  end.

Definition t_IDENTIFIER (text : string) (ln : N) : LexToken :=
  mkTok (dict_get reserved text IDENTIFIER) (VStr text) ln.

(** ['.' in t.value] *)
Fixpoint has_dot (s : string) : bool :=
  match s with
  | EmptyString => false
  | String c s' => Ascii.eqb c "." || has_dot s'
  end.

(** The number a run of decimal digits stands for. *)
Fixpoint int_of_digits (acc : N) (s : string) : N :=
  match s with
  | EmptyString => acc
  | String c s' => int_of_digits (10 * acc + N.of_nat (code c - 48)) s'
  end.

(** [sys.get_int_max_str_digits()], as the interpreter starts: the longest
    digit string [int] converts. *)
Definition int_max_str_digits : nat := 4300.

(** [int(text)] for a run of decimal digits: [ValueError] when the run is
    longer than the limit (leading zeros count). *)
Definition py_int (text : string) : outcome N :=
  if Nat.ltb int_max_str_digits (String.length text)
  then Raise ValueError
  else Return (int_of_digits 0 text).

(** [float(t.value) if '.' in t.value else int(t.value)] *)
Definition t_NUMBER (text : string) (ln : N) : outcome LexToken :=
  if has_dot text then Return (mkTok NUMBER (VFloat text) ln)
  else n <- py_int text ;; Return (mkTok NUMBER (VInt n) ln).

(** *** The scanning loop

    How a scan ends: the text is used up, [t_error] raises at a character
    no rule matches, or a rule function raises. *)
Inductive lex_stop : Type :=
| LexEof (ln : N)
| LexIllegal (c : ascii) (ln : N)
| LexRaise (e : pyexn) (ln : N).

(** All tokens the lexer hands out from [s] when its line counter is [ln],
    and how the scan stops.  [skip] is the number of characters still inside
    the last match ([lexpos] is set to the end of the match, so the scan
    resumes after them). *)
Fixpoint scan (skip : nat) (s : string) (ln : N) : list LexToken * lex_stop :=
  match s with
  | EmptyString => ([], LexEof ln)
  | String c s' =>
      match skip with
      | S k => scan k s' ln
      | O =>
          if is_ignored c then scan 0 s' ln
          else
            match first_match master_rules s with
            | None => ([], LexIllegal c ln)
            | Some (a, m) =>
                let k := pred (String.length m) in
                match a with
                | Discard => scan k s' ln
                | Newline => scan k s' (ln + N.of_nat (String.length m))
                | Ident =>
                    let (ts, e) := scan k s' ln in (t_IDENTIFIER m ln :: ts, e)
                | Number =>
                    match t_NUMBER m ln with
                    | Return t =>
                        let (ts, e) := scan k s' ln in (t :: ts, e)
                    | Raise e => ([], LexRaise e ln)
                    end
                | Emit t =>
                    let (ts, e) := scan k s' ln in (mkTok t (VStr m) ln :: ts, e)
                end
            end
      end
  end.

Definition tokenize (s : string) (ln : N) : list LexToken * lex_stop :=
  scan 0 s ln.

End Lexer.

(** ** Syntax trees *)

(** The node kinds the grammar actions build ([Node.type]). *)
Inductive NodeType : Type :=
| program | includes | statements | include | declaration | assignment
| increment | if_ | for_ | while | function | params | param | class
| declarations | output | return_ | binop | unop | literal.

(** [Node(type, children=None, value=None)]; an absent [children] is the
    empty list. *)
Inductive Node : Type :=
| MkNode (type : NodeType) (children : list Node) (value : pyval).

Definition node_type (n : Node) : NodeType := let (t, _, _) := n in t.
Definition node_children (n : Node) : list Node := let (_, c, _) := n in c.
Definition node_value (n : Node) : pyval := let (_, _, v) := n in v.

(** [p[0] = p[1]; p[0].children.append(x)] *)
Definition append_child (n x : Node) : Node :=
  let (t, c, v) := n in MkNode t (c ++ [x]) v.

(** ** Parser *)

Module Parser.
Import Lexer.

(** How the parser leaves a token sequence: a value and the tokens not yet
    read; [p_error(tok)] at a token no action exists for; or a request for a
    token after the last one of the list, which the lexer answers with the
    end of input or with [t_error]. *)
Inductive presult (A : Type) : Type :=
| POk (a : A) (rest : list LexToken)
| Unexpected (t : LexToken)
| NeedToken
| OutOfFuel.
Arguments POk {A} a rest.
Arguments Unexpected {A} t.
Arguments NeedToken {A}.
Arguments OutOfFuel {A}.

Definition pbind {A B} (m : presult A) (k : A -> list LexToken -> presult B)
  : presult B :=
  match m with
  | POk a rest => k a rest
  | Unexpected t => Unexpected t
  | NeedToken => NeedToken
  | OutOfFuel => OutOfFuel
  end.

Notation "'let*' ( x , r ) := m 'in' k" := (pbind m (fun x r => k))
  (at level 10, x name, r name, m at level 100, k at level 200).

Definition toktype_eqb (a b : toktype) : bool :=
  match a, b with
  | IDENTIFIER, IDENTIFIER | NUMBER, NUMBER | STRING, STRING | INT, INT
  | FLOAT, FLOAT | CLASS, CLASS | IF, IF | ELSE, ELSE | FOR, FOR
  | WHILE, WHILE | RETURN, RETURN | COUT, COUT | ENDL, ENDL
  | LPAREN, LPAREN | RPAREN, RPAREN | LBRACE, LBRACE | RBRACE, RBRACE
  | SEMICOLON, SEMICOLON | COMMA, COMMA | EQUALS, EQUALS | PLUS, PLUS
  | MINUS, MINUS | MULTIPLY, MULTIPLY | DIVIDE, DIVIDE | LT, LT | GT, GT
  | AND, AND | OR, OR | NOT, NOT | COLON, COLON | ARROW, ARROW
  | LBRACKET, LBRACKET | RBRACKET, RBRACKET | INCLUDE, INCLUDE
  | STRING_H, STRING_H | IOSTREAM, IOSTREAM | NAMESPACE, NAMESPACE
  | STD, STD | PLUSPLUS, PLUSPLUS => true
  | _, _ => false
  end.

(** Shift the terminal [ty]. *)
Definition expect (ty : toktype) (toks : list LexToken) : presult LexToken :=
  match toks with
  | [] => NeedToken
  | t :: rest => if toktype_eqb (type t) ty then POk t rest else Unexpected t
  end.

(** *** Precedence and the resolution of shift/reduce conflicts *)

Inductive assoc : Type := left | right.

(** The [precedence] tuple, lowest level first. *)
Definition precedence : list (assoc * list toktype) :=
  [ (left, [PLUS; MINUS]);
    (left, [MULTIPLY; DIVIDE]);
    (right, [PLUSPLUS]) ].

(** PLY numbers the levels from 1; a terminal the table does not list has
    [('right', 0)]. *)
Fixpoint prec_from (level : nat) (tbl : list (assoc * list toktype))
  (t : toktype) : assoc * nat :=
  match tbl with
  | [] => (right, 0)
  | (a, ts) :: tbl' =>
      if existsb (toktype_eqb t) ts then (a, level)
      else prec_from (S level) tbl' t
  end.

Definition prec_of (t : toktype) : assoc * nat := prec_from 1 precedence t.

(** The eight terminals of [expression : expression OP expression]. *)
Definition is_binop (t : toktype) : bool :=
  match t with
  | PLUS | MINUS | MULTIPLY | DIVIDE | LT | GT | AND | OR => true
  | _ => false
  end.

(** What lies on the parser's stack below the operand being read: a left
    operand with its operator (an item [expression OP . expression]) or a
    negation sign (an item [NOT . expression]). *)
Inductive frame : Type :=
| FBin (lhs : Node) (op : LexToken)
| FNot (op : LexToken).

(** A production has the precedence of its rightmost terminal: the operator
    for a binary production, [NOT] for the negation. *)
Definition prod_prec (f : frame) : assoc * nat :=
  match f with
  | FBin _ op => prec_of (type op)
  | FNot _ => prec_of NOT
  end.

(** With the production of [f] complete and the operator [a] next, both a
    reduction and a shift are possible.  PLY's table construction reduces when
    the token's level is below the production's, or equal with the production
    left associative, and shifts otherwise. *)
Definition resolves_to_reduce (a : toktype) (f : frame) : bool :=
  let (rprec, rlevel) := prod_prec f in
  let (_, slevel) := prec_of a in
  Nat.ltb slevel rlevel
  || (Nat.eqb slevel rlevel && match rprec with left => true | right => false end).

(** The actions of [p_expression]. *)
Definition reduce (f : frame) (e : Node) : Node :=
  match f with
  | FBin lhs op => MkNode binop [lhs; e] (value op)
  | FNot op => MkNode unop [e] (value op)
  end.

(** The reductions made before the operator [a] is shifted. *)
Fixpoint reduce_for (a : toktype) (stack : list frame) (e : Node)
  : list frame * Node :=
  match stack with
  | [] => ([], e)
  | f :: stack' =>
      if resolves_to_reduce a f then reduce_for a stack' (reduce f e)
      else (stack, e)
  end.

(** The reductions made when the next token is no operator. *)
Fixpoint reduce_all (stack : list frame) (e : Node) : Node :=
  match stack with
  | [] => e
  | f :: stack' => reduce_all stack' (reduce f e)
  end.

(** *** Expressions

    [parse_operand out stack toks] reads an expression whose first operand
    starts at [toks], with [stack] already shifted.  [out] says that the
    expression is the one of an output statement: there, once the stack is
    reduced to the bare expression, a [LT] is shifted into a state that holds
    both [output : COUT LT LT expression LT . LT ENDL SEMICOLON] and
    [expression : expression LT . expression], and the token after it
    decides. *)
Fixpoint parse_operand (out : bool) (stack : list frame)
  (toks : list LexToken) : presult Node :=
  match toks with
  | [] => NeedToken
  | t :: rest =>
      match type t with
      | NOT => parse_operand out (FNot t :: stack) rest
      | NUMBER | IDENTIFIER | STRING =>
          let e := MkNode literal [] (value t) in
          match rest with
          | [] => NeedToken
          | a :: rest' =>
              if is_binop (type a) then
                let (stack', e') := reduce_for (type a) stack e in
                match out, type a, stack', rest' with
                | true, LT, [], [] => NeedToken
                | true, LT, [], b :: _ =>
                    if toktype_eqb (type b) LT then POk e' rest
                    else parse_operand out [FBin e' a] rest'
                | _, _, _, _ => parse_operand out (FBin e' a :: stack') rest'
                end
              else POk (reduce_all stack e) rest
          end
      | _ => Unexpected t
      end
  end.

Definition parse_expression (toks : list LexToken) : presult Node :=
  parse_operand false [] toks.

(** *** Statements without a block *)

(** [declaration], after [INT IDENTIFIER] with the name token [id]. *)
Definition parse_declaration_tail (id : LexToken) (toks : list LexToken)
  : presult Node :=
  match toks with
  | [] => NeedToken
  | t :: r' =>
      match type t with
      | SEMICOLON => POk (MkNode declaration [] (value id)) r'
      | EQUALS =>
          let* (e, r) := parse_expression r' in
          let* (_, r) := expect SEMICOLON r in
          POk (MkNode declaration [e] (value id)) r
      | _ => Unexpected t
      end
  end.

(** [declaration : FLOAT IDENTIFIER EQUALS expression SEMICOLON], after
    [FLOAT]. *)
Definition parse_float_declaration (toks : list LexToken) : presult Node :=
  let* (id, r) := expect IDENTIFIER toks in
  let* (_, r) := expect EQUALS r in
  let* (e, r) := parse_expression r in
  let* (_, r) := expect SEMICOLON r in
  POk (MkNode declaration [e] (value id)) r.

(** [assignment] and [increment], after the [IDENTIFIER] [id]. *)
Definition parse_after_identifier (id : LexToken) (toks : list LexToken)
  : presult Node :=
  match toks with
  | [] => NeedToken
  | t :: r' =>
      match type t with
      | EQUALS =>
          let* (e, r) := parse_expression r' in
          let* (_, r) := expect SEMICOLON r in
          POk (MkNode assignment [e] (value id)) r
      | PLUSPLUS =>
          let* (_, r) := expect SEMICOLON r' in
          POk (MkNode increment [] (value id)) r
      | _ => Unexpected t
      end
  end.

(** [output], after [COUT]. *)
Definition parse_output (toks : list LexToken) : presult Node :=
  let* (_, r) := expect LT toks in
  let* (_, r) := expect LT r in
  let* (e, r) := parse_operand true [] r in
  match r with
  | [] => NeedToken
  | t :: r' =>
      match type t with
      | SEMICOLON => POk (MkNode output [e] (VStr "")) r'
      | LT =>
          let* (_, r) := expect LT r' in
          let* (_, r) := expect ENDL r in
          let* (_, r) := expect SEMICOLON r in
          POk (MkNode output [e] (VStr "endl")) r
      | _ => Unexpected t
      end
  end.

(** [return_stmt], after [RETURN]. *)
Definition parse_return (toks : list LexToken) : presult Node :=
  let* (e, r) := parse_expression toks in
  let* (_, r) := expect SEMICOLON r in
  POk (MkNode return_ [e] VNone) r.

(** [params COMMA param], as often as a [COMMA] follows:
    [Node('params', p[1].children + [p[3]])]. *)
Fixpoint parse_more_params (acc : list Node) (toks : list LexToken)
  : presult Node :=
  match toks with
  | [] => POk (MkNode params acc VNone) []
  | c :: r1 =>
      if toktype_eqb (type c) COMMA then
        match r1 with
        | [] => NeedToken
        | i :: r2 =>
            if toktype_eqb (type i) INT then
              match r2 with
              | [] => NeedToken
              | id :: r3 =>
                  if toktype_eqb (type id) IDENTIFIER
                  then parse_more_params (acc ++ [MkNode param [] (value id)]) r3
                  else Unexpected id
              end
            else Unexpected i
        end
      else POk (MkNode params acc VNone) toks
  end.

(** [params : param | params COMMA param | empty].  The empty production is
    reduced when [RPAREN] or [COMMA] comes next. *)
Definition parse_params (toks : list LexToken) : presult Node :=
  match toks with
  | [] => NeedToken
  | t :: r =>
      match type t with
      | INT =>
          let* (id, r) := expect IDENTIFIER r in
          parse_more_params [MkNode param [] (value id)] r
      | RPAREN | COMMA => parse_more_params [] toks
      | _ => Unexpected t
      end
  end.

(** One member of a class body: a [declaration], or the [INT IDENTIFIER
    SEMICOLON] of [p_declarations], which builds the same node. *)
Definition parse_member (toks : list LexToken) : presult Node :=
  match toks with
  | [] => NeedToken
  | t :: r =>
      match type t with
      | INT =>
          let* (id, r) := expect IDENTIFIER r in
          parse_declaration_tail id r
      | FLOAT => parse_float_declaration r
      | _ => Unexpected t
      end
  end.

(** A non-empty sequence [item item ...] gathered under one node, as
    [p_statements] and [p_declarations] do: the sequence goes on while the
    next token [starts] an item.  [n] bounds the number of further items. *)
Fixpoint parse_more (kind : NodeType) (starts : toktype -> bool)
  (item : list LexToken -> presult Node) (n : nat) (acc : Node)
  (toks : list LexToken) : presult Node :=
  match toks with
  | [] => POk acc []
  | t :: _ =>
      if starts (type t) then
        match n with
        | O => OutOfFuel
        | S n' =>
            let* (x, r) := item toks in
            parse_more kind starts item n' (append_child acc x) r
        end
      else POk acc toks
  end.

Definition parse_sequence (kind : NodeType) (starts : toktype -> bool)
  (item : list LexToken -> presult Node) (toks : list LexToken)
  : presult Node :=
  let* (x, r) := item toks in
  parse_more kind starts item (length r) (MkNode kind [x] VNone) r.

Definition starts_member (t : toktype) : bool :=
  match t with
  | INT | FLOAT => true
  | _ => false
  end.

Definition parse_declarations : list LexToken -> presult Node :=
  parse_sequence declarations starts_member parse_member.

(** [class_def], after [CLASS]. *)
Definition parse_class (toks : list LexToken) : presult Node :=
  let* (id, r) := expect IDENTIFIER toks in
  let* (_, r) := expect LBRACE r in
  let* (ds, r) := parse_declarations r in
  let* (_, r) := expect RBRACE r in
  let* (_, r) := expect SEMICOLON r in
  POk (MkNode class [ds] (value id)) r.

(** *** Statements *)

Definition starts_statement (t : toktype) : bool :=
  match t with
  | INT | FLOAT | IDENTIFIER | IF | FOR | WHILE | CLASS | COUT | RETURN => true
  | _ => false
  end.

(** [LBRACE statements RBRACE] *)
Definition parse_block (stmt : list LexToken -> presult Node)
  (toks : list LexToken) : presult Node :=
  let* (_, r) := expect LBRACE toks in
  let* (b, r) := parse_sequence statements starts_statement stmt r in
  let* (_, r) := expect RBRACE r in
  POk b r.

(** One [statement], given the parser [block] of [LBRACE statements
    RBRACE]. *)
Definition parse_statement_with (block : list LexToken -> presult Node)
  (toks : list LexToken) : presult Node :=
  match toks with
  | [] => NeedToken
  | t :: r =>
      match type t with
      | INT =>
          let* (id, r) := expect IDENTIFIER r in
          match r with
          | lp :: r' =>
              if toktype_eqb (type lp) LPAREN then
                (* function_def *)
                let* (ps, r) := parse_params r' in
                let* (_, r) := expect RPAREN r in
                let* (b, r) := block r in
                POk (MkNode function [ps; b] (value id)) r
              else parse_declaration_tail id r
          | [] => NeedToken
          end
      | FLOAT => parse_float_declaration r
      | IDENTIFIER => parse_after_identifier t r
      | IF =>
          let* (_, r) := expect LPAREN r in
          let* (c, r) := parse_expression r in
          let* (_, r) := expect RPAREN r in
          let* (b1, r) := block r in
          match r with
          | e :: r' =>
              if toktype_eqb (type e) ELSE then
                let* (b2, r) := block r' in
                POk (MkNode if_ ([c; b1] ++ [b2]) VNone) r
              else POk (MkNode if_ ([c; b1] ++ []) VNone) r
          | [] => POk (MkNode if_ ([c; b1] ++ []) VNone) r
          end
      | FOR =>
          let* (_, r) := expect LPAREN r in
          let* (_, r) := expect INT r in
          let* (id, r) := expect IDENTIFIER r in
          let* (_, r) := expect EQUALS r in
          let* (e1, r) := parse_expression r in
          let* (_, r) := expect SEMICOLON r in
          let* (e2, r) := parse_expression r in
          let* (_, r) := expect SEMICOLON r in
          let* (_, r) := expect IDENTIFIER r in
          let* (_, r) := expect PLUSPLUS r in
          let* (_, r) := expect RPAREN r in
          let* (b, r) := block r in
          POk (MkNode for_ [e1; e2; b] (value id)) r
      | WHILE =>
          let* (_, r) := expect LPAREN r in
          let* (c, r) := parse_expression r in
          let* (_, r) := expect RPAREN r in
          let* (b, r) := block r in
          POk (MkNode while [c; b] VNone) r
      | CLASS => parse_class r
      | COUT => parse_output r
      | RETURN => parse_return r
      | _ => Unexpected t
      end
  end.

(** One [statement].  [fuel] bounds the depth of nested blocks. *)
Fixpoint parse_statement (fuel : nat) (toks : list LexToken) : presult Node :=
  match fuel with
  | O => OutOfFuel
  | S fuel' => parse_statement_with (parse_block (parse_statement fuel')) toks
  end.

(** [includes : include | includes include], one node per [INCLUDE] token. *)
Fixpoint parse_includes (acc : list Node) (toks : list LexToken)
  : Node * list LexToken :=
  match toks with
  | t :: r =>
      if toktype_eqb (type t) INCLUDE
      then parse_includes (acc ++ [MkNode include [] (value t)]) r
      else (MkNode includes acc VNone, toks)
  | [] => (MkNode includes acc VNone, [])
  end.

(** [program : includes statements | statements]; both actions keep the
    statements only.  The program is complete when no token is left. *)
Definition parse_program (fuel : nat) (toks : list LexToken) : presult Node :=
  let stmts := parse_sequence statements starts_statement (parse_statement fuel) in
  let* (p, r) :=
    match toks with
    | [] => NeedToken
    | t :: _ =>
        if toktype_eqb (type t) INCLUDE then
          let (p1, r) := parse_includes [] toks in
          let* (p2, r) := stmts r in
          POk (MkNode program [p2] VNone) r
        else
          let* (p1, r) := stmts toks in
          POk (MkNode program [p1] VNone) r
    end in
  match r with
  | [] => POk p []
  | t :: _ => Unexpected t
  end.

(** [parser.parse]: the depth of nesting never exceeds the number of
    tokens. *)
Definition parse (toks : list LexToken) : presult Node :=
  parse_program (S (length toks)) toks.

End Parser.

(** ** Code generator and the transpile function *)

(** A stand-in for the float printer, for evaluating the pipeline on inputs
    in which no float literal occurs: the literal text itself. *)
Definition literal_text (lexeme : string) : string := lexeme.

Section Transpiler.
Import Lexer Parser.

(** [str(float(lexeme))], the interpreter's printed form of the float read
    from the text of a numeric literal with a decimal point. *)
Variable float_str : string -> string.

Definition newline : string := String (ascii_of_nat 10) EmptyString.

(** [str(n)] for an [int]. *)
Definition str_of_int (n : N) : string := NilEmpty.string_of_uint (N.to_uint n).

(** [str(v)], which is also how an f-string formats [v]. *)
Definition py_str (v : pyval) : string :=
  match v with
  | VNone => "None"
  | VStr s => s
  | VInt n => str_of_int n
  | VFloat l => float_str l
  end.

(** ['    ' * indent] *)
Fixpoint indentation (indent : nat) : string :=
  match indent with
  | O => EmptyString
  | S k => "    " ++ indentation k
  end.

Definition op_map : list (string * string) :=
  [ ("+", "+"); ("-", "-"); ("*", "*"); ("/", "/"); ("<", "<"); (">", ">");
    ("&&", "and"); ("||", "or") ].

(** [op_map[k]] *)
Fixpoint dict_lookup (d : list (string * string)) (k : pyval) : outcome string :=
  match d with
  | [] => Raise KeyError
  | (k', v) :: d' =>
      match k with
      | VStr s => if String.eqb s k' then Return v else dict_lookup d' k
      | _ => Raise KeyError
      end
  end.

(** [', '.join(c.value for c in nodes)] *)
Fixpoint join_values (nodes : list Node) : outcome string :=
  match nodes with
  | [] => Return EmptyString
  | c :: rest =>
      match node_value c with
      | VStr s =>
          match rest with
          | [] => Return s
          | _ => r <- join_values rest ;; Return (s ++ ", " ++ r)
          end
      | _ => Raise TypeError
      end
  end.

(** The loop over the declarations of a class. *)
Fixpoint field_lines (indent_str : string) (decls : list Node) : string :=
  match decls with
  | [] => EmptyString
  | decl :: rest =>
      indent_str ++ "        self." ++ py_str (node_value decl) ++ " = 0" ++ newline
      ++ field_lines indent_str rest
  end.

(** [generate_code(node, indent)].  [children[i]] raises [IndexError] past
    the end of the list. *)
Fixpoint generate_code (node : Node) (indent : nat) : outcome string :=
  let indent_str := indentation indent in
  match node with
  | MkNode ty children value =>
      let child0 (i : nat) :=
        match children with
        | c :: _ => generate_code c i
        | _ => Raise IndexError
        end in
      let child1 (i : nat) :=
        match children with
        | _ :: c :: _ => generate_code c i
        | _ => Raise IndexError
        end in
      let child2 (i : nat) :=
        match children with
        | _ :: _ :: c :: _ => generate_code c i
        | _ => Raise IndexError
        end in
      match ty with
      | program | statements =>
          (fix each (l : list Node) : outcome string :=
             match l with
             | [] => Return EmptyString
             | child :: l' =>
                 s <- generate_code child indent ;;
                 r <- each l' ;;
                 Return (s ++ r)
             end) children
      | declaration =>
          e <- match children with
               | [] => Return "0"
               | c :: _ => generate_code c 0
               end ;;
          Return (indent_str ++ py_str value ++ " = " ++ e ++ newline)
      | assignment =>
          e <- child0 0 ;;
          Return (indent_str ++ py_str value ++ " = " ++ e ++ newline)
      | increment =>
          Return (indent_str ++ py_str value ++ " = " ++ py_str value ++ " + 1" ++ newline)
      | if_ =>
          c <- child0 0 ;;
          b1 <- child1 (indent + 1) ;;
          let head := indent_str ++ "if " ++ c ++ ":" ++ newline ++ b1 in
          if Nat.ltb 2 (length children) then
            b2 <- child2 (indent + 1) ;;
            Return (head ++ indent_str ++ "else:" ++ newline ++ b2)
          else Return head
      | for_ =>
          lo <- child0 0 ;;
          hi <- child1 0 ;;
          b <- child2 (indent + 1) ;;
          Return (indent_str ++ "for " ++ py_str value ++ " in range(" ++ lo ++ ", "
                  ++ hi ++ "):" ++ newline ++ b)
      | while =>
          c <- child0 0 ;;
          b <- child1 (indent + 1) ;;
          Return (indent_str ++ "while " ++ c ++ ":" ++ newline ++ b)
      | function =>
          ps <- match children with
                | c :: _ => join_values (node_children c)
                | [] => Raise IndexError
                end ;;
          b <- child1 (indent + 1) ;;
          Return (indent_str ++ "def " ++ py_str value ++ "(" ++ ps ++ "):" ++ newline ++ b)
      | class =>
          match children with
          | c :: _ =>
              Return (indent_str ++ "class " ++ py_str value ++ ":" ++ newline
                      ++ indent_str ++ "    def __init__(self):" ++ newline
                      ++ field_lines indent_str (node_children c))
          | [] => Raise IndexError
          end
      | output =>
          let newline_ := match value with
                          | VStr "endl" => "\n"
                          | _ => EmptyString
                          end in
          e <- child0 0 ;;
          Return (indent_str ++ "print(" ++ e ++ ", end='" ++ newline_ ++ "')" ++ newline)
      | return_ =>
          e <- child0 0 ;;
          Return (indent_str ++ "return " ++ e ++ newline)
      | binop =>
          l <- child0 0 ;;
          op <- dict_lookup op_map value ;;
          r <- child1 0 ;;
          Return (l ++ " " ++ op ++ " " ++ r)
      | unop =>
          e <- child0 0 ;;
          Return ("not " ++ e)
      | literal => Return (py_str value)
      | includes | include | params | param | declarations => Return EmptyString
      end
  end.

(** The messages of [t_error] and [p_error]. *)
Definition illegal_character (c : ascii) (ln : N) : string :=
  "Illegal character '" ++ String c EmptyString ++ "' at line " ++ str_of_int ln.

Definition syntax_error_at (t : LexToken) : string :=
  "Syntax error at '" ++ py_str (Lexer.value t) ++ "' on line "
  ++ str_of_int (lineno t).

Definition unexpected_end : string := "Unexpected end of input".

(** The body of the [try] in [transpile], run with the module's lexer at line
    [ln]: what it returns or raises, and the line counter it leaves behind.
    The parser draws one token at a time, so of a rejected token, an
    illegal character and an exception in a rule function the one that
    comes first in the text is reported.
    [None] stands for an exhausted [fuel] in [parse]. *)
Definition transpile_body (ln : N) (cpp_code : string)
  : option (outcome string * N) :=
  let (toks, stop) := tokenize cpp_code ln in
  match parse toks with
  | OutOfFuel => None
  | Unexpected t => Some (Raise (SyntaxError (syntax_error_at t)), lineno t)
  | NeedToken =>
      match stop with
      | LexIllegal c l => Some (Raise (SyntaxError (illegal_character c l)), l)
      | LexEof l => Some (Raise (SyntaxError unexpected_end), l)
      | LexRaise e l => Some (Raise e, l)
      end
  | POk ast _ =>
      match stop with
      | LexIllegal c l => Some (Raise (SyntaxError (illegal_character c l)), l)
      | LexEof l => Some (generate_code ast 0, l)
      | LexRaise e l => Some (Raise e, l)
      end
  end.

(** A tree the generator turns into text at every indentation. *)
Definition gen_ok (n : Node) : Prop :=
  forall indent, exists text, generate_code n indent = Return text.

(** [transpile(cpp_code)]: [except SyntaxError as e: return str(e)]. *)
Definition transpile (ln : N) (cpp_code : string) : option (outcome string * N) :=
  match transpile_body ln cpp_code with
  | Some (Raise (SyntaxError msg), ln') => Some (Return msg, ln')
  | other => other
  end.

(** Two calls in a row on the one module-level lexer: the second starts with
    the line counter the first left. *)
Definition transpile_twice (ln : N) (first second : string)
  : option (outcome string * outcome string) :=
  match transpile ln first with
  | Some (r1, ln1) =>
      match transpile ln1 second with
      | Some (r2, _) => Some (r1, r2)
      | None => None
      end
  | None => None
  end.

End Transpiler.

(** [lex.lex()] creates the lexer with [lineno = 1]. *)
Definition initial_lineno : N := 1.

(** ** Vocabulary of the statements below *)

Module Shape.
Import Lexer Parser.

(** [rest] is what is left of [toks] after at least one token. *)
Definition strict_suffix (rest toks : list LexToken) : Prop :=
  exists pre, pre <> [] /\ toks = (pre ++ rest)%list.

(** [rest] is what is left of [toks] after any number of tokens. *)
Definition suffix (rest toks : list LexToken) : Prop :=
  exists pre, toks = (pre ++ rest)%list.

(** The values the lexer gives to the tokens whose value reaches the
    generator through a dictionary key or a [join]: an operator token carries
    its own text and an identifier a string. *)
Definition tok_ok (t : LexToken) : Prop :=
  match type t with
  | PLUS => value t = VStr "+"
  | MINUS => value t = VStr "-"
  | MULTIPLY => value t = VStr "*"
  | DIVIDE => value t = VStr "/"
  | LT => value t = VStr "<"
  | GT => value t = VStr ">"
  | AND => value t = VStr "&&"
  | OR => value t = VStr "||"
  | IDENTIFIER => exists s, value t = VStr s
  | _ => True
  end.

(** A parser that, on tokens as the lexer makes them, builds only trees with
    the property [P], and leaves such tokens. *)
Definition sound (P : Node -> Prop) (p : list LexToken -> presult Node) : Prop :=
  forall toks n r,
    Forall tok_ok toks -> p toks = POk n r -> P n /\ Forall tok_ok r.

(** A stack entry whose left operand has the property [ok] and whose
    operator is one of the eight binary operators. *)
Definition frame_ok (ok : Node -> Prop) (f : frame) : Prop :=
  match f with
  | FBin lhs op => ok lhs /\ is_binop (type op) = true /\ tok_ok op
  | FNot _ => True
  end.

(** A [params] node whose children all carry a string. *)
Definition params_ok (n : Node) : Prop :=
  exists ps, n = MkNode params ps VNone
             /\ Forall (fun p => exists s, node_value p = VStr s) ps.

(** A [declarations] node: at least one child, each a [declaration] named
    by a string. *)
Definition declarations_ok (n : Node) : Prop :=
  exists ds, n = MkNode declarations ds VNone /\ ds <> []
             /\ Forall (fun d => node_type d = declaration
                                 /\ exists s, node_value d = VStr s) ds.

(** The three primitive forms of [expression]. *)
Definition is_operand (t : toktype) : bool :=
  match t with
  | NUMBER | IDENTIFIER | STRING => true
  | _ => false
  end.

Definition is_additive (t : toktype) : bool :=
  match t with
  | PLUS | MINUS => true
  | _ => false
  end.

Definition is_multiplicative (t : toktype) : bool :=
  match t with
  | MULTIPLY | DIVIDE => true
  | _ => false
  end.


Definition lit (t : LexToken) : Node := MkNode literal [] (value t).

Definition bin (l : Node) (op : LexToken) (r : Node) : Node :=
  MkNode binop [l; r] (value op).

(** The sentences of [expression]: operands, each after any number of [NOT],
    with one binary operator between neighbours. *)
Fixpoint expr_shape (toks : list LexToken) : bool :=
  match toks with
  | [] => false
  | t :: rest =>
      if toktype_eqb (type t) NOT then expr_shape rest
      else
        is_operand (type t)
        && match rest with
           | [] => true
           | a :: rest' => is_binop (type a) && expr_shape rest'
           end
  end.

(** One member of a class body, by its tokens: the type keyword, the name,
    the initializer ([EQUALS] and the tokens of an expression, or nothing)
    and the semicolon. *)
Record field : Type := mkField {
  f_kw : LexToken;
  f_id : LexToken;
  f_init : list LexToken;
  f_semi : LexToken
}.

Definition field_tokens (f : field) : list LexToken :=
  f_kw f :: f_id f :: f_init f ++ [f_semi f].

(** The members the grammar has: [INT IDENTIFIER SEMICOLON], and
    [INT IDENTIFIER EQUALS expression SEMICOLON] or the same with [FLOAT]. *)
Definition field_ok (f : field) : Prop :=
  type (f_id f) = IDENTIFIER /\ type (f_semi f) = SEMICOLON
  /\ match f_init f with
     | [] => type (f_kw f) = INT
     | asg :: e_toks =>
         (type (f_kw f) = INT \/ type (f_kw f) = FLOAT)
         /\ type asg = EQUALS /\ expr_shape e_toks = true
     end.

(** The tokens of [class name { fields };]. *)
Definition class_tokens (kw name lb : LexToken) (fields : list field)
  (rb semi : LexToken) : list LexToken :=
  kw :: name :: lb :: List.concat (map field_tokens fields) ++ [rb; semi].

(** The sentences with arithmetic operators only. *)
Fixpoint arith_shape (toks : list LexToken) : bool :=
  match toks with
  | [] => false
  | t :: rest =>
      is_operand (type t)
      && match rest with
         | [] => true
         | a :: rest' =>
             (is_additive (type a) || is_multiplicative (type a))
             && arith_shape rest'
         end
  end.

Fixpoint all_chars (p : ascii -> bool) (s : string) : bool :=
  match s with
  | EmptyString => true
  | String c s' => p c && all_chars p s'
  end.

(** The texts [t_INCLUDE] matches. *)
Definition include_directive (d : string) : Prop :=
  exists ws name,
    d = "#include" ++ ws ++ "<" ++ name ++ ">"
    /\ all_chars is_space ws = true
    /\ all_chars is_ident_char name = true
    /\ name <> EmptyString.

Definition is_blank (c : ascii) : bool := is_ignored c || is_newline c.

(** [without_includes p q]: [p] is made of include directives, spaces, tabs
    and line feeds, and [q] is [p] with the directives taken out. *)
Inductive without_includes : string -> string -> Prop :=
| wi_end : without_includes EmptyString EmptyString
| wi_blank c p q :
    is_blank c = true -> without_includes p q ->
    without_includes (String c p) (String c q)
| wi_directive d p q :
    include_directive d -> without_includes p q ->
    without_includes (d ++ p) q.

(** A token, a stack entry, a parser result and the end of a scan as they
    are when the lexer starts [d] lines later. *)
Definition relocate (d : N) (t : LexToken) : LexToken :=
  mkTok (type t) (value t) (lineno t + d).

Definition relocate_frame (d : N) (f : frame) : frame :=
  match f with
  | FBin lhs op => FBin lhs (relocate d op)
  | FNot op => FNot (relocate d op)
  end.

Definition relocated {A} (fa : A -> A) (d : N) (r : presult A) : presult A :=
  match r with
  | POk a rest => POk (fa a) (map (relocate d) rest)
  | Unexpected t => Unexpected (relocate d t)
  | NeedToken => NeedToken
  | OutOfFuel => OutOfFuel
  end.

Definition relocate_stop (d : N) (stop : lex_stop) : lex_stop :=
  match stop with
  | LexEof l => LexEof (l + d)
  | LexIllegal c l => LexIllegal c (l + d)
  | LexRaise e l => LexRaise e (l + d)
  end.

(** A declaration node without its initializer. *)
Definition strip_initializer (d : Node) : Node :=
  MkNode declaration [] (node_value d).

End Shape.

(** ** Tokens of the sample inputs *)

Module Inputs.
Import Lexer.

(** A token on line 1 whose value is its text. *)
Definition tok (ty : toktype) (text : string) : LexToken :=
  mkTok ty (VStr text) 1.

Definition t_int : LexToken := tok INT "int".
Definition t_class : LexToken := tok CLASS "class".
Definition t_cout : LexToken := tok COUT "cout".
Definition t_endl : LexToken := tok ENDL "endl".
Definition t_a : LexToken := tok IDENTIFIER "a".
Definition t_b : LexToken := tok IDENTIFIER "b".
Definition t_c : LexToken := tok IDENTIFIER "c".
Definition t_x : LexToken := tok IDENTIFIER "x".
Definition t_y : LexToken := tok IDENTIFIER "y".
Definition t_A : LexToken := tok IDENTIFIER "A".
Definition t_5 : LexToken := mkTok NUMBER (VInt 5) 1.
Definition t_plus : LexToken := tok PLUS "+".
Definition t_lt : LexToken := tok LT "<".
Definition t_equals : LexToken := tok EQUALS "=".
Definition t_semi : LexToken := tok SEMICOLON ";".
Definition t_lbrace : LexToken := tok LBRACE "{".
Definition t_rbrace : LexToken := tok RBRACE "}".

End Inputs.

(** ** Vocabulary of the further properties *)

Module Further.
Import Lexer Parser Shape.

(** The number of line feeds in a text. *)
Fixpoint line_feeds (s : string) : N :=
  match s with
  | EmptyString => 0
  | String c s' => (if is_newline c then 1 else 0) + line_feeds s'
  end.

(** The line counter at the end of a scan. *)
Definition stop_line (stop : lex_stop) : N :=
  match stop with
  | LexEof l => l
  | LexIllegal _ l => l
  | LexRaise _ l => l
  end.

(** The first character of a text is outside the class [p], or there is
    none. *)
Definition stops (p : ascii -> bool) (s : string) : Prop :=
  match s with
  | String c _ => p c = false
  | EmptyString => True
  end.

(** A text without a line feed and without the two characters that close a
    block comment. *)
Fixpoint no_close (b : string) : bool :=
  match b with
  | EmptyString => true
  | String c b' =>
      negb (is_newline c)
      && negb (Ascii.eqb c "*" && match b' with
                                  | String c' _ => Ascii.eqb c' "/"
                                  | EmptyString => false
                                  end)
      && no_close b'
  end.

(** A text between double quotes. *)
Definition quoted (body : string) : string :=
  String dquote (body ++ String dquote EmptyString).

(** The one-character operators and brackets of the rule table. *)
Definition punctuation : list ascii :=
  [ "("; ")"; "{"; "}"; ";"; ","; "="; "+"; "-"; "*"; "/"; "<"; ">"; "!";
    ":"; "["; "]" ]%char.

(** The characters at which some rule matches whatever follows. *)
Definition always_starts_token (c : ascii) : bool :=
  is_ident_start c || is_digit c || is_newline c
  || existsb (Ascii.eqb c) punctuation.

(** The characters at which a rule may match, depending on what follows:
    the number sign, the double quote, the ampersand and the bar. *)
Definition may_start_token (c : ascii) : bool :=
  existsb (Ascii.eqb c) [ "#"; dquote; "&"; "|" ]%char.

(** A text at which a number literal ends: it does not go on with a digit,
    nor with a point and a digit. *)
Definition number_ends (s : string) : Prop :=
  match s with
  | EmptyString => True
  | String c s' => is_digit c = false /\ (c = "."%char -> stops is_digit s')
  end.

(** The word the generator writes for a token of an expression: an operand
    as [str] prints its value, an operator as [op_map] renames it. *)
Definition word (float_str : string -> string) (t : LexToken) : string :=
  match type t with
  | NOT => "not"
  | AND => "and"
  | OR => "or"
  | _ => py_str float_str (value t)
  end.

(** The nodes [p_expression] builds. *)
Definition expression_node (n : Node) : bool :=
  match node_type n with
  | literal | unop | binop => true
  | _ => false
  end.

(** [' '.join(words)] *)
Fixpoint spaced (words : list string) : string :=
  match words with
  | [] => EmptyString
  | w :: rest =>
      match rest with
      | [] => w
      | _ => w ++ " " ++ spaced rest
      end
  end.

(** The text that stands in front of the operand being read: for every
    entry of the parser's stack, the text of its left operand and its
    operator, or the negation word. *)
Inductive stack_text (float_str : string -> string)
  : list frame -> string -> Prop :=
| st_nil : stack_text float_str [] EmptyString
| st_bin lhs op st w tl :
    stack_text float_str st w ->
    generate_code float_str lhs 0 = Return tl ->
    is_binop (type op) = true -> tok_ok op ->
    stack_text float_str (FBin lhs op :: st)
               (w ++ tl ++ " " ++ word float_str op ++ " ")
| st_not op st w :
    stack_text float_str st w -> type op = NOT ->
    stack_text float_str (FNot op :: st) (w ++ "not ").

(** The last character of a text is a line feed. *)
Fixpoint ends_with_newline (s : string) : bool :=
  match s with
  | EmptyString => false
  | String c s' =>
      match s' with
      | EmptyString => is_newline c
      | _ => ends_with_newline s'
      end
  end.

(** A node whose text, at every indentation, starts with the indentation
    and ends with a line feed. *)
Definition laid_out (float_str : string -> string) (n : Node) : Prop :=
  forall indent, exists text,
    generate_code float_str n indent = Return text
    /\ String.prefix (indentation indent) text = true
    /\ ends_with_newline text = true.

(** The terminals that occur in a production of the grammar.  The other
    eight of the [tokens] tuple are made by the lexer and used by no
    production. *)
Definition in_grammar (t : toktype) : bool :=
  match t with
  | COLON | ARROW | LBRACKET | RBRACKET | STRING_H | IOSTREAM | NAMESPACE
  | STD => false
  | _ => true
  end.

(** [r] is what is left of [toks] after tokens of the grammar only. *)
Definition eats (toks r : list LexToken) : Prop :=
  exists pre, toks = (pre ++ r)%list
              /\ Forall (fun t => in_grammar (type t) = true) pre.

(** A parser that reads tokens of the grammar only. *)
Definition eater (p : list LexToken -> presult Node) : Prop :=
  forall toks n r, p toks = POk n r -> eats toks r.

(** The tokens of [, int a, int b ...]: a comma, [int] and a name for each
    further parameter. *)
Fixpoint more_params (l : list (LexToken * LexToken * LexToken))
  : list LexToken :=
  match l with
  | [] => []
  | (c, i, id) :: l' => c :: i :: id :: more_params l'
  end.

(** The [param] node of one of them. *)
Definition param_of (p : LexToken * LexToken * LexToken) : Node :=
  MkNode param [] (value (snd p)).

(** A parser that rejects tokens of its input only. *)
Definition blames (p : list LexToken -> presult Node) : Prop :=
  forall toks t, p toks = Unexpected t -> In t toks.

(** Tokens that all occur in some production, and a parser that asks for
    another token only after it has read every token of its input. *)
Definition all_grammar (toks : list LexToken) : Prop :=
  Forall (fun t => in_grammar (type t) = true) toks.

Definition hungry (p : list LexToken -> presult Node) : Prop :=
  forall toks, p toks = NeedToken -> all_grammar toks.

(** A parser that reads the same when more tokens follow what it left:
    always ([settled]), or when it left at least one token ([stable]). *)
Definition settled (p : list LexToken -> presult Node) : Prop :=
  forall toks n r tl, p toks = POk n r -> p (toks ++ tl)%list = POk n (r ++ tl)%list.

Definition stable (p : list LexToken -> presult Node) : Prop :=
  forall toks n r tl,
    p toks = POk n r -> r <> [] -> p (toks ++ tl)%list = POk n (r ++ tl)%list.

(** The tokens do not begin with [else]. *)
Definition no_else (tl : list LexToken) : Prop :=
  match tl with
  | t :: _ => type t <> ELSE
  | [] => True
  end.

(** A statement parser reads the same when more tokens follow, unless it
    read to the end of a conditional and [else] follows. *)
Definition stable_but_else (p : list LexToken -> presult Node) : Prop :=
  forall toks n r tl,
    p toks = POk n r -> r <> [] \/ no_else tl ->
    p (toks ++ tl)%list = POk n (r ++ tl)%list.


(** ["9" * n] *)
Fixpoint nines (n : nat) : string :=
  match n with
  | O => EmptyString
  | S k => String "9" (nines k)
  end.

(** A text without its first [k] characters. *)
Fixpoint skip_chars (k : nat) (s : string) : string :=
  match k, s with
  | S k', String _ s' => skip_chars k' s'
  | _, _ => s
  end.

(** The lines of the tokens go up from [ln] to [stop]:
    [ln <= l1 <= l2 <= ... <= stop]. *)
Fixpoint ascending (ln : N) (toks : list LexToken) (stop : N) : Prop :=
  match toks with
  | [] => (ln <= stop)%N
  | t :: rest => (ln <= lineno t)%N /\ ascending (lineno t) rest stop
  end.

End Further.

(** ** Tokens of further sample inputs *)

Module MoreInputs.
Import Lexer Inputs.

Definition t_f : LexToken := tok IDENTIFIER "f".
Definition t_float : LexToken := tok FLOAT "float".
Definition t_lparen : LexToken := tok LPAREN "(".
Definition t_rparen : LexToken := tok RPAREN ")".
Definition t_comma : LexToken := tok COMMA ",".
Definition t_return : LexToken := tok RETURN "return".
Definition t_using : LexToken := tok IDENTIFIER "using".
Definition t_namespace : LexToken := tok NAMESPACE "namespace".
Definition t_std : LexToken := tok STD "std".
Definition t_pp : LexToken := tok PLUSPLUS "++".
Definition t_while : LexToken := tok WHILE "while".
Definition t_if : LexToken := tok IF "if".
Definition t_else : LexToken := tok ELSE "else".
Definition t_for : LexToken := tok FOR "for".
Definition t_i : LexToken := tok IDENTIFIER "i".
Definition t_j : LexToken := tok IDENTIFIER "j".
Definition t_0 : LexToken := mkTok NUMBER (VInt 0) 1.

End MoreInputs.

(** * Properties *)

(** ** The lexer *)

Module LexerFacts.
Import Lexer Shape.

Lemma master_rules_order :
  map act master_rules =
  [ Ident; Number; Newline; Emit INCLUDE; Discard; Emit STRING; Emit OR;
    Emit PLUSPLUS; Emit LPAREN; Emit RPAREN; Emit LBRACE; Emit RBRACE;
    Emit PLUS; Emit MULTIPLY; Emit AND; Emit ARROW; Emit LBRACKET;
    Emit RBRACKET; Emit SEMICOLON; Emit COMMA; Emit EQUALS; Emit MINUS;
    Emit DIVIDE; Emit LT; Emit GT; Emit NOT; Emit COLON ].
Proof. reflexivity. Qed.

Lemma master_rules_eq :
  master_rules =
  [ mkRule "[a-zA-Z_][a-zA-Z0-9_]*" Ident re_IDENTIFIER;
    mkRule "\d+(\.\d+)?" Number re_NUMBER;
    mkRule "\n+" Newline re_newline;
    mkRule "\#include\s*<\w+>" (Emit INCLUDE) re_INCLUDE;
    mkRule "//.*|/\*.*?\*/" Discard re_COMMENT;
    mkRule STRING_pattern (Emit STRING) re_STRING;
    mkRule "\|\|" (Emit OR) (lit_rule "||");
    mkRule "\+\+" (Emit PLUSPLUS) (lit_rule "++");
    mkRule "\(" (Emit LPAREN) (lit_rule "(");
    mkRule "\)" (Emit RPAREN) (lit_rule ")");
    mkRule "\{" (Emit LBRACE) (lit_rule "{");
    mkRule "\}" (Emit RBRACE) (lit_rule "}");
    mkRule "\+" (Emit PLUS) (lit_rule "+");
    mkRule "\*" (Emit MULTIPLY) (lit_rule "*");
    mkRule "&&" (Emit AND) (lit_rule "&&");
    mkRule "->" (Emit ARROW) (lit_rule "->");
    mkRule "\[" (Emit LBRACKET) (lit_rule "[");
    mkRule "\]" (Emit RBRACKET) (lit_rule "]");
    mkRule ";" (Emit SEMICOLON) (lit_rule ";");
    mkRule "," (Emit COMMA) (lit_rule ",");
    mkRule "=" (Emit EQUALS) (lit_rule "=");
    mkRule "-" (Emit MINUS) (lit_rule "-");
    mkRule "/" (Emit DIVIDE) (lit_rule "/");
    mkRule "<" (Emit LT) (lit_rule "<");
    mkRule ">" (Emit GT) (lit_rule ">");
    mkRule "!" (Emit NOT) (lit_rule "!");
    mkRule ":" (Emit COLON) (lit_rule ":") ].
Proof. reflexivity. Qed.

Lemma string_app_assoc (a b c : string) : ((a ++ b) ++ c = a ++ (b ++ c))%string.
Proof. induction a; simpl; congruence. Qed.

Lemma string_length_app (a b : string) :
  String.length (a ++ b) = String.length a + String.length b.
Proof. induction a; simpl; congruence. Qed.

(** After a match the scan resumes behind the matched text. *)
Lemma scan_skip (pre s : string) (ln : N) :
  scan (String.length pre) (pre ++ s) ln = scan 0 s ln.
Proof. induction pre; simpl; auto. Qed.

(** A greedy run takes a whole prefix of the class and stops at what
    follows when that is outside the class. *)
Lemma span_app (p : ascii -> bool) (a b : string) :
  all_chars p a = true ->
  match b with String c _ => p c = false | EmptyString => True end ->
  span p (a ++ b) = (a, b).
Proof.
  intros Ha Hb. induction a as [|c a IH]; simpl in *.
  - destruct b as [|c b]; simpl; [reflexivity | now rewrite Hb].
  - apply andb_true_iff in Ha as [Hc Ha]. now rewrite Hc, IH.
Qed.

Lemma span_spec (p : ascii -> bool) (s : string) :
  forall a b, span p s = (a, b) ->
    s = a ++ b /\ all_chars p a = true
    /\ match b with String c _ => p c = false | EmptyString => True end.
Proof.
  induction s as [|c s IH]; simpl; intros a b H.
  - inversion H; subst; auto.
  - destruct (p c) eqn:Hc.
    + destruct (span p s) as [a' b'] eqn:E. inversion H; subst.
      destruct (IH a' b eq_refl) as (-> & Ha & Hb). simpl. rewrite Hc. auto.
    + inversion H; subst. simpl. auto.
Qed.

(** [t_INCLUDE] matches a directive in front of any text, whole. *)
Lemma re_INCLUDE_directive (d s : string) :
  include_directive d -> re_INCLUDE (d ++ s) = Some (d, s).
Proof.
  intros (ws & name & -> & Hws & Hname & Hne).
  unfold re_INCLUDE.
  replace (strip "#include" (("#include" ++ ws ++ "<" ++ name ++ ">") ++ s))
    with (Some (ws ++ String "<" (name ++ String ">" s))).
  2:{ simpl. rewrite string_app_assoc. simpl. rewrite string_app_assoc. reflexivity. }
  rewrite (span_app is_space ws (String "<" (name ++ String ">" s))) by (auto; reflexivity).
  rewrite (span_app is_ident_char name (String ">" s)) by (auto; reflexivity).
  destruct name as [|c name]; [congruence|reflexivity].
Qed.

Lemma directive_first_match (d s : string) :
  include_directive d ->
  first_match master_rules (d ++ s) = Some (Emit INCLUDE, d).
Proof.
  intros H. rewrite master_rules_eq.
  pose proof (re_INCLUDE_directive d s H) as E.
  destruct H as (ws & name & -> & _).
  cbn [first_match matcher act].
  replace (re_IDENTIFIER _) with (@None (string * string)) by reflexivity.
  replace (re_NUMBER _) with (@None (string * string)) by reflexivity.
  replace (re_newline _) with (@None (string * string)) by reflexivity.
  now rewrite E.
Qed.

(** A directive in the text is one [INCLUDE] token, and the line counter
    stays where it was. *)
Lemma scan_directive (d s : string) (ln : N) :
  include_directive d ->
  scan 0 (d ++ s) ln =
  (mkTok INCLUDE (VStr d) ln :: fst (scan 0 s ln), snd (scan 0 s ln)).
Proof.
  intros H. pose proof (directive_first_match d s H) as E.
  destruct H as (ws & name & Hd & _).
  assert (exists d', d = String "#" d') as [d' ->]
    by (subst d; simpl; eauto).
  change (String "#" d' ++ s) with (String "#" (d' ++ s)) in *.
  cbn [scan]. change (is_ignored "#") with false. cbv iota.
  rewrite E. cbn [String.length pred]. rewrite scan_skip.
  now destruct (scan 0 s ln).
Qed.

Lemma is_newline_char (c : ascii) : is_newline c = true -> c = ascii_of_nat 10.
Proof.
  unfold is_newline, code. intros H. apply Nat.eqb_eq in H.
  rewrite <- (ascii_nat_embedding c). now rewrite H.
Qed.

(** A run of line feeds is one match of [t_newline], which adds its length
    to the line counter. *)
Lemma scan_newline_run (m rest : string) (ln : N) :
  all_chars is_newline m = true ->
  match rest with String c _ => is_newline c = false | EmptyString => True end ->
  scan 0 (m ++ rest) ln = scan 0 rest (ln + N.of_nat (String.length m)).
Proof.
  intros Hm Hrest. destruct m as [|c m]; simpl in Hm.
  - simpl. now rewrite N.add_0_r.
  - apply andb_true_iff in Hm as [Hc Hm].
    apply is_newline_char in Hc. subst c.
    change (String (ascii_of_nat 10) m ++ rest) with (String (ascii_of_nat 10) (m ++ rest)).
    cbn [scan]. change (is_ignored (ascii_of_nat 10)) with false. cbv iota.
    rewrite master_rules_eq. cbn [first_match matcher act].
    replace (re_IDENTIFIER _) with (@None (string * string)) by reflexivity.
    replace (re_NUMBER _) with (@None (string * string)) by reflexivity.
    unfold re_newline. cbn [span]. change (is_newline (ascii_of_nat 10)) with true.
    cbv iota. rewrite (span_app is_newline m rest Hm Hrest).
    cbn [String.length pred]. apply scan_skip.
Qed.

(** Line feeds count one by one. *)
Lemma scan_newline (s : string) (ln : N) :
  scan 0 (String (ascii_of_nat 10) s) ln = scan 0 s (ln + 1).
Proof.
  destruct (span is_newline s) as [m rest] eqn:E.
  apply span_spec in E as (-> & Hm & Hrest).
  change (String (ascii_of_nat 10) (m ++ rest))
    with (String (ascii_of_nat 10) m ++ rest).
  rewrite (scan_newline_run (String (ascii_of_nat 10) m) rest) by (simpl; auto).
  rewrite (scan_newline_run m rest) by auto.
  f_equal. cbn [String.length]. lia.
Qed.

(** A space, a tab or a line feed yields no token. *)
Lemma scan_blank (c : ascii) (s : string) (ln : N) :
  is_blank c = true ->
  exists ln', scan 0 (String c s) ln = scan 0 s ln'.
Proof.
  unfold is_blank. intros H. destruct (is_ignored c) eqn:Hi.
  - exists ln. cbn [scan]. now rewrite Hi.
  - simpl in H. apply is_newline_char in H. subst c.
    exists (ln + 1)%N. apply scan_newline.
Qed.

Lemma lit_rule_text (l s m r : string) : lit_rule l s = Some (m, r) -> m = l.
Proof. unfold lit_rule. destruct (strip l s); congruence. Qed.

(** A keyword lookup gives a keyword or [IDENTIFIER], never an operator. *)
Lemma t_IDENTIFIER_ok (text : string) (ln : N) : tok_ok (t_IDENTIFIER text ln).
Proof.
  unfold t_IDENTIFIER, tok_ok, reserved. cbn [type value dict_get].
  repeat match goal with
         | |- context [String.eqb ?a ?b] => destruct (String.eqb a b)
         end; try exact I.
  eauto.
Qed.

(** A string rule hands out the text it matched, which for an operator is
    the operator. *)
Lemma first_match_emit_ok (s m : string) (t : toktype) (ln : N) :
  first_match master_rules s = Some (Emit t, m) -> tok_ok (mkTok t (VStr m) ln).
Proof.
  rewrite master_rules_eq. cbn [first_match matcher act].
  repeat match goal with
         | |- context [match ?f s with _ => _ end] =>
             let E := fresh "E" in
             destruct (f s) as [[? ?]|] eqn:E;
             [ intros H; inversion H; subst;
               try (apply lit_rule_text in E; subst);
               try exact I; try reflexivity | ]
         end.
  discriminate.
Qed.

(** [t_NUMBER] hands out a [NUMBER] token on the current line, or raises
    [ValueError]. *)
Lemma t_NUMBER_cases (m : string) (ln : N) :
  (exists v, t_NUMBER m ln = Return (mkTok NUMBER v ln))
  \/ t_NUMBER m ln = Raise ValueError.
Proof.
  unfold t_NUMBER, py_int.
  destruct (has_dot m); [|destruct (Nat.ltb _ _)]; cbn [bind]; eauto.
Qed.

(** The only exception a rule function raises is [ValueError]. *)
Lemma scan_raises (s : string) :
  forall k ln e l, snd (scan k s ln) = LexRaise e l -> e = ValueError.
Proof.
  induction s as [|c s IH]; intros k ln e l; cbn [scan].
  - discriminate.
  - destruct k; [|apply IH].
    destruct (is_ignored c); [apply IH|].
    destruct (first_match master_rules (String c s)) as [[a m]|]; [|discriminate].
    destruct a; try apply IH.
    + specialize (IH (pred (String.length m)) ln e l).
      now destruct (scan _ s ln).
    + destruct (t_NUMBER_cases m ln) as [[v ->] | ->].
      * specialize (IH (pred (String.length m)) ln e l).
        now destruct (scan _ s ln).
      * cbn [snd]. congruence.
    + specialize (IH (pred (String.length m)) ln e l).
      now destruct (scan _ s ln).
Qed.

(** Every token the lexer hands out carries the value its type promises. *)
Lemma scan_tok_ok (s : string) :
  forall k ln, Forall tok_ok (fst (scan k s ln)).
Proof.
  induction s as [|c s IH]; intros k ln; cbn [scan].
  - constructor.
  - destruct k; [|apply IH].
    destruct (is_ignored c); [apply IH|].
    destruct (first_match master_rules (String c s)) as [[a m]|] eqn:E.
    2:{ constructor. }
    destruct a; try apply IH.
    + specialize (IH (pred (String.length m)) ln).
      destruct (scan _ s ln). constructor; [apply t_IDENTIFIER_ok | exact IH].
    + specialize (IH (pred (String.length m)) ln).
      unfold t_NUMBER, py_int.
      destruct (has_dot m); [|destruct (Nat.ltb _ _)]; cbn [bind];
        try constructor;
        destruct (scan _ s ln); (constructor; [exact I | exact IH]).
    + specialize (IH (pred (String.length m)) ln).
      destruct (scan _ s ln).
      constructor; [eapply first_match_emit_ok; eauto | exact IH].
Qed.

End LexerFacts.

(** ** The parser *)

Module ParserFacts.
Import Lexer Parser Shape.
Local Open Scope list_scope.

Lemma strict_suffix_cons (t : LexToken) (r : list LexToken) :
  strict_suffix r (t :: r).
Proof. exists [t]. split; [discriminate | reflexivity]. Qed.

Lemma strict_suffix_trans (a b c : list LexToken) :
  strict_suffix a b -> strict_suffix b c -> strict_suffix a c.
Proof.
  intros (p & Hp & ->) (q & Hq & ->). exists (q ++ p). split.
  - destruct q; [congruence | discriminate].
  - now rewrite app_assoc.
Qed.

Lemma strict_suffix_step (t : LexToken) (a b : list LexToken) :
  strict_suffix a b -> strict_suffix a (t :: b).
Proof. intros H. eapply strict_suffix_trans; [exact H | apply strict_suffix_cons]. Qed.

Lemma strict_suffix_length (a b : list LexToken) :
  strict_suffix a b -> length a < length b.
Proof.
  intros (p & Hp & ->). rewrite length_app.
  destruct p; [congruence | simpl; lia].
Qed.

Lemma strict_suffix_Forall (P : LexToken -> Prop) (a b : list LexToken) :
  strict_suffix a b -> Forall P b -> Forall P a.
Proof. intros (p & _ & ->) H. now apply Forall_app in H. Qed.

Lemma toktype_eqb_eq (a b : toktype) : toktype_eqb a b = true <-> a = b.
Proof. split; [destruct a, b; simpl; congruence | intros ->; destruct b; reflexivity]. Qed.

Lemma pbind_ok {A B} (m : presult A) (k : A -> list LexToken -> presult B) b r :
  pbind m k = POk b r -> exists a r1, m = POk a r1 /\ k a r1 = POk b r.
Proof. destruct m; simpl; try discriminate. eauto. Qed.

Lemma pbind_fuel {A B} (m : presult A) (k : A -> list LexToken -> presult B) :
  pbind m k = OutOfFuel ->
  m = OutOfFuel \/ exists a r1, m = POk a r1 /\ k a r1 = OutOfFuel.
Proof. destruct m; simpl; try discriminate; eauto. Qed.

Lemma expect_ok (ty : toktype) (toks : list LexToken) t r :
  expect ty toks = POk t r -> toks = t :: r /\ type t = ty.
Proof.
  unfold expect. destruct toks as [|t' r']; [discriminate|].
  destruct (toktype_eqb (type t') ty) eqn:E; [|discriminate].
  intros H; inversion H; subst. apply toktype_eqb_eq in E. auto.
Qed.

Lemma expect_fuel (ty : toktype) (toks : list LexToken) :
  expect ty toks <> OutOfFuel.
Proof. unfold expect. destruct toks; [|destruct (toktype_eqb _ _)]; discriminate. Qed.

(** *** Expressions *)

Lemma parse_operand_suffix_upto (n : nat) :
  forall toks, length toks <= n ->
  forall out st e rest,
    parse_operand out st toks = POk e rest -> strict_suffix rest toks.
Proof.
  induction n as [|n IH]; intros toks Hn out st e rest H.
  - destruct toks; [discriminate | simpl in Hn; lia].
  - destruct toks as [|t r]; [discriminate|]. simpl in Hn.
    cbn [parse_operand] in H.
    assert (Hnot : parse_operand out (FNot t :: st) r = POk e rest ->
                   strict_suffix rest (t :: r)).
    { intros H'. apply strict_suffix_step. eapply IH; [|exact H']. lia. }
    assert (Hlit :
      match r with
      | [] => NeedToken
      | a :: rest' =>
          if is_binop (type a)
          then
            let (stack', e') := reduce_for (type a) st (MkNode literal [] (value t)) in
            match out, type a, stack', rest' with
            | true, LT, [], [] => NeedToken
            | true, LT, [], b :: _ =>
                if toktype_eqb (type b) LT then POk e' r
                else parse_operand out [FBin e' a] rest'
            | _, _, _, _ => parse_operand out (FBin e' a :: stack') rest'
            end
          else POk (reduce_all st (MkNode literal [] (value t))) r
      end = POk e rest -> strict_suffix rest (t :: r)).
    { clear H. destruct r as [|a r']; [discriminate|]. simpl in Hn.
      assert (Hrec : forall o s, parse_operand o s r' = POk e rest ->
                                 strict_suffix rest (t :: a :: r')).
      { intros o s H'. do 2 apply strict_suffix_step. eapply IH; [|exact H']. lia. }
      destruct (is_binop (type a)).
      - destruct (reduce_for (type a) st _) as [stack' e'].
        destruct out, (type a), stack', r' as [|b r'']; try discriminate;
          try (now apply Hrec).
        destruct (toktype_eqb (type b) LT).
        + intros H; inversion H; subst. apply strict_suffix_cons.
        + apply Hrec.
      - intros H; inversion H; subst. apply strict_suffix_cons. }
    destruct (type t); try discriminate; auto.
Qed.

Lemma parse_operand_suffix out st toks e rest :
  parse_operand out st toks = POk e rest -> strict_suffix rest toks.
Proof. eapply parse_operand_suffix_upto; eauto. Qed.

Lemma parse_operand_fuel_upto (n : nat) :
  forall toks, length toks <= n ->
  forall out st, parse_operand out st toks <> OutOfFuel.
Proof.
  induction n as [|n IH]; intros toks Hn out st.
  - destruct toks; [discriminate | simpl in Hn; lia].
  - destruct toks as [|t r]; [discriminate|]. simpl in Hn.
    cbn [parse_operand].
    assert (Hrec1 : forall o s, parse_operand o s r <> OutOfFuel)
      by (intros; apply IH; lia).
    destruct (type t); try discriminate; auto;
      (destruct r as [|a r']; [discriminate|]; simpl in Hn;
       assert (Hrec : forall o s, parse_operand o s r' <> OutOfFuel)
         by (intros; apply IH; lia);
       destruct (is_binop (type a)); [|discriminate];
       destruct (reduce_for (type a) st _) as [stack' e'];
       destruct out, (type a), stack', r' as [|b r'']; try discriminate; auto;
       destruct (toktype_eqb (type b) LT); [discriminate | auto]).
Qed.

Lemma parse_operand_fuel out st toks : parse_operand out st toks <> OutOfFuel.
Proof. eapply parse_operand_fuel_upto; eauto. Qed.


Lemma suffix_refl (a : list LexToken) : suffix a a.
Proof. now exists []. Qed.

Lemma strict_suffix_suffix (a b : list LexToken) : strict_suffix a b -> suffix a b.
Proof. intros (p & _ & ->). now exists p. Qed.

Lemma suffix_strict_trans (a b c : list LexToken) :
  suffix a b -> strict_suffix b c -> strict_suffix a c.
Proof.
  intros (p & ->) (q & Hq & ->). exists (q ++ p). split.
  - destruct q; [congruence | discriminate].
  - now rewrite app_assoc.
Qed.

Lemma strict_suffix_trans' (a b c : list LexToken) :
  strict_suffix a b -> suffix b c -> strict_suffix a c.
Proof.
  intros (p & Hp & ->) (q & ->). exists (q ++ p). split.
  - destruct q; simpl; [assumption | discriminate].
  - now rewrite app_assoc.
Qed.

Lemma suffix_length (a b : list LexToken) : suffix a b -> length a <= length b.
Proof. intros (p & ->). rewrite length_app. lia. Qed.

Lemma suffix_Forall (P : LexToken -> Prop) (a b : list LexToken) :
  suffix a b -> Forall P b -> Forall P a.
Proof. intros (p & ->) H. now apply Forall_app in H. Qed.

(** Closes a goal [strict_suffix r toks] or [suffix r toks] from the facts
    the steps of a production left in the context. *)
Ltac suffix_tac :=
  solve [ repeat first
            [ eassumption
            | apply suffix_refl
            | apply strict_suffix_cons
            | apply strict_suffix_step
            | (eapply strict_suffix_trans; [|eassumption])
            | apply strict_suffix_suffix ] ].

(** Takes a successful production apart into its steps. *)
Ltac steps :=
  repeat match goal with
    | H : pbind _ _ = POk _ _ |- _ =>
        let x := fresh "x" in let r := fresh "r" in let E := fresh "E" in
        apply pbind_ok in H as (x & r & E & H)
    | H : expect _ _ = POk _ _ |- _ =>
        let Heq := fresh "Heq" in let Hty := fresh "Hty" in
        apply expect_ok in H as [Heq Hty];
        first [ subst | inversion Heq; subst; clear Heq ]
    | H : parse_expression _ = POk _ _ |- _ => unfold parse_expression in H
    | H : POk _ _ = POk _ _ |- _ => inversion H; subst; clear H
    | H : match ?x with _ => _ end = POk _ _ |- _ =>
        let E := fresh "E" in destruct x eqn:E; try discriminate
    end.

(** Refutes an exhausted fuel in a production whose steps use none. *)
Ltac no_fuel :=
  repeat match goal with
    | |- _ <> OutOfFuel => intro
    | H : pbind _ _ = OutOfFuel |- _ =>
        let x := fresh "x" in let r := fresh "r" in let E := fresh "E" in
        apply pbind_fuel in H as [H | (x & r & E & H)]
    | H : expect _ _ = OutOfFuel |- _ => now apply expect_fuel in H
    | H : parse_expression _ = OutOfFuel |- _ => unfold parse_expression in H
    | H : parse_operand _ _ _ = OutOfFuel |- _ => now apply parse_operand_fuel in H
    | H : match ?x with _ => _ end = OutOfFuel |- _ =>
        let E := fresh "E" in destruct x eqn:E; try discriminate
    end;
  try congruence.

Lemma parse_declaration_tail_suffix id toks n r :
  parse_declaration_tail id toks = POk n r -> strict_suffix r toks.
Proof.
  unfold parse_declaration_tail. intros H. steps.
  all: repeat match goal with
         | H : parse_operand _ _ _ = POk _ _ |- _ => apply parse_operand_suffix in H
         end; suffix_tac.
Qed.

Lemma parse_declaration_tail_fuel id toks :
  parse_declaration_tail id toks <> OutOfFuel.
Proof. unfold parse_declaration_tail. no_fuel. Qed.

End ParserFacts.

(** ** Statements: what is left of the tokens, and fuel *)

Module StatementFacts.
Import Lexer Parser Shape ParserFacts.
Local Open Scope list_scope.

Lemma suffix_step (t : LexToken) (a b : list LexToken) :
  suffix a b -> suffix a (t :: b).
Proof. intros (p & ->). now exists (t :: p). Qed.

Ltac operands :=
  repeat match goal with
    | H : parse_operand _ _ _ = POk _ _ |- _ => apply parse_operand_suffix in H
    end.

Lemma parse_float_declaration_suffix toks n r :
  parse_float_declaration toks = POk n r -> strict_suffix r toks.
Proof. unfold parse_float_declaration. intros H. steps. operands. suffix_tac. Qed.

Lemma parse_float_declaration_fuel toks :
  parse_float_declaration toks <> OutOfFuel.
Proof. unfold parse_float_declaration. no_fuel. Qed.

Lemma parse_after_identifier_suffix id toks n r :
  parse_after_identifier id toks = POk n r -> strict_suffix r toks.
Proof. unfold parse_after_identifier. intros H. steps; operands; suffix_tac. Qed.

Lemma parse_after_identifier_fuel id toks :
  parse_after_identifier id toks <> OutOfFuel.
Proof. unfold parse_after_identifier. no_fuel. Qed.

Lemma parse_output_suffix toks n r :
  parse_output toks = POk n r -> strict_suffix r toks.
Proof. unfold parse_output. intros H. steps; operands; suffix_tac. Qed.

Lemma parse_output_fuel toks : parse_output toks <> OutOfFuel.
Proof. unfold parse_output. no_fuel. Qed.

Lemma parse_return_suffix toks n r :
  parse_return toks = POk n r -> strict_suffix r toks.
Proof. unfold parse_return. intros H. steps; operands; suffix_tac. Qed.

Lemma parse_return_fuel toks : parse_return toks <> OutOfFuel.
Proof. unfold parse_return. no_fuel. Qed.

Lemma parse_more_params_suffix_upto (k : nat) :
  forall toks, length toks <= k ->
  forall acc n r, parse_more_params acc toks = POk n r -> suffix r toks.
Proof.
  induction k as [|k IH]; intros toks Hk acc n r H.
  - destruct toks; [|simpl in Hk; lia]. inversion H. apply suffix_refl.
  - destruct toks as [|c r1]; [inversion H; apply suffix_refl|].
    cbn [parse_more_params] in H. simpl in Hk.
    destruct (toktype_eqb (type c) COMMA).
    2:{ inversion H; subst. apply suffix_refl. }
    destruct r1 as [|i r2]; [discriminate|].
    destruct (toktype_eqb (type i) INT); [|discriminate].
    destruct r2 as [|id r3]; [discriminate|].
    destruct (toktype_eqb (type id) IDENTIFIER); [|discriminate].
    apply IH in H; [|simpl in Hk; lia].
    now do 3 apply suffix_step.
Qed.

Lemma parse_more_params_suffix acc toks n r :
  parse_more_params acc toks = POk n r -> suffix r toks.
Proof. eapply parse_more_params_suffix_upto; eauto. Qed.

Lemma parse_more_params_fuel_upto (k : nat) :
  forall toks, length toks <= k ->
  forall acc, parse_more_params acc toks <> OutOfFuel.
Proof.
  induction k as [|k IH]; intros toks Hk acc.
  - destruct toks; [discriminate | simpl in Hk; lia].
  - destruct toks as [|c r1]; [discriminate|].
    cbn [parse_more_params]. simpl in Hk.
    destruct (toktype_eqb (type c) COMMA); [|discriminate].
    destruct r1 as [|i r2]; [discriminate|].
    destruct (toktype_eqb (type i) INT); [|discriminate].
    destruct r2 as [|id r3]; [discriminate|].
    destruct (toktype_eqb (type id) IDENTIFIER); [|discriminate].
    apply IH. simpl in Hk. lia.
Qed.

Lemma parse_more_params_fuel acc toks : parse_more_params acc toks <> OutOfFuel.
Proof. eapply parse_more_params_fuel_upto; eauto. Qed.

(** The empty parameter list reads no token. *)
Lemma parse_params_suffix toks n r :
  parse_params toks = POk n r -> suffix r toks.
Proof.
  unfold parse_params. intros H. steps;
    match goal with
    | H : parse_more_params _ _ = POk _ _ |- _ => apply parse_more_params_suffix in H
    end; try assumption.
  now do 2 apply suffix_step.
Qed.

Lemma parse_params_fuel toks : parse_params toks <> OutOfFuel.
Proof.
  unfold parse_params. no_fuel;
    match goal with
    | H : parse_more_params _ _ = OutOfFuel |- _ =>
        now apply parse_more_params_fuel in H
    end.
Qed.

Lemma parse_member_suffix toks n r :
  parse_member toks = POk n r -> strict_suffix r toks.
Proof.
  unfold parse_member. intros H. steps.
  - apply parse_declaration_tail_suffix in H. suffix_tac.
  - apply parse_float_declaration_suffix in H. suffix_tac.
Qed.

Lemma parse_member_fuel toks : parse_member toks <> OutOfFuel.
Proof.
  unfold parse_member. no_fuel.
  - now apply parse_declaration_tail_fuel in H.
  - now apply parse_float_declaration_fuel in H.
Qed.

Lemma suffix_trans (a b c : list LexToken) : suffix a b -> suffix b c -> suffix a c.
Proof. intros (p & ->) (q & ->). exists (q ++ p). now rewrite app_assoc. Qed.

Lemma strict_suffix_after (t : LexToken) (a b : list LexToken) :
  suffix a b -> strict_suffix a (t :: b).
Proof.
  intros H. eapply suffix_strict_trans; [exact H | apply strict_suffix_cons].
Qed.

Ltac suffix_weak :=
  repeat first
    [ apply suffix_refl
    | eassumption
    | (apply strict_suffix_suffix; eassumption)
    | apply suffix_step
    | (eapply suffix_trans; [|eassumption])
    | (eapply suffix_trans; [|apply strict_suffix_suffix; eassumption]) ].

(** Closes [strict_suffix r (t :: x)] and [suffix r x] along a chain of
    steps. *)
Ltac suffix_chain :=
  solve [ suffix_weak | apply strict_suffix_after; suffix_weak ].

(** Turns the successful steps in the context into facts about what each
    left of the tokens. *)
Ltac facts :=
  steps;
  repeat match goal with
    | H : parse_operand _ _ _ = POk _ _ |- _ => apply parse_operand_suffix in H
    | H : parse_params _ = POk _ _ |- _ => apply parse_params_suffix in H
    | H : parse_declaration_tail _ _ = POk _ _ |- _ =>
        apply parse_declaration_tail_suffix in H
    | H : parse_float_declaration _ = POk _ _ |- _ =>
        apply parse_float_declaration_suffix in H
    | H : parse_after_identifier _ _ = POk _ _ |- _ =>
        apply parse_after_identifier_suffix in H
    | H : parse_output _ = POk _ _ |- _ => apply parse_output_suffix in H
    | H : parse_return _ = POk _ _ |- _ => apply parse_return_suffix in H
    end.

(** *** Sequences of items *)

Section Sequences.
Variables (kind : NodeType) (starts : toktype -> bool).

Lemma parse_more_suffix (item : list LexToken -> presult Node) (k : nat) :
  forall toks acc n r,
    (forall t x r', suffix t toks -> item t = POk x r' -> strict_suffix r' t) ->
    parse_more kind starts item k acc toks = POk n r -> suffix r toks.
Proof.
  induction k as [|k IH]; intros toks acc n r Hitem H.
  - destruct toks as [|t toks']; cbn [parse_more] in H.
    + inversion H. apply suffix_refl.
    + destruct (starts (type t)); [discriminate|]. inversion H. apply suffix_refl.
  - destruct toks as [|t toks']; cbn [parse_more] in H.
    + inversion H. apply suffix_refl.
    + destruct (starts (type t)).
      2:{ inversion H. apply suffix_refl. }
      apply pbind_ok in H as (x & r1 & E & H).
      pose proof (Hitem _ _ _ (suffix_refl _) E) as Hs.
      apply IH in H.
      * eapply suffix_trans; [exact H | now apply strict_suffix_suffix].
      * intros t0 x0 r0 Ht0. apply Hitem.
        eapply suffix_trans; [exact Ht0 | now apply strict_suffix_suffix].
Qed.

Lemma parse_sequence_suffix (item : list LexToken -> presult Node) toks n r :
  (forall t x r', suffix t toks -> item t = POk x r' -> strict_suffix r' t) ->
  parse_sequence kind starts item toks = POk n r -> strict_suffix r toks.
Proof.
  intros Hitem H. unfold parse_sequence in H.
  apply pbind_ok in H as (x & r1 & E & H).
  pose proof (Hitem _ _ _ (suffix_refl _) E) as Hs.
  apply parse_more_suffix in H.
  - eapply suffix_strict_trans; eassumption.
  - intros t0 x0 r0 Ht0. apply Hitem.
    eapply suffix_trans; [exact Ht0 | now apply strict_suffix_suffix].
Qed.

Lemma parse_more_fuel (item : list LexToken -> presult Node) (k : nat) :
  forall toks acc,
    (forall t x r', suffix t toks -> item t = POk x r' -> strict_suffix r' t) ->
    (forall t, suffix t toks -> item t <> OutOfFuel) ->
    length toks <= k ->
    parse_more kind starts item k acc toks <> OutOfFuel.
Proof.
  induction k as [|k IH]; intros toks acc Hitem Hfuel Hk.
  - destruct toks; [discriminate | simpl in Hk; lia].
  - destruct toks as [|t toks']; [discriminate|]. cbn [parse_more].
    destruct (starts (type t)); [|discriminate].
    destruct (item (t :: toks')) as [x r1| | |] eqn:E; cbn [pbind]; try discriminate.
    + pose proof (Hitem _ _ _ (suffix_refl _) E) as Hs.
      apply IH.
      * intros t0 x0 r0 Ht0. apply Hitem.
        eapply suffix_trans; [exact Ht0 | now apply strict_suffix_suffix].
      * intros t0 Ht0. apply Hfuel.
        eapply suffix_trans; [exact Ht0 | now apply strict_suffix_suffix].
      * apply strict_suffix_length in Hs. lia.
    + now apply Hfuel in E; [|apply suffix_refl].
Qed.

Lemma parse_sequence_fuel (item : list LexToken -> presult Node) toks :
  (forall t x r', suffix t toks -> item t = POk x r' -> strict_suffix r' t) ->
  (forall t, suffix t toks -> item t <> OutOfFuel) ->
  parse_sequence kind starts item toks <> OutOfFuel.
Proof.
  intros Hitem Hfuel. unfold parse_sequence.
  destruct (item toks) as [x r1| | |] eqn:E; cbn [pbind]; try discriminate.
  - pose proof (Hitem _ _ _ (suffix_refl _) E) as Hs.
    apply parse_more_fuel; [| |lia].
    + intros t0 x0 r0 Ht0. apply Hitem.
      eapply suffix_trans; [exact Ht0 | now apply strict_suffix_suffix].
    + intros t0 Ht0. apply Hfuel.
      eapply suffix_trans; [exact Ht0 | now apply strict_suffix_suffix].
  - now apply Hfuel in E; [|apply suffix_refl].
Qed.

(** Two item parsers that agree on what is left of the tokens build the same
    sequence. *)
Lemma parse_more_ext (item1 item2 : list LexToken -> presult Node) (k : nat) :
  forall toks acc,
    (forall t x r', suffix t toks -> item1 t = POk x r' -> strict_suffix r' t) ->
    (forall t, suffix t toks -> item1 t = item2 t) ->
    parse_more kind starts item1 k acc toks = parse_more kind starts item2 k acc toks.
Proof.
  induction k as [|k IH]; intros toks acc Hitem Hext.
  - reflexivity.
  - destruct toks as [|t toks']; [reflexivity|]. cbn [parse_more].
    destruct (starts (type t)); [|reflexivity].
    rewrite <- (Hext _ (suffix_refl _)).
    destruct (item1 (t :: toks')) as [x r1| | |] eqn:E; cbn [pbind]; try reflexivity.
    pose proof (Hitem _ _ _ (suffix_refl _) E) as Hs.
    apply IH.
    + intros t0 x0 r0 Ht0. apply Hitem.
      eapply suffix_trans; [exact Ht0 | now apply strict_suffix_suffix].
    + intros t0 Ht0. apply Hext.
      eapply suffix_trans; [exact Ht0 | now apply strict_suffix_suffix].
Qed.

Lemma parse_sequence_ext (item1 item2 : list LexToken -> presult Node) toks :
  (forall t x r', suffix t toks -> item1 t = POk x r' -> strict_suffix r' t) ->
  (forall t, suffix t toks -> item1 t = item2 t) ->
  parse_sequence kind starts item1 toks = parse_sequence kind starts item2 toks.
Proof.
  intros Hitem Hext. unfold parse_sequence.
  rewrite <- (Hext _ (suffix_refl _)).
  destruct (item1 toks) as [x r1| | |] eqn:E; cbn [pbind]; try reflexivity.
  pose proof (Hitem _ _ _ (suffix_refl _) E) as Hs.
  apply parse_more_ext.
  - intros t0 x0 r0 Ht0. apply Hitem.
    eapply suffix_trans; [exact Ht0 | now apply strict_suffix_suffix].
  - intros t0 Ht0. apply Hext.
    eapply suffix_trans; [exact Ht0 | now apply strict_suffix_suffix].
Qed.

End Sequences.

(** *** Class bodies *)

Lemma parse_declarations_suffix toks n r :
  parse_declarations toks = POk n r -> strict_suffix r toks.
Proof.
  apply parse_sequence_suffix. intros t x r' _. apply parse_member_suffix.
Qed.

Lemma parse_declarations_fuel toks : parse_declarations toks <> OutOfFuel.
Proof.
  apply parse_sequence_fuel.
  - intros t x r' _. apply parse_member_suffix.
  - intros t _. apply parse_member_fuel.
Qed.

Lemma parse_class_suffix toks n r :
  parse_class toks = POk n r -> strict_suffix r toks.
Proof.
  unfold parse_class. intros H. facts.
  match goal with
  | H : parse_declarations _ = POk _ _ |- _ => apply parse_declarations_suffix in H
  end.
  suffix_chain.
Qed.

Lemma parse_class_fuel toks : parse_class toks <> OutOfFuel.
Proof.
  unfold parse_class. no_fuel.
  match goal with
  | H : parse_declarations _ = OutOfFuel |- _ =>
      now apply parse_declarations_fuel in H
  end.
Qed.

(** *** Blocks and statements *)

Section Blocks.
Variable stmt : list LexToken -> presult Node.

Lemma parse_block_suffix toks n r :
  (forall t x r', strict_suffix t toks -> stmt t = POk x r' -> strict_suffix r' t) ->
  parse_block stmt toks = POk n r -> strict_suffix r toks.
Proof.
  intros Hstmt H. unfold parse_block in H. facts.
  match goal with
  | H : parse_sequence _ _ _ _ = POk _ _ |- _ =>
      apply parse_sequence_suffix in H
  end.
  - suffix_chain.
  - intros t x0 r' Ht. apply Hstmt. now apply strict_suffix_after.
Qed.

Lemma parse_block_fuel toks :
  (forall t x r', strict_suffix t toks -> stmt t = POk x r' -> strict_suffix r' t) ->
  (forall t, strict_suffix t toks -> stmt t <> OutOfFuel) ->
  parse_block stmt toks <> OutOfFuel.
Proof.
  intros Hstmt Hfuel. unfold parse_block. no_fuel.
  match goal with
  | H : parse_sequence _ _ _ _ = OutOfFuel |- _ =>
      apply parse_sequence_fuel in H; [assumption | |]
  end.
  - intros t x0 r' Ht. apply Hstmt. facts. now apply strict_suffix_after.
  - intros t Ht. apply Hfuel. facts. now apply strict_suffix_after.
Qed.

End Blocks.

Lemma parse_block_ext (stmt1 stmt2 : list LexToken -> presult Node) toks :
  (forall t x r', strict_suffix t toks -> stmt1 t = POk x r' -> strict_suffix r' t) ->
  (forall t, strict_suffix t toks -> stmt1 t = stmt2 t) ->
  parse_block stmt1 toks = parse_block stmt2 toks.
Proof.
  intros Hstmt Hext. unfold parse_block.
  destruct (expect LBRACE toks) as [x r| | |] eqn:E; cbn [pbind]; try reflexivity.
  apply expect_ok in E as [-> _].
  rewrite (parse_sequence_ext statements starts_statement stmt1 stmt2); [reflexivity | |].
  - intros t x0 r' Ht. apply Hstmt. now apply strict_suffix_after.
  - intros t Ht. apply Hext. now apply strict_suffix_after.
Qed.

Section Statements.
Variable block : list LexToken -> presult Node.

Lemma parse_statement_with_suffix toks n r :
  (forall t x r', strict_suffix t toks -> block t = POk x r' -> strict_suffix r' t) ->
  parse_statement_with block toks = POk n r -> strict_suffix r toks.
Proof.
  intros Hblock H. unfold parse_statement_with in H.
  destruct toks as [|t0 r0]; [discriminate|].
  destruct (type t0); try discriminate;
    try (facts; suffix_chain);
    try (apply parse_class_suffix in H; suffix_chain).
  all: facts.
  all: repeat match goal with
         | H : block _ = POk _ _ |- _ =>
             apply Hblock in H; [|suffix_chain]
         end.
  all: suffix_chain.
Qed.

Lemma parse_statement_with_fuel toks :
  (forall t x r', strict_suffix t toks -> block t = POk x r' -> strict_suffix r' t) ->
  (forall t, strict_suffix t toks -> block t <> OutOfFuel) ->
  parse_statement_with block toks <> OutOfFuel.
Proof.
  intros Hblock Hfuel. unfold parse_statement_with.
  destruct toks as [|t0 r0]; [discriminate|].
  destruct (type t0); try discriminate;
    try apply parse_float_declaration_fuel;
    try apply parse_after_identifier_fuel;
    try apply parse_class_fuel;
    try apply parse_output_fuel;
    try apply parse_return_fuel.
  all: no_fuel.
  all: try match goal with
         | H : parse_params _ = OutOfFuel |- _ => now apply parse_params_fuel in H
         | H : parse_declaration_tail _ _ = OutOfFuel |- _ =>
             now apply parse_declaration_tail_fuel in H
         end.
  all: facts.
  all: repeat match goal with
         | H : block _ = POk _ _ |- _ =>
             apply Hblock in H; [|suffix_chain]
         end.
  all: match goal with
       | H : block _ = OutOfFuel |- _ => apply Hfuel in H; [assumption|suffix_chain]
       end.
Qed.

End Statements.

Lemma parse_statement_with_ext (block1 block2 : list LexToken -> presult Node) toks :
  (forall t x r', strict_suffix t toks -> block1 t = POk x r' -> strict_suffix r' t) ->
  (forall t, strict_suffix t toks -> block1 t = block2 t) ->
  parse_statement_with block1 toks = parse_statement_with block2 toks.
Proof.
  intros Hblock Hext. unfold parse_statement_with.
  destruct toks as [|t0 r0]; [reflexivity|].
  destruct (type t0); try reflexivity.
  all: repeat match goal with
         | |- pbind ?m _ = pbind ?m _ =>
             let E := fresh "E" in
             destruct m eqn:E; cbn [pbind]; try reflexivity
         | |- pbind (?b1 ?r) _ = pbind (?b2 ?r) _ =>
             rewrite <- (Hext r) by (facts; repeat match goal with
                 | H : b1 _ = POk _ _ |- _ =>
                     apply Hblock in H; [|suffix_chain]
                 end; suffix_chain)
         | |- match ?x with _ => _ end = match ?x with _ => _ end =>
             destruct x eqn:?; try reflexivity
         end.
Qed.

Lemma parse_statement_suffix (fuel : nat) :
  forall toks n r, parse_statement fuel toks = POk n r -> strict_suffix r toks.
Proof.
  induction fuel as [|fuel IH]; intros toks n r H; [discriminate|].
  cbn [parse_statement] in H.
  eapply parse_statement_with_suffix; [|exact H].
  intros t x r' _ Hb. eapply parse_block_suffix; [|exact Hb].
  intros t' x' r'' _. apply IH.
Qed.

Lemma parse_block_statement_suffix (fuel : nat) toks n r :
  parse_block (parse_statement fuel) toks = POk n r -> strict_suffix r toks.
Proof.
  apply parse_block_suffix. intros t x r' _. apply parse_statement_suffix.
Qed.

(** With more fuel than tokens a statement is always read to its end. *)
Lemma parse_statement_fuel (fuel : nat) :
  forall toks, length toks < fuel -> parse_statement fuel toks <> OutOfFuel.
Proof.
  induction fuel as [|fuel IH]; intros toks Hlen; [lia|].
  cbn [parse_statement]. apply parse_statement_with_fuel.
  - intros t x r' _. apply parse_block_statement_suffix.
  - intros t Ht. apply parse_block_fuel.
    + intros t' x r' _. apply parse_statement_suffix.
    + intros t' Ht'. apply IH.
      apply strict_suffix_length in Ht, Ht'. lia.
Qed.

(** Beyond the number of tokens the amount of fuel does not matter. *)
Lemma parse_statement_ext (fuel1 : nat) :
  forall fuel2 toks,
    length toks < fuel1 -> length toks < fuel2 ->
    parse_statement fuel1 toks = parse_statement fuel2 toks.
Proof.
  induction fuel1 as [|fuel1 IH]; intros fuel2 toks H1 H2; [lia|].
  destruct fuel2 as [|fuel2]; [lia|].
  cbn [parse_statement]. apply parse_statement_with_ext.
  - intros t x r' _. apply parse_block_statement_suffix.
  - intros t Ht. apply parse_block_ext.
    + intros t' x r' _. apply parse_statement_suffix.
    + intros t' Ht'. apply IH;
        apply strict_suffix_length in Ht, Ht'; lia.
Qed.

(** *** Programs *)

Lemma parse_includes_suffix toks :
  forall acc, suffix (snd (parse_includes acc toks)) toks.
Proof.
  induction toks as [|t r IH]; intros acc; cbn [parse_includes].
  - apply suffix_refl.
  - destruct (toktype_eqb (type t) INCLUDE).
    + apply suffix_step, IH.
    + apply suffix_refl.
Qed.

Lemma parse_includes_rest toks :
  forall acc acc', snd (parse_includes acc toks) = snd (parse_includes acc' toks).
Proof.
  induction toks as [|t r IH]; intros acc acc'; cbn [parse_includes].
  - reflexivity.
  - destruct (toktype_eqb (type t) INCLUDE); [apply IH | reflexivity].
Qed.

Lemma statements_ext (fuel1 fuel2 : nat) (toks x : list LexToken) :
  suffix x toks -> length toks < fuel1 -> length toks < fuel2 ->
  parse_sequence statements starts_statement (parse_statement fuel1) x =
  parse_sequence statements starts_statement (parse_statement fuel2) x.
Proof.
  intros Hx H1 H2. apply parse_sequence_ext.
  - intros t n r _. apply parse_statement_suffix.
  - intros t Ht. pose proof (suffix_length _ _ (suffix_trans _ _ _ Ht Hx)).
    apply parse_statement_ext; lia.
Qed.

Lemma parse_program_ext (fuel1 fuel2 : nat) (toks : list LexToken) :
  length toks < fuel1 -> length toks < fuel2 ->
  parse_program fuel1 toks = parse_program fuel2 toks.
Proof.
  intros H1 H2. unfold parse_program.
  destruct toks as [|t r]; [reflexivity|].
  destruct (toktype_eqb (type t) INCLUDE).
  - pose proof (parse_includes_suffix (t :: r) []) as Hs.
    destruct (parse_includes [] (t :: r)) as [p1 r1]. cbn [snd] in Hs.
    now rewrite (statements_ext fuel1 fuel2 (t :: r) r1).
  - now rewrite (statements_ext fuel1 fuel2 (t :: r) (t :: r)) by
      (auto; apply suffix_refl).
Qed.

Lemma statements_fuel (fuel : nat) (toks x : list LexToken) :
  suffix x toks -> length toks < fuel ->
  parse_sequence statements starts_statement (parse_statement fuel) x <> OutOfFuel.
Proof.
  intros Hx H. apply parse_sequence_fuel.
  - intros t n r _. apply parse_statement_suffix.
  - intros t Ht. pose proof (suffix_length _ _ (suffix_trans _ _ _ Ht Hx)).
    apply parse_statement_fuel. lia.
Qed.

(** The parser never runs out of fuel. *)
Lemma parse_fuel (toks : list LexToken) : parse toks <> OutOfFuel.
Proof.
  unfold parse, parse_program.
  destruct toks as [|t r]; [discriminate|].
  destruct (toktype_eqb (type t) INCLUDE).
  - pose proof (parse_includes_suffix (t :: r) []) as Hs.
    destruct (parse_includes [] (t :: r)) as [p1 r1]. cbn [snd] in Hs.
    pose proof (statements_fuel (S (length (t :: r))) (t :: r) r1 Hs
                  (Nat.lt_succ_diag_r _)) as Hf.
    destruct (parse_sequence _ _ _ r1) as [p2 r2| | |]; cbn [pbind];
      try congruence.
    destruct r2; discriminate.
  - pose proof (statements_fuel (S (length (t :: r))) (t :: r) (t :: r)
                  (suffix_refl _) (Nat.lt_succ_diag_r _)) as Hf.
    destruct (parse_sequence _ _ _ (t :: r)) as [p2 r2| | |]; cbn [pbind];
      try congruence.
    destruct r2; discriminate.
Qed.

(** The program production reads through a leading [INCLUDE] token and
    keeps nothing of it. *)
Lemma parse_program_include (fuel : nat) (t : LexToken) (toks : list LexToken) :
  type t = INCLUDE -> 0 < fuel ->
  parse_program fuel (t :: toks) = parse_program fuel toks.
Proof.
  intros Ht Hf. unfold parse_program. rewrite Ht. cbn [toktype_eqb].
  cbn [parse_includes]. rewrite Ht. cbn [toktype_eqb].
  destruct toks as [|t' r].
  - cbn [parse_includes]. unfold parse_sequence.
    destruct fuel; [lia|]. reflexivity.
  - cbn [parse_includes].
    destruct (toktype_eqb (type t') INCLUDE) eqn:E.
    + pose proof (parse_includes_rest r
                    ([] ++ [MkNode include [] (value t)] ++ [MkNode include [] (value t')])
                    ([] ++ [MkNode include [] (value t')])) as Hr.
      rewrite app_assoc in Hr.
      destruct (parse_includes _ r) as [p1 r1].
      destruct (parse_includes _ r) as [p1' r1']. cbn [snd] in Hr. now subst.
    + reflexivity.
Qed.

Lemma parse_include (t : LexToken) (toks : list LexToken) :
  type t = INCLUDE -> parse (t :: toks) = parse toks.
Proof.
  intros Ht. unfold parse.
  rewrite parse_program_include by (auto; lia).
  apply parse_program_ext; simpl; lia.
Qed.

End StatementFacts.

(** ** The generator on the trees the parser builds *)

Section GeneratorFacts.
Import Lexer Parser Shape ParserFacts StatementFacts.
Local Open Scope list_scope.
Variable float_str : string -> string.

Local Abbreviation gen := (generate_code float_str).
Local Abbreviation ok := (gen_ok float_str).

(** Runs the generator on a node whose children are known to generate. *)
Ltac gen_tac :=
  intros ?indent; cbn [generate_code];
  repeat match goal with
    | H : gen_ok _ ?e |- context [generate_code _ ?e ?i] =>
        let s := fresh "s" in let E := fresh "E" in
        destruct (H i) as [s E]; rewrite E; clear E; cbn [bind]
    end;
  try (eexists; reflexivity).

Lemma gen_literal v : ok (MkNode literal [] v).
Proof. gen_tac. Qed.

Lemma gen_unop e v : ok e -> ok (MkNode unop [e] v).
Proof. intros He. gen_tac. Qed.

Lemma binop_in_op_map (a : LexToken) :
  is_binop (type a) = true -> tok_ok a ->
  exists o, dict_lookup op_map (value a) = Return o.
Proof.
  unfold tok_ok. destruct (type a); try discriminate; intros _ ->;
    eexists; reflexivity.
Qed.

Lemma gen_binop l r (a : LexToken) :
  ok l -> ok r -> is_binop (type a) = true -> tok_ok a ->
  ok (MkNode binop [l; r] (value a)).
Proof.
  intros Hl Hr Ha Hv. destruct (binop_in_op_map a Ha Hv) as [o Ho].
  intros indent. cbn [generate_code].
  destruct (Hl 0) as [s1 ->]. cbn [bind]. rewrite Ho. cbn [bind].
  destruct (Hr 0) as [s2 ->]. cbn [bind]. eexists; reflexivity.
Qed.

Lemma reduce_ok f e : frame_ok ok f -> ok e -> ok (reduce f e).
Proof.
  destruct f as [l op|op]; cbn [frame_ok reduce].
  - intros (Hl & Hop & Hv) He. now apply gen_binop.
  - intros _ He. now apply gen_unop.
Qed.

Lemma reduce_for_ok a st :
  forall e, Forall (frame_ok ok) st -> ok e ->
    Forall (frame_ok ok) (fst (reduce_for a st e)) /\ ok (snd (reduce_for a st e)).
Proof.
  induction st as [|f st IH]; intros e Hst He; cbn [reduce_for].
  - auto.
  - inversion Hst; subst. destruct (resolves_to_reduce a f).
    + apply IH; [assumption | now apply reduce_ok].
    + auto.
Qed.

Lemma reduce_all_ok st :
  forall e, Forall (frame_ok ok) st -> ok e -> ok (reduce_all st e).
Proof.
  induction st as [|f st IH]; intros e Hst He; cbn [reduce_all]; [assumption|].
  inversion Hst; subst. apply IH; [assumption | now apply reduce_ok].
Qed.

Lemma parse_operand_ok_upto (k : nat) :
  forall toks, length toks <= k ->
  forall out st e rest,
    Forall tok_ok toks -> Forall (frame_ok ok) st ->
    parse_operand out st toks = POk e rest -> ok e.
Proof.
  induction k as [|k IH]; intros toks Hk out st e rest Htoks Hst H.
  - destruct toks; [discriminate | simpl in Hk; lia].
  - destruct toks as [|t r]; [discriminate|]. simpl in Hk.
    inversion Htoks as [|? ? Ht Hr]; subst.
    cbn [parse_operand] in H.
    assert (Hlit :
      match r with
      | [] => NeedToken
      | a :: rest' =>
          if is_binop (type a)
          then
            let (stack', e') := reduce_for (type a) st (MkNode literal [] (value t)) in
            match out, type a, stack', rest' with
            | true, LT, [], [] => NeedToken
            | true, LT, [], b :: _ =>
                if toktype_eqb (type b) LT then POk e' r
                else parse_operand out [FBin e' a] rest'
            | _, _, _, _ => parse_operand out (FBin e' a :: stack') rest'
            end
          else POk (reduce_all st (MkNode literal [] (value t))) r
      end = POk e rest -> ok e).
    { clear H. destruct r as [|a r']; [discriminate|]. simpl in Hk.
      inversion Hr as [|? ? Ha Hr']; subst.
      destruct (is_binop (type a)) eqn:Hop.
      - pose proof (reduce_for_ok (type a) st _ Hst (gen_literal (value t)))
          as [Hst' He'].
        destruct (reduce_for (type a) st _) as [stack' e']. cbn [fst snd] in *.
        assert (Hrec : forall o s, Forall (frame_ok ok) s ->
                                   parse_operand o s r' = POk e rest -> ok e).
        { intros o s Hs H'. eapply IH; [| exact Hr' | exact Hs | exact H']. lia. }
        assert (Hpush : Forall (frame_ok ok) (FBin e' a :: stack'))
          by (constructor; [cbn; auto | assumption]).
        assert (Hpush1 : Forall (frame_ok ok) [FBin e' a])
          by (constructor; [cbn; auto | constructor]).
        destruct out, (type a), stack', r' as [|b r'']; try discriminate;
          try (now apply Hrec).
        destruct (toktype_eqb (type b) LT).
        + intros H; inversion H; subst. assumption.
        + now apply Hrec.
      - intros H; inversion H; subst.
        apply reduce_all_ok; [assumption | apply gen_literal]. }
    destruct (type t); try discriminate; auto.
    eapply IH; [| exact Hr | | exact H]; [lia|].
    constructor; [exact I | assumption].
Qed.

(** Every expression the parser builds generates. *)
Lemma parse_operand_sound out : sound ok (parse_operand out []).
Proof.
  intros toks e r Htoks H. split.
  - eapply parse_operand_ok_upto; eauto.
  - eapply strict_suffix_Forall; [|exact Htoks].
    eapply parse_operand_suffix; eassumption.
Qed.

(** *** Statements *)

Lemma gen_declaration_bare v : ok (MkNode declaration [] v).
Proof. gen_tac. Qed.

Lemma gen_declaration_init e v : ok e -> ok (MkNode declaration [e] v).
Proof. intros He. gen_tac. Qed.

Lemma gen_assignment e v : ok e -> ok (MkNode assignment [e] v).
Proof. intros He. gen_tac. Qed.

Lemma gen_increment v : ok (MkNode increment [] v).
Proof. gen_tac. Qed.

Lemma gen_output e v : ok e -> ok (MkNode output [e] v).
Proof. intros He. gen_tac. Qed.

Lemma gen_return e v : ok e -> ok (MkNode return_ [e] v).
Proof. intros He. gen_tac. Qed.

Lemma gen_if c b v : ok c -> ok b -> ok (MkNode if_ [c; b] v).
Proof. intros Hc Hb. gen_tac. Qed.

Lemma gen_if_else c b1 b2 v :
  ok c -> ok b1 -> ok b2 -> ok (MkNode if_ [c; b1; b2] v).
Proof. intros Hc Hb1 Hb2. gen_tac. Qed.

Lemma gen_for e1 e2 b v : ok e1 -> ok e2 -> ok b -> ok (MkNode for_ [e1; e2; b] v).
Proof. intros H1 H2 Hb. gen_tac. Qed.

Lemma gen_while c b v : ok c -> ok b -> ok (MkNode while [c; b] v).
Proof. intros Hc Hb. gen_tac. Qed.

Lemma join_values_ok ps :
  Forall (fun p => exists s, node_value p = VStr s) ps ->
  exists text, join_values ps = Return text.
Proof.
  induction 1 as [|p ps [s Hs] _ [text IH]]; cbn [join_values].
  - eauto.
  - rewrite Hs. destruct ps; [eauto|]. rewrite IH. cbn [bind]. eauto.
Qed.

Lemma gen_function ps b v : params_ok ps -> ok b -> ok (MkNode function [ps; b] v).
Proof.
  intros (l & -> & Hl) Hb. destruct (join_values_ok l Hl) as [text Ht].
  intros indent. cbn [generate_code node_children]. rewrite Ht. cbn [bind].
  destruct (Hb (indent + 1)) as [s ->]. cbn [bind]. eauto.
Qed.

Lemma gen_class ds v : ok (MkNode class [ds] v).
Proof. gen_tac. Qed.

Lemma gen_sequence (l : list Node) (indent : nat) :
  Forall ok l ->
  exists text,
    (fix each (l : list Node) : outcome string :=
       match l with
       | [] => Return EmptyString
       | child :: l' =>
           s <- gen child indent ;;
           r <- each l' ;;
           Return (s ++ r)%string
       end) l = Return text.
Proof.
  induction 1 as [|c l Hc _ [text IH]].
  - eauto.
  - destruct (Hc indent) as [s Hs]. rewrite Hs. cbn [bind].
    rewrite IH. cbn [bind]. eauto.
Qed.

Lemma gen_statements l v : Forall ok l -> ok (MkNode statements l v).
Proof. intros Hl indent. cbn [generate_code]. now apply gen_sequence. Qed.

Lemma gen_program l v : Forall ok l -> ok (MkNode program l v).
Proof. intros Hl indent. cbn [generate_code]. now apply gen_sequence. Qed.

(** Uses the soundness of each step of a production, in order. *)
Ltac sound_steps :=
  repeat match goal with
    | H : pbind _ _ = POk _ _ |- _ =>
        let x := fresh "x" in let r := fresh "r" in let E := fresh "E" in
        apply pbind_ok in H as (x & r & E & H)
    | H : expect _ _ = POk _ _ |- _ =>
        let Heq := fresh "Heq" in let Hty := fresh "Hty" in
        apply expect_ok in H as [Heq Hty];
        first [ subst | inversion Heq; subst; clear Heq ]
    | H : Forall tok_ok (_ :: _) |- _ =>
        let Ht := fresh "Ht" in let Hr := fresh "Hr" in
        apply Forall_cons_iff in H as [Ht Hr]
    | H : parse_expression _ = POk _ _ |- _ => unfold parse_expression in H
    | HS : sound _ ?p, H : ?p ?x = POk _ _, HF : Forall tok_ok ?x |- _ =>
        let Hn := fresh "Hn" in let Hr := fresh "Hr" in
        apply (HS _ _ _ HF) in H as [Hn Hr]
    | H : parse_operand ?o [] ?x = POk _ _, HF : Forall tok_ok ?x |- _ =>
        let Hn := fresh "Hn" in let Hr := fresh "Hr" in
        apply (parse_operand_sound o _ _ _ HF) in H as [Hn Hr]
    | H : POk _ _ = POk _ _ |- _ => inversion H; subst; clear H
    | H : match ?x with _ => _ end = POk _ _ |- _ =>
        let E := fresh "E" in destruct x eqn:E; try discriminate
    end.

Ltac sound_done :=
  split;
  [ first [ apply gen_declaration_bare | apply gen_declaration_init
          | apply gen_assignment | apply gen_increment | apply gen_output
          | apply gen_return | apply gen_if | apply gen_if_else | apply gen_for
          | apply gen_while | apply gen_function | apply gen_class ];
    assumption
  | first [ assumption | now constructor ] ].

Lemma parse_declaration_tail_sound id : sound ok (parse_declaration_tail id).
Proof.
  intros toks n r HF H. unfold parse_declaration_tail in H.
  sound_steps; sound_done.
Qed.

Lemma parse_float_declaration_sound : sound ok parse_float_declaration.
Proof.
  intros toks n r HF H. unfold parse_float_declaration in H.
  sound_steps; sound_done.
Qed.

Lemma parse_after_identifier_sound id : sound ok (parse_after_identifier id).
Proof.
  intros toks n r HF H. unfold parse_after_identifier in H.
  sound_steps; sound_done.
Qed.

Lemma parse_output_sound : sound ok parse_output.
Proof.
  intros toks n r HF H. unfold parse_output in H.
  sound_steps; sound_done.
Qed.

Lemma parse_return_sound : sound ok parse_return.
Proof.
  intros toks n r HF H. unfold parse_return in H.
  sound_steps; sound_done.
Qed.

Lemma parse_class_sound : sound ok parse_class.
Proof.
  intros toks n r HF H. unfold parse_class in H.
  sound_steps.
  match goal with
  | H : parse_declarations _ = POk _ _ |- _ =>
      pose proof (parse_declarations_suffix _ _ _ H) as Hs
  end.
  apply (strict_suffix_Forall _ _ _ Hs) in Hr0.
  sound_steps. split; [apply gen_class | assumption].
Qed.

Lemma identifier_value (id : LexToken) :
  type id = IDENTIFIER -> tok_ok id -> exists s, value id = VStr s.
Proof. unfold tok_ok. now intros ->. Qed.

Lemma parse_more_params_ok_upto (k : nat) :
  forall toks, length toks <= k ->
  forall acc n r,
    Forall tok_ok toks ->
    Forall (fun p => exists s, node_value p = VStr s) acc ->
    parse_more_params acc toks = POk n r -> params_ok n.
Proof.
  induction k as [|k IH]; intros toks Hk acc n r HF Hacc H.
  - destruct toks; [|simpl in Hk; lia]. inversion H. now exists acc.
  - destruct toks as [|c r1]; [inversion H; now exists acc|].
    cbn [parse_more_params] in H. simpl in Hk.
    destruct (toktype_eqb (type c) COMMA).
    2:{ inversion H; subst. now exists acc. }
    destruct r1 as [|i r2]; [discriminate|].
    destruct (toktype_eqb (type i) INT); [|discriminate].
    destruct r2 as [|id r3]; [discriminate|].
    destruct (toktype_eqb (type id) IDENTIFIER) eqn:Eid; [|discriminate].
    apply toktype_eqb_eq in Eid.
    apply Forall_cons_iff in HF as [_ HF].
    apply Forall_cons_iff in HF as [_ HF].
    apply Forall_cons_iff in HF as [Hid HF].
    eapply IH; [| exact HF | | exact H]; [simpl in Hk; lia|].
    apply Forall_app. split; [assumption|].
    constructor; [|constructor]. cbn [node_value]. now apply identifier_value.
Qed.

Lemma parse_params_sound : sound params_ok parse_params.
Proof.
  intros toks n r HF H. split.
  2:{ eapply suffix_Forall; [|exact HF]. eapply parse_params_suffix; eassumption. }
  unfold parse_params in H.
  destruct toks as [|t r0]; [discriminate|].
  destruct (type t) eqn:Et; try discriminate.
  - apply pbind_ok in H as (id & r1 & E & H).
    apply expect_ok in E as [-> Hid].
    apply Forall_cons_iff in HF as [_ HF].
    apply Forall_cons_iff in HF as [Hv HF].
    eapply parse_more_params_ok_upto; [reflexivity | exact HF | | exact H].
    constructor; [|constructor]. cbn [node_value]. now apply identifier_value.
  - eapply parse_more_params_ok_upto; [reflexivity | exact HF | constructor | exact H].
  - eapply parse_more_params_ok_upto; [reflexivity | exact HF | constructor | exact H].
Qed.

(** *** Sequences *)

Section SequenceSoundness.
Variables (kind : NodeType) (starts : toktype -> bool) (P : Node -> Prop).
Variable item : list LexToken -> presult Node.
Hypothesis item_sound : sound P item.

Lemma parse_more_sound (k : nat) :
  forall toks l n r,
    Forall tok_ok toks -> Forall P l -> l <> [] ->
    parse_more kind starts item k (MkNode kind l VNone) toks = POk n r ->
    (exists l', n = MkNode kind l' VNone /\ l' <> [] /\ Forall P l')
    /\ Forall tok_ok r.
Proof.
  induction k as [|k IH]; intros toks l n r HF Hl Hne H.
  - destruct toks as [|t toks']; cbn [parse_more] in H.
    + inversion H; subst. eauto.
    + destruct (starts (type t)); [discriminate|]. inversion H; subst. eauto.
  - destruct toks as [|t toks']; cbn [parse_more] in H.
    + inversion H; subst. eauto.
    + destruct (starts (type t)).
      2:{ inversion H; subst. eauto. }
      apply pbind_ok in H as (x & r1 & E & H).
      apply (item_sound _ _ _ HF) in E as [Hx Hr1].
      cbn [append_child] in H. eapply IH; [exact Hr1 | | | exact H].
      * apply Forall_app. split; [assumption | now constructor].
      * destruct l; discriminate.
Qed.

Lemma parse_sequence_sound :
  sound (fun n => exists l, n = MkNode kind l VNone /\ l <> [] /\ Forall P l)
        (parse_sequence kind starts item).
Proof.
  intros toks n r HF H. unfold parse_sequence in H.
  apply pbind_ok in H as (x & r1 & E & H).
  apply (item_sound _ _ _ HF) in E as [Hx Hr1].
  eapply parse_more_sound; [exact Hr1 | | | exact H].
  - now constructor.
  - discriminate.
Qed.

End SequenceSoundness.

Lemma parse_member_sound :
  sound (fun d => node_type d = declaration /\ exists s, node_value d = VStr s)
        parse_member.
Proof.
  intros toks n r HF H. split.
  2:{ eapply strict_suffix_Forall; [|exact HF].
      eapply parse_member_suffix; eassumption. }
  unfold parse_member, parse_declaration_tail, parse_float_declaration in H.
  sound_steps; cbn [node_type node_value]; split; try reflexivity;
    apply identifier_value; assumption.
Qed.

Lemma parse_declarations_sound : sound declarations_ok parse_declarations.
Proof.
  intros toks n r HF H.
  apply (parse_sequence_sound _ _ _ _ parse_member_sound _ _ _ HF) in H.
  exact H.
Qed.

(** A class definition becomes a [class] node over one [declarations] node,
    named by the identifier after [CLASS]. *)
Lemma parse_class_shape toks n r :
  Forall tok_ok toks -> parse_class toks = POk n r ->
  exists name ds, n = MkNode class [ds] (VStr name) /\ declarations_ok ds.
Proof.
  intros HF H. unfold parse_class in H.
  apply pbind_ok in H as (id & r1 & E & H).
  apply expect_ok in E as [-> Hid].
  apply Forall_cons_iff in HF as [Hv HF].
  destruct (identifier_value id Hid Hv) as [name Hname].
  sound_steps.
  match goal with
  | H : parse_declarations _ = POk _ _ |- _ =>
      apply (parse_declarations_sound _ _ _ Hr) in H as [Hds _]
  end.
  sound_steps. rewrite Hname. eauto.
Qed.

(** *** Blocks, statements, programs *)

Lemma parse_block_sound stmt : sound ok stmt -> sound ok (parse_block stmt).
Proof.
  intros Hstmt toks n r HF H. unfold parse_block in H.
  sound_steps.
  match goal with
  | H : parse_sequence _ _ _ _ = POk _ _ |- _ =>
      apply (parse_sequence_sound _ _ _ _ Hstmt _ _ _ Hr) in H
        as [(l & -> & _ & Hl) Hr']
  end.
  sound_steps. split; [now apply gen_statements | assumption].
Qed.

Lemma parse_statement_with_sound block :
  sound ok block -> sound ok (parse_statement_with block).
Proof.
  intros Hblock toks n r HF H. unfold parse_statement_with in H.
  destruct toks as [|t0 r0]; [discriminate|].
  apply Forall_cons_iff in HF as [Ht0 HF].
  pose proof parse_params_sound as Hparams.
  pose proof parse_float_declaration_sound as Hfloat.
  pose proof parse_class_sound as Hclass.
  pose proof parse_output_sound as Hout.
  pose proof parse_return_sound as Hret.
  pose proof (parse_after_identifier_sound t0) as Hid.
  destruct (type t0); try discriminate; sound_steps; auto.
  all: try sound_done.
  all: try match goal with
         | H : parse_declaration_tail ?id ?x = POk _ _ |- _ =>
             eapply (parse_declaration_tail_sound id); [|exact H];
             repeat constructor; assumption
         end.
Qed.

Lemma parse_statement_sound (fuel : nat) : sound ok (parse_statement fuel).
Proof.
  induction fuel as [|fuel IH].
  - intros toks n r _ H. discriminate.
  - cbn [parse_statement]. now apply parse_statement_with_sound, parse_block_sound.
Qed.

Lemma parse_program_sound (fuel : nat) : sound ok (parse_program fuel).
Proof.
  intros toks n r HF H. unfold parse_program in H.
  pose proof (parse_sequence_sound statements starts_statement _ _
                (parse_statement_sound fuel)) as Hseq.
  apply pbind_ok in H as (p & r1 & E & H).
  assert (Hp : ok p).
  { destruct toks as [|t r0]; [discriminate|].
    destruct (toktype_eqb (type t) INCLUDE).
    - pose proof (parse_includes_suffix (t :: r0) []) as Hs.
      destruct (parse_includes [] (t :: r0)) as [p1 r2]. cbn [snd] in Hs.
      apply (suffix_Forall _ _ _ Hs) in HF.
      apply pbind_ok in E as (p2 & r3 & E & H').
      apply (Hseq _ _ _ HF) in E as [(l & -> & _ & Hl) _].
      inversion H'; subst. apply gen_program. constructor; [|constructor].
      now apply gen_statements.
    - apply pbind_ok in E as (p2 & r3 & E & H').
      apply (Hseq _ _ _ HF) in E as [(l & -> & _ & Hl) _].
      inversion H'; subst. apply gen_program. constructor; [|constructor].
      now apply gen_statements. }
  destruct r1; [|discriminate]. inversion H; subst. split; [assumption | constructor].
Qed.

(** What the parser accepts, the generator turns into text. *)
Lemma parse_sound (toks : list LexToken) (ast : Node) (r : list LexToken) :
  Forall tok_ok toks -> parse toks = POk ast r -> ok ast.
Proof. intros HF H. now apply (parse_program_sound _ _ _ _ HF) in H. Qed.

End GeneratorFacts.

(** ** The parser does not look at line numbers *)

Module RelocateFacts.
Import Lexer Parser Shape ParserFacts StatementFacts.
Local Open Scope list_scope.

Section Relocation.
Variable d : N.

Local Abbreviation rel := (relocate d).
Local Abbreviation same := (fun n : Node => n).

Lemma pbind_relocated {A B} (fa : A -> A) (fb : B -> B)
  (m : presult A) (k k' : A -> list LexToken -> presult B) :
  (forall a r, k' (fa a) (map rel r) = relocated fb d (k a r)) ->
  pbind (relocated fa d m) k' = relocated fb d (pbind m k).
Proof. intros H. destruct m; cbn [relocated pbind]; auto. Qed.

Lemma expect_relocate (ty : toktype) (toks : list LexToken) :
  expect ty (map rel toks) = relocated rel d (expect ty toks).
Proof.
  destruct toks as [|t r]; [reflexivity|]. cbn [map expect relocate type].
  now destruct (toktype_eqb (type t) ty).
Qed.

Lemma resolves_relocate (a : toktype) (f : frame) :
  resolves_to_reduce a (relocate_frame d f) = resolves_to_reduce a f.
Proof. now destruct f. Qed.

Lemma reduce_relocate (f : frame) (e : Node) :
  reduce (relocate_frame d f) e = reduce f e.
Proof. now destruct f. Qed.

Lemma reduce_for_relocate (a : toktype) (st : list frame) :
  forall e,
    reduce_for a (map (relocate_frame d) st) e
    = (map (relocate_frame d) (fst (reduce_for a st e)), snd (reduce_for a st e)).
Proof.
  induction st as [|f st IH]; intros e; cbn [map reduce_for]; [reflexivity|].
  rewrite resolves_relocate, reduce_relocate.
  destruct (resolves_to_reduce a f); [apply IH | reflexivity].
Qed.

Lemma reduce_all_relocate (st : list frame) :
  forall e, reduce_all (map (relocate_frame d) st) e = reduce_all st e.
Proof.
  induction st as [|f st IH]; intros e; cbn [map reduce_all]; [reflexivity|].
  now rewrite reduce_relocate, IH.
Qed.

Lemma parse_operand_relocate_upto (k : nat) :
  forall toks, length toks <= k ->
  forall out st,
    parse_operand out (map (relocate_frame d) st) (map rel toks)
    = relocated same d (parse_operand out st toks).
Proof.
  induction k as [|k IH]; intros toks Hk out st.
  - destruct toks; [reflexivity | simpl in Hk; lia].
  - destruct toks as [|t r]; [reflexivity|]. simpl in Hk.
    cbn [map parse_operand relocate type value].
    assert (Hnot : parse_operand out (FNot (rel t) :: map (relocate_frame d) st)
                     (map rel r)
                   = relocated same d (parse_operand out (FNot t :: st) r)).
    { apply (IH r ltac:(lia) out (FNot t :: st)). }
    destruct (type t); try reflexivity; try exact Hnot;
      (destruct r as [|a r']; [reflexivity|];
       cbn [map relocate type value]; simpl in Hk;
       destruct (is_binop (type a)); [|now rewrite reduce_all_relocate];
       rewrite reduce_for_relocate;
       destruct (reduce_for (type a) st (MkNode literal [] (value t)))
         as [st' e'] eqn:Erf;
       cbn [fst snd];
       pose proof (IH r' ltac:(lia) out (FBin e' a :: st')) as Hrec;
       pose proof (IH r' ltac:(lia) out [FBin e' a]) as Hrec1;
       cbn [map relocate_frame] in Hrec, Hrec1;
       destruct out, (type a), st' as [|f st'], r' as [|b r''];
       try reflexivity; try exact Hrec;
       cbn [map relocate type];
       destruct (toktype_eqb (type b) LT); [reflexivity | exact Hrec1]).
Qed.

Lemma parse_operand_relocate out (toks : list LexToken) :
  parse_operand out [] (map rel toks)
  = relocated same d (parse_operand out [] toks).
Proof. apply (parse_operand_relocate_upto _ toks (le_n _) out []). Qed.

Lemma parse_expression_relocate (toks : list LexToken) :
  parse_expression (map rel toks) = relocated same d (parse_expression toks).
Proof. apply parse_operand_relocate. Qed.

(** Follows a production step by step on both token sequences. *)
Ltac reloc :=
  repeat first
    [ reflexivity
    | progress cbn [map relocate type value pbind relocated]
    | rewrite expect_relocate
    | rewrite parse_expression_relocate
    | rewrite parse_operand_relocate
    | (apply pbind_relocated; intros ? ?)
    | match goal with
      | |- context [match ?r with [] => _ | _ :: _ => _ end] => is_var r; destruct r
      end
    | match goal with
      | |- context [if toktype_eqb ?a ?b then _ else _] => destruct (toktype_eqb a b)
      end
    | match goal with
      | |- context [match type ?t with _ => _ end] => destruct (type t)
      end ].

Lemma parse_declaration_tail_relocate (id : LexToken) (toks : list LexToken) :
  parse_declaration_tail (rel id) (map rel toks)
  = relocated same d (parse_declaration_tail id toks).
Proof. unfold parse_declaration_tail. reloc. Qed.

Lemma parse_float_declaration_relocate (toks : list LexToken) :
  parse_float_declaration (map rel toks)
  = relocated same d (parse_float_declaration toks).
Proof. unfold parse_float_declaration. reloc. Qed.

Lemma parse_after_identifier_relocate (id : LexToken) (toks : list LexToken) :
  parse_after_identifier (rel id) (map rel toks)
  = relocated same d (parse_after_identifier id toks).
Proof. unfold parse_after_identifier. reloc. Qed.

Lemma parse_output_relocate (toks : list LexToken) :
  parse_output (map rel toks) = relocated same d (parse_output toks).
Proof. unfold parse_output. reloc. Qed.

Lemma parse_return_relocate (toks : list LexToken) :
  parse_return (map rel toks) = relocated same d (parse_return toks).
Proof. unfold parse_return. reloc. Qed.

Lemma parse_more_params_relocate_upto (k : nat) :
  forall toks, length toks <= k ->
  forall acc,
    parse_more_params acc (map rel toks)
    = relocated same d (parse_more_params acc toks).
Proof.
  induction k as [|k IH]; intros toks Hk acc.
  - destruct toks; [reflexivity | simpl in Hk; lia].
  - destruct toks as [|c r1]; [reflexivity|]. simpl in Hk.
    cbn [map parse_more_params relocate type].
    destruct (toktype_eqb (type c) COMMA); [|reflexivity].
    destruct r1 as [|i r2]; [reflexivity|]. cbn [map relocate type].
    destruct (toktype_eqb (type i) INT); [|reflexivity].
    destruct r2 as [|id r3]; [reflexivity|]. cbn [map relocate type value].
    destruct (toktype_eqb (type id) IDENTIFIER); [|reflexivity].
    apply IH. simpl in Hk. lia.
Qed.

Lemma parse_params_relocate (toks : list LexToken) :
  parse_params (map rel toks) = relocated same d (parse_params toks).
Proof.
  unfold parse_params. destruct toks as [|t r]; [reflexivity|].
  cbn [map relocate type].
  destruct (type t); try reflexivity.
  - rewrite expect_relocate. apply pbind_relocated. intros id r'.
    cbn [relocate value]. now apply parse_more_params_relocate_upto with (k := length r').
  - now apply (parse_more_params_relocate_upto _ (t :: r) (le_n _)).
  - now apply (parse_more_params_relocate_upto _ (t :: r) (le_n _)).
Qed.

Lemma parse_member_relocate (toks : list LexToken) :
  parse_member (map rel toks) = relocated same d (parse_member toks).
Proof.
  unfold parse_member. destruct toks as [|t r]; [reflexivity|].
  cbn [map relocate type]. destruct (type t); try reflexivity.
  - rewrite expect_relocate. apply pbind_relocated. intros id r'.
    apply parse_declaration_tail_relocate.
  - apply parse_float_declaration_relocate.
Qed.

Section SequenceRelocation.
Variables (kind : NodeType) (starts : toktype -> bool).
Variables item item' : list LexToken -> presult Node.
Hypothesis item_relocate :
  forall toks, item' (map rel toks) = relocated same d (item toks).

Lemma parse_more_relocate (k : nat) :
  forall toks acc,
    parse_more kind starts item' k acc (map rel toks)
    = relocated same d (parse_more kind starts item k acc toks).
Proof.
  induction k as [|k IH]; intros toks acc.
  - destruct toks as [|t r]; [reflexivity|]. cbn [map parse_more relocate type].
    now destruct (starts (type t)).
  - destruct toks as [|t r]; [reflexivity|]. cbn [map parse_more relocate type].
    destruct (starts (type t)); [|reflexivity].
    change (rel t :: map rel r) with (map rel (t :: r)).
    rewrite item_relocate. apply pbind_relocated. intros x r'. apply IH.
Qed.

Lemma parse_sequence_relocate (toks : list LexToken) :
  parse_sequence kind starts item' (map rel toks)
  = relocated same d (parse_sequence kind starts item toks).
Proof.
  unfold parse_sequence. rewrite item_relocate. apply pbind_relocated.
  intros x r. rewrite length_map. apply parse_more_relocate.
Qed.

End SequenceRelocation.

Lemma parse_class_relocate (toks : list LexToken) :
  parse_class (map rel toks) = relocated same d (parse_class toks).
Proof.
  unfold parse_class, parse_declarations. reloc.
  rewrite (parse_sequence_relocate declarations starts_member
             parse_member parse_member parse_member_relocate).
  reloc.
Qed.

Lemma parse_block_relocate (stmt stmt' : list LexToken -> presult Node) :
  (forall toks, stmt' (map rel toks) = relocated same d (stmt toks)) ->
  forall toks,
    parse_block stmt' (map rel toks) = relocated same d (parse_block stmt toks).
Proof.
  intros H toks. unfold parse_block. reloc.
  rewrite (parse_sequence_relocate statements starts_statement stmt stmt' H).
  reloc.
Qed.

Lemma parse_statement_with_relocate (block block' : list LexToken -> presult Node) :
  (forall toks, block' (map rel toks) = relocated same d (block toks)) ->
  forall toks,
    parse_statement_with block' (map rel toks)
    = relocated same d (parse_statement_with block toks).
Proof.
  intros H toks. unfold parse_statement_with.
  destruct toks as [|t r]; [reflexivity|]. cbn [map relocate type].
  destruct (type t); try reflexivity;
    try apply parse_float_declaration_relocate;
    try apply (parse_after_identifier_relocate t);
    try apply parse_class_relocate;
    try apply parse_output_relocate;
    try apply parse_return_relocate.
  all: repeat first
         [ reflexivity
         | progress cbn [map relocate type value pbind relocated app]
         | rewrite expect_relocate
         | rewrite parse_expression_relocate
         | rewrite parse_params_relocate
         | rewrite H
         | (apply pbind_relocated; intros ? ?)
         | match goal with
           | |- parse_declaration_tail (rel ?id) (rel ?t :: map rel ?r) = _ =>
               apply (parse_declaration_tail_relocate id (t :: r))
           end
         | match goal with
           | |- context [match ?r with [] => _ | _ :: _ => _ end] =>
               is_var r; destruct r
           end
         | match goal with
           | |- context [if toktype_eqb ?a ?b then _ else _] =>
               destruct (toktype_eqb a b)
           end ].
Qed.

Lemma parse_statement_relocate (fuel : nat) :
  forall toks,
    parse_statement fuel (map rel toks) = relocated same d (parse_statement fuel toks).
Proof.
  induction fuel as [|fuel IH]; intros toks; [reflexivity|].
  cbn [parse_statement].
  now apply parse_statement_with_relocate, parse_block_relocate.
Qed.

Lemma parse_includes_relocate (toks : list LexToken) :
  forall acc,
    parse_includes acc (map rel toks)
    = (fst (parse_includes acc toks), map rel (snd (parse_includes acc toks))).
Proof.
  induction toks as [|t r IH]; intros acc; cbn [map parse_includes relocate type value].
  - reflexivity.
  - destruct (toktype_eqb (type t) INCLUDE); [apply IH | reflexivity].
Qed.

(** The parser reads the same tree from tokens that lie [d] lines later. *)
Lemma parse_relocate (toks : list LexToken) :
  parse (map rel toks) = relocated same d (parse toks).
Proof.
  unfold parse, parse_program. rewrite length_map.
  pose proof (parse_sequence_relocate statements starts_statement _ _
                (parse_statement_relocate (S (length toks)))) as Hseq.
  destruct toks as [|t r]; [reflexivity|].
  cbn [map relocate type].
  change (mkTok (type t) (value t) (lineno t + d)) with (rel t).
  change (rel t :: map rel r) with (map rel (t :: r)).
  destruct (toktype_eqb (type t) INCLUDE).
  - rewrite parse_includes_relocate.
    destruct (parse_includes [] (t :: r)) as [p1 r1]. cbn [fst snd].
    rewrite Hseq.
    destruct (parse_sequence _ _ _ r1) as [p2 r2| | |]; cbn [relocated pbind];
      try reflexivity.
    now destruct r2.
  - rewrite Hseq.
    destruct (parse_sequence _ _ _ (t :: r)) as [p2 r2| | |]; cbn [relocated pbind];
      try reflexivity.
    now destruct r2.
Qed.

(** Starting the scan [d] lines later moves every token and the end of the
    scan by [d] lines and changes nothing else. *)
Lemma scan_relocate (s : string) :
  forall k ln,
    scan k s (ln + d)
    = (map rel (fst (scan k s ln)), relocate_stop d (snd (scan k s ln))).
Proof.
  induction s as [|c s IH]; intros k ln; cbn [scan].
  - reflexivity.
  - destruct k; [|apply IH].
    destruct (is_ignored c); [apply IH|].
    destruct (first_match master_rules (String c s)) as [[a m]|]; [|reflexivity].
    destruct a.
    + rewrite IH. now destruct (scan _ s ln).
    + unfold t_NUMBER, py_int.
      destruct (has_dot m); [|destruct (Nat.ltb _ _)]; cbn [bind];
        try reflexivity; rewrite IH; now destruct (scan _ s ln).
    + replace (ln + d + N.of_nat (String.length m))%N
        with (ln + N.of_nat (String.length m) + d)%N by lia.
      apply IH.
    + rewrite IH. now destruct (scan _ s ln).
    + apply IH.
Qed.

End Relocation.
End RelocateFacts.

(** * The claims *)

Section Claims.
Import Lexer Parser Shape LexerFacts ParserFacts StatementFacts.
Local Open Scope list_scope.
Variable float_str : string -> string.

Local Abbreviation gen := (generate_code float_str).

(** C1.  The counted loop of the specification, [for (int i = 0; i < 5; i++)
    { cout << i << endl; }], does not become a loop from [0] to [5]: the
    upper bound of the generated range is the translation of the whole guard
    [i < 5].  For every [for] node the second argument of [range] is the
    text generated for the guard expression itself, not for its right-hand
    operand. *)
Theorem for_loop_bound_is_whole_guard :
  transpile float_str initial_lineno
    "for (int i = 0; i < 5; i++) { cout << i << endl; }"
  = Some (Return ("for i in range(0, i < 5):" ++ newline
                  ++ "    print(i, end='\n')" ++ newline)%string,
          1%N)
  /\ forall (e1 e2 body : Node) (v : pyval) (indent : nat),
       gen (MkNode for_ [e1; e2; body] v) indent =
       (lo <- gen e1 0 ;;
        hi <- gen e2 0 ;;
        b <- gen body (indent + 1) ;;
        Return (indentation indent ++ "for " ++ py_str float_str v
                ++ " in range(" ++ lo ++ ", " ++ hi ++ "):" ++ newline ++ b)%string).
Proof. split; [vm_compute; reflexivity | reflexivity]. Qed.

(** C2.  The line counter of the module-level lexer is not reset between
    calls.  The same input, a line feed followed by [@], is reported at line 2
    by a first call and at line 3 by the next; and after a call that read one
    line feed, an error on the first line of the next input is reported at
    line 2. *)
Theorem line_counter_survives_calls :
  transpile_twice float_str initial_lineno (newline ++ "@") (newline ++ "@")
  = Some (Return "Illegal character '@' at line 2",
          Return "Illegal character '@' at line 3")
  /\ transpile_twice float_str initial_lineno ("int x = 5;" ++ newline) "@"
     = Some (Return ("x = 5" ++ newline)%string,
             Return "Illegal character '@' at line 2").
Proof. split; vm_compute; reflexivity. Qed.

(** C6.  A scalar declaration becomes a binding of the declared name: to the
    text generated for the initializer when there is one, to [0] when there
    is none; the line starts with the indentation and ends with a line feed,
    and [int x = 5;] at top level gives [x = 5] at no indentation. *)
Theorem declaration_binds_name
  (fuel : nat) (kw int_kw id asg semi : LexToken)
  (e_toks rest : list LexToken) (e : Node) (indent : nat) :
  type kw = INT \/ type kw = FLOAT ->
  type int_kw = INT ->
  type id = IDENTIFIER -> type asg = EQUALS -> type semi = SEMICOLON ->
  parse_expression (e_toks ++ semi :: rest) = POk e (semi :: rest) ->
  (parse_statement (S fuel) (kw :: id :: asg :: e_toks ++ semi :: rest)
   = POk (MkNode declaration [e] (value id)) rest
   /\ gen (MkNode declaration [e] (value id)) indent
      = (text <- gen e 0 ;;
         Return (indentation indent ++ py_str float_str (value id) ++ " = "
                 ++ text ++ newline)%string))
  /\ (parse_statement (S fuel) (int_kw :: id :: semi :: rest)
      = POk (MkNode declaration [] (value id)) rest
      /\ gen (MkNode declaration [] (value id)) indent
         = Return (indentation indent ++ py_str float_str (value id) ++ " = "
                   ++ "0" ++ newline)%string)
  /\ transpile float_str initial_lineno "int x = 5;"
     = Some (Return ("x = 5" ++ newline)%string, 1%N).
Proof.
  intros Hkw Hint Hid Heq Hsemi He.
  split; [split | split; [split|]]; try reflexivity.
  - cbn [parse_statement parse_statement_with].
    destruct Hkw as [Hkw|Hkw]; rewrite Hkw.
    + cbn [expect pbind]. rewrite Hid. cbn [expect toktype_eqb pbind].
      rewrite Heq. cbn [toktype_eqb]. unfold parse_declaration_tail. cbv iota.
      rewrite Heq, He. cbn [pbind expect]. now rewrite Hsemi.
    + unfold parse_float_declaration. cbn [expect pbind].
      rewrite Hid. cbn [expect toktype_eqb pbind]. rewrite Heq. cbn [expect toktype_eqb pbind].
      rewrite He. cbn [pbind expect]. now rewrite Hsemi.
  - cbn [parse_statement parse_statement_with]. rewrite Hint.
    cbn [expect pbind]. rewrite Hid. cbn [expect toktype_eqb pbind].
    rewrite Hsemi. cbn [toktype_eqb]. unfold parse_declaration_tail. cbv iota.
    now rewrite Hsemi.
Qed.

Lemma string_app_nil_r (s : string) : (s ++ "")%string = s.
Proof. induction s; simpl; congruence. Qed.

Lemma concat_empty_cons (x : string) (l : list string) :
  String.concat "" (x :: l) = (x ++ String.concat "" l)%string.
Proof. destruct l; cbn [String.concat]; [now rewrite string_app_nil_r | reflexivity]. Qed.

Lemma field_lines_concat (indent_str : string) (ds : list Node) :
  field_lines float_str indent_str ds =
  String.concat ""
    (map (fun d => (indent_str ++ "        self."
                    ++ py_str float_str (node_value d) ++ " = 0" ++ newline)%string)
         ds).
Proof.
  induction ds as [|d ds IH]; [reflexivity|].
  cbn [field_lines map]. rewrite concat_empty_cons, IH.
  now rewrite !string_app_assoc.
Qed.

(** Every class statement the parser accepts generates a class header, the
    header of [__init__(self)], and then one line per child of the
    [declarations] node; nothing else. *)
Lemma parsed_class_text
  (fuel : nat) (kw : LexToken) (toks rest : list LexToken) (n : Node)
  (indent : nat) :
  type kw = CLASS ->
  Forall tok_ok (kw :: toks) ->
  parse_statement (S fuel) (kw :: toks) = POk n rest ->
  exists (name : string) (ds : list Node),
    n = MkNode class [MkNode declarations ds VNone] (VStr name)
    /\ ds <> []
    /\ gen n indent
       = Return (indentation indent ++ "class " ++ name ++ ":" ++ newline
                 ++ indentation indent ++ "    def __init__(self):" ++ newline
                 ++ String.concat ""
                      (map (fun d =>
                              (indentation indent ++ "        self."
                               ++ py_str float_str (node_value d) ++ " = 0"
                               ++ newline)%string) ds))%string.
Proof.
  intros Hkw HF H. cbn [parse_statement parse_statement_with] in H.
  rewrite Hkw in H. apply Forall_cons_iff in HF as [_ HF].
  destruct (parse_class_shape float_str toks n rest HF H)
    as (name & dsn & -> & ds & -> & Hne & _).
  exists name, ds. repeat split; [assumption|].
  cbn [generate_code node_children py_str]. now rewrite field_lines_concat.
Qed.

Lemma field_lines_strip (indent_str : string) (ds : list Node) :
  field_lines float_str indent_str (map strip_initializer ds)
  = field_lines float_str indent_str ds.
Proof.
  induction ds as [|d ds IH]; [reflexivity|].
  cbn [map field_lines]. rewrite IH. now destruct d.
Qed.

(** C10.  A field declared with an initializer is accepted in a class body,
    and the text generated for the class is the text generated for the same
    class with every initializer removed: each field is set to [0] and the
    initializer leaves no trace. *)
Theorem field_initializer_ignored
  (kw id asg semi : LexToken) (e_toks rest : list LexToken) (e : Node)
  (ds : list Node) (v name : pyval) (indent : nat) :
  type kw = INT \/ type kw = FLOAT ->
  type id = IDENTIFIER -> type asg = EQUALS -> type semi = SEMICOLON ->
  parse_expression (e_toks ++ semi :: rest) = POk e (semi :: rest) ->
  parse_member (kw :: id :: asg :: e_toks ++ semi :: rest)
  = POk (MkNode declaration [e] (value id)) rest
  /\ gen (MkNode class [MkNode declarations ds v] name) indent
     = gen (MkNode class [MkNode declarations (map strip_initializer ds) v] name)
           indent
  /\ transpile float_str initial_lineno "class A { int x = 5; };"
     = Some (Return ("class A:" ++ newline
                     ++ "    def __init__(self):" ++ newline
                     ++ "        self.x = 0" ++ newline)%string, 1%N).
Proof.
  intros Hkw Hid Heq Hsemi He. split; [|split].
  - unfold parse_member. destruct Hkw as [Hkw|Hkw]; rewrite Hkw.
    + cbn [expect pbind]. rewrite Hid. cbn [expect toktype_eqb pbind].
      unfold parse_declaration_tail. cbv iota.
      rewrite Heq, He. cbn [pbind expect]. now rewrite Hsemi.
    + unfold parse_float_declaration. cbn [expect pbind].
      rewrite Hid. cbn [expect toktype_eqb pbind]. rewrite Heq. cbn [expect toktype_eqb pbind].
      rewrite He. cbn [pbind expect]. now rewrite Hsemi.
  - cbn [generate_code node_children]. now rewrite field_lines_strip.
  - vm_compute. reflexivity.
Qed.

(** *** Steps of the expression parser *)

Lemma operand_step_not out st (t : LexToken) r :
  type t = NOT -> parse_operand out st (t :: r) = parse_operand out (FNot t :: st) r.
Proof. intros Ht. cbn [parse_operand]. now rewrite Ht. Qed.

Lemma operand_step_end out st (t x : LexToken) r :
  is_operand (type t) = true -> is_binop (type x) = false ->
  parse_operand out st (t :: x :: r) = POk (reduce_all st (lit t)) (x :: r).
Proof.
  intros Ht Hx. cbn [parse_operand].
  destruct (type t); try discriminate; now rewrite Hx.
Qed.

Lemma operand_step out st (t a b : LexToken) r :
  is_operand (type t) = true -> is_binop (type a) = true ->
  toktype_eqb (type b) LT = false ->
  parse_operand out st (t :: a :: b :: r)
  = parse_operand out
      (FBin (snd (reduce_for (type a) st (lit t))) a
       :: fst (reduce_for (type a) st (lit t)))
      (b :: r).
Proof.
  intros Ht Ha Hb. cbn [parse_operand]. unfold lit.
  destruct (reduce_for (type a) st (MkNode literal [] (value t))) as [st' e'].
  cbn [fst snd].
  destruct (type t); try discriminate; rewrite Ha;
    destruct out, (type a), st'; try reflexivity; now rewrite Hb.
Qed.




(** *** Expressions in output statements *)

Lemma expr_shape_head (toks : list LexToken) :
  expr_shape toks = true ->
  exists b r, toks = b :: r /\ toktype_eqb (type b) LT = false.
Proof.
  destruct toks as [|b r]; [discriminate|]. cbn [expr_shape]. intros H.
  exists b, r. split; [reflexivity|].
  destruct (type b); try reflexivity; discriminate.
Qed.

Lemma expr_shape_parses_upto (k : nat) :
  forall toks, length toks <= k -> expr_shape toks = true ->
  forall st (x : LexToken) rest, is_binop (type x) = false ->
  exists e, forall out, parse_operand out st (toks ++ x :: rest) = POk e (x :: rest).
Proof.
  induction k as [|k IH]; intros toks Hk Hshape st x rest Hx.
  - destruct toks; [discriminate | simpl in Hk; lia].
  - destruct toks as [|t r]; [discriminate|]. simpl in Hk.
    cbn [expr_shape] in Hshape.
    destruct (toktype_eqb (type t) NOT) eqn:Hnot.
    + apply toktype_eqb_eq in Hnot.
      destruct (IH r ltac:(lia) Hshape (FNot t :: st) x rest Hx) as [e He].
      exists e. intros out. cbn [app]. now rewrite operand_step_not.
    + apply andb_true_iff in Hshape as [Ht Hrest].
      destruct r as [|a r'].
      * exists (reduce_all st (lit t)). intros out. cbn [app].
        now apply operand_step_end.
      * apply andb_true_iff in Hrest as [Ha Hr'].
        destruct (expr_shape_head r' Hr') as (b & r'' & -> & Hb).
        simpl in Hk.
        destruct (IH (b :: r'') ltac:(simpl; lia) Hr'
                    (FBin (snd (reduce_for (type a) st (lit t))) a
                     :: fst (reduce_for (type a) st (lit t))) x rest Hx)
          as [e He].
        exists e. intros out. cbn [app]. rewrite operand_step by assumption.
        apply He.
Qed.

Lemma reduce_for_keeps (P : frame -> Prop) (a : toktype) (st : list frame) :
  forall e, Forall P st -> Forall P (fst (reduce_for a st e)).
Proof.
  induction st as [|f st IH]; intros e H; cbn [reduce_for]; [constructor|].
  inversion H; subst. destruct (resolves_to_reduce a f); [now apply IH | assumption].
Qed.

Lemma reduce_for_arithmetic (st : list frame) :
  forall e,
    Forall (fun f => exists l op, f = FBin l op
                     /\ (is_additive (type op) || is_multiplicative (type op)) = true) st ->
    reduce_for LT st e = ([], reduce_all st e).
Proof.
  induction st as [|f st IH]; intros e H; cbn [reduce_for reduce_all]; [reflexivity|].
  inversion H as [|? ? (l & op & -> & Hop) Hst]; subst.
  replace (resolves_to_reduce LT (FBin l op)) with true.
  - now apply IH.
  - unfold resolves_to_reduce, prod_prec.
    destruct (type op); try discriminate; reflexivity.
Qed.

Lemma arith_shape_parses_upto (k : nat) :
  forall toks, length toks <= k -> arith_shape toks = true ->
  forall st,
    Forall (fun f => exists l op, f = FBin l op
                     /\ (is_additive (type op) || is_multiplicative (type op)) = true) st ->
  exists e,
    (forall out (x : LexToken) rest, is_binop (type x) = false ->
       parse_operand out st (toks ++ x :: rest) = POk e (x :: rest))
    /\ (forall (l3 l4 : LexToken) rest, type l3 = LT -> type l4 = LT ->
          parse_operand true st (toks ++ l3 :: l4 :: rest)
          = POk e (l3 :: l4 :: rest)).
Proof.
  induction k as [|k IH]; intros toks Hk Hshape st Hst.
  - destruct toks; [discriminate | simpl in Hk; lia].
  - destruct toks as [|t r]; [discriminate|]. simpl in Hk.
    cbn [arith_shape] in Hshape.
    apply andb_true_iff in Hshape as [Ht Hrest].
    destruct r as [|a r'].
    + exists (reduce_all st (lit t)). split.
      * intros out x rest Hx. cbn [app]. now apply operand_step_end.
      * intros l3 l4 rest H3 H4. cbn [app parse_operand].
        rewrite H3, H4. cbn [is_binop toktype_eqb].
        fold (lit t). rewrite (reduce_for_arithmetic st (lit t) Hst).
        destruct (type t); try discriminate; reflexivity.
    + apply andb_true_iff in Hrest as [Ha Hr'].
      assert (Hop : is_binop (type a) = true)
        by (destruct (type a); try discriminate; reflexivity).
      assert (Hb : exists b r'', r' = b :: r'' /\ toktype_eqb (type b) LT = false).
      { destruct r' as [|b r'']; [discriminate|]. exists b, r''.
        split; [reflexivity|]. cbn [arith_shape] in Hr'.
        destruct (type b); try reflexivity; discriminate. }
      destruct Hb as (b & r'' & -> & Hb). simpl in Hk.
      destruct (IH (b :: r'') ltac:(simpl; lia) Hr'
                  (FBin (snd (reduce_for (type a) st (lit t))) a
                   :: fst (reduce_for (type a) st (lit t))))
        as (e & He1 & He2).
      { constructor; [eauto | now apply reduce_for_keeps]. }
      exists e. split.
      * intros out x rest Hx. cbn [app]. rewrite operand_step by assumption.
        now apply He1.
      * intros l3 l4 rest H3 H4. cbn [app]. rewrite operand_step by assumption.
        now apply He2.
Qed.

(** C5, as the code has it.  An output statement holds one expression.
    Without the end-of-line marker every expression is accepted and becomes
    the child of an output node; with the marker the same holds when the
    expression is made of operands and arithmetic operators. *)
Theorem output_holds_one_expression
  (fuel : nat) (kw l1 l2 l3 l4 en semi : LexToken) (e_toks rest : list LexToken) :
  type kw = COUT -> type l1 = LT -> type l2 = LT ->
  type l3 = LT -> type l4 = LT -> type en = ENDL -> type semi = SEMICOLON ->
  expr_shape e_toks = true ->
  exists e,
    parse_expression (e_toks ++ semi :: rest) = POk e (semi :: rest)
    /\ parse_statement (S fuel) (kw :: l1 :: l2 :: e_toks ++ semi :: rest)
       = POk (MkNode output [e] (VStr "")) rest
    /\ (arith_shape e_toks = true ->
        parse_statement (S fuel)
          (kw :: l1 :: l2 :: e_toks ++ l3 :: l4 :: en :: semi :: rest)
        = POk (MkNode output [e] (VStr "endl")) rest).
Proof.
  intros Hkw H1 H2 H3 H4 Hen Hsemi Hshape.
  assert (Hx : is_binop (type semi) = false) by now rewrite Hsemi.
  destruct (expr_shape_parses_upto _ e_toks (le_n _) Hshape [] semi rest Hx)
    as [e He].
  exists e. split; [apply He | split].
  - cbn [parse_statement parse_statement_with]. rewrite Hkw.
    unfold parse_output. cbn [expect pbind]. rewrite H1. cbn [toktype_eqb pbind expect].
    rewrite H2. cbn [toktype_eqb pbind]. rewrite He. cbn [pbind].
    now rewrite Hsemi.
  - intros Harith.
    destruct (arith_shape_parses_upto _ e_toks (le_n _) Harith [] (Forall_nil _))
      as (e' & He1 & He2).
    assert (e' = e) as ->.
    { specialize (He1 false semi rest Hx). rewrite (He false) in He1. congruence. }
    cbn [parse_statement parse_statement_with]. rewrite Hkw.
    unfold parse_output. cbn [expect pbind]. rewrite H1. cbn [toktype_eqb pbind expect].
    rewrite H2. cbn [toktype_eqb pbind]. rewrite (He2 l3 l4) by assumption.
    cbn [pbind]. rewrite H3. cbn [expect pbind]. rewrite H4. cbn [toktype_eqb pbind expect].
    rewrite Hen. cbn [toktype_eqb pbind expect]. now rewrite Hsemi.
Qed.

(** *** Include directives *)

Lemma scan_without_includes (p q s : string) :
  without_includes p q ->
  forall ln, exists incs delta,
    Forall (fun t => type t = INCLUDE) incs
    /\ scan 0 (p ++ s) ln
       = (incs ++ fst (scan 0 s (ln + delta)), snd (scan 0 s (ln + delta)))
    /\ scan 0 (q ++ s) ln = scan 0 s (ln + delta).
Proof.
  induction 1 as [|c p q Hc _ IH|d p q Hd _ IH]; intros ln.
  - exists [], 0%N. rewrite N.add_0_r. split; [constructor|].
    cbn [String.append app]. now destruct (scan 0 s ln).
  - assert (exists d1, forall x, scan 0 (String c x) ln = scan 0 x (ln + d1))
      as [d1 Hd1].
    { unfold is_blank in Hc. destruct (is_ignored c) eqn:Hi.
      - exists 0%N. intros x. rewrite N.add_0_r. cbn [scan]. now rewrite Hi.
      - simpl in Hc. apply is_newline_char in Hc. subst c.
        exists 1%N. intros x. apply scan_newline. }
    destruct (IH (ln + d1)%N) as (incs & delta & Hincs & Hp & Hq).
    exists incs, (d1 + delta)%N. split; [assumption|].
    cbn [String.append]. rewrite !Hd1, N.add_assoc. auto.
  - destruct (IH ln) as (incs & delta & Hincs & Hp & Hq).
    exists (mkTok INCLUDE (VStr d) ln :: incs), delta. split; [|split].
    + constructor; [reflexivity | assumption].
    + rewrite string_app_assoc, (scan_directive d (p ++ s) ln Hd), Hp.
      reflexivity.
    + exact Hq.
Qed.

Lemma parse_includes_prefix (incs toks : list LexToken) :
  Forall (fun t => type t = INCLUDE) incs -> parse (incs ++ toks) = parse toks.
Proof.
  induction 1 as [|t incs Ht _ IH]; [reflexivity|].
  cbn [app]. now rewrite parse_include.
Qed.

(** ** Class bodies *)

(** A member is read whole, whatever follows it, into a [declaration] that
    carries the value of the name token. *)
Lemma parse_member_field (f : field) (rest : list LexToken) :
  field_ok f ->
  exists d, parse_member (field_tokens f ++ rest) = POk d rest
            /\ node_value d = value (f_id f).
Proof.
  destruct f as [kw id init semi]. unfold field_ok, field_tokens.
  cbn [f_kw f_id f_init f_semi]. intros (Hid & Hsemi & Hinit).
  destruct init as [|asg e_toks].
  - exists (MkNode declaration [] (value id)). split; [|reflexivity].
    cbn [app parse_member]. rewrite Hinit. cbn [expect pbind].
    rewrite Hid. cbn [toktype_eqb pbind parse_declaration_tail].
    now rewrite Hsemi.
  - destruct Hinit as (Hkw & Hasg & He).
    assert (Hns : is_binop (type semi) = false) by now rewrite Hsemi.
    destruct (expr_shape_parses_upto (length e_toks) e_toks (Nat.le_refl _) He
                [] semi rest Hns) as [e Hparse].
    exists (MkNode declaration [e] (value id)). split; [|reflexivity].
    replace ((kw :: id :: (asg :: e_toks) ++ [semi]) ++ rest)
      with (kw :: id :: asg :: e_toks ++ semi :: rest)
      by (cbn [app]; now rewrite <- app_assoc).
    unfold parse_member. destruct Hkw as [Hkw|Hkw]; rewrite Hkw.
    + cbn [expect pbind]. rewrite Hid. cbn [expect toktype_eqb pbind].
      unfold parse_declaration_tail. cbv iota.
      rewrite Hasg. unfold parse_expression. rewrite Hparse.
      cbn [pbind expect]. now rewrite Hsemi.
    + unfold parse_float_declaration. cbn [expect pbind].
      rewrite Hid. cbn [expect toktype_eqb pbind]. rewrite Hasg.
      cbn [expect toktype_eqb pbind].
      unfold parse_expression. rewrite Hparse.
      cbn [pbind expect]. now rewrite Hsemi.
Qed.

Lemma field_starts (f : field) :
  field_ok f -> starts_member (type (f_kw f)) = true.
Proof.
  intros (_ & _ & H). destruct (f_init f) as [|asg e_toks].
  - now rewrite H.
  - destruct H as ([H|H] & _); now rewrite H.
Qed.

(** The members of a class body are read one after the other, each into
    one child of the [declarations] node, up to the closing brace. *)
Lemma parse_more_fields (fs : list field) :
  forall k acc (stop : LexToken) rest,
    Forall field_ok fs -> starts_member (type stop) = false ->
    length fs <= k ->
    exists ds,
      parse_more declarations starts_member parse_member k
        (MkNode declarations acc VNone)
        (List.concat (map field_tokens fs) ++ stop :: rest)
      = POk (MkNode declarations (acc ++ ds) VNone) (stop :: rest)
      /\ map node_value ds = map (fun f => value (f_id f)) fs.
Proof.
  induction fs as [|f fs IH]; intros k acc stop rest HF Hstop Hk.
  - exists []. split; [|reflexivity]. rewrite app_nil_r.
    cbn [map List.concat app]. destruct k; cbn [parse_more]; now rewrite Hstop.
  - apply Forall_cons_iff in HF as [Hf HF].
    destruct k as [|k]; [cbn [length] in Hk; lia|].
    destruct (parse_member_field f (List.concat (map field_tokens fs) ++ stop :: rest) Hf)
      as (d & Hd & Hv).
    destruct (IH k (acc ++ [d]) stop rest HF Hstop ltac:(cbn [length] in Hk; lia))
      as (ds & Hds & Hvs).
    exists (d :: ds). split; [|cbn [map]; now rewrite Hv, Hvs].
    cbn [map List.concat]. rewrite <- app_assoc.
    pose proof (field_starts f Hf) as Hs.
    remember (List.concat (map field_tokens fs) ++ stop :: rest) as tl eqn:Etl.
    unfold field_tokens in Hd |- *. cbn [app] in Hd |- *.
    cbn [parse_more]. rewrite Hs, Hd. cbn [pbind append_child].
    rewrite Hds. now rewrite <- app_assoc.
Qed.

Lemma fields_length (fs : list field) (tl : list LexToken) :
  length fs <= length (List.concat (map field_tokens fs) ++ tl).
Proof.
  induction fs as [|f fs IH]; [cbn; lia|].
  cbn [map List.concat length]. rewrite <- app_assoc, length_app.
  unfold field_tokens at 1. cbn [length]. lia.
Qed.

(** C8.  A class definition, [class name { fields };] with at least one
    field, each an [int] with or without an initializer or a [float] with
    one, is one statement; its [declarations] node has one child per field,
    in order, carrying the field's name; and the text generated for it is a
    class header, the header of [__init__(self)], and then one line per
    declared field, each setting that field to [0]; nothing else. *)
Theorem class_generates_initializer_only
  (fuel : nat) (kw name lb rb semi : LexToken) (fields : list field)
  (rest : list LexToken) (indent : nat) :
  type kw = CLASS -> type name = IDENTIFIER -> type lb = LBRACE ->
  type rb = RBRACE -> type semi = SEMICOLON ->
  fields <> [] -> Forall field_ok fields ->
  exists ds : list Node,
    parse_statement (S fuel) (class_tokens kw name lb fields rb semi ++ rest)
    = POk (MkNode class [MkNode declarations ds VNone] (value name)) rest
    /\ map node_value ds = map (fun f => value (f_id f)) fields
    /\ gen (MkNode class [MkNode declarations ds VNone] (value name)) indent
       = Return (indentation indent ++ "class " ++ py_str float_str (value name)
                 ++ ":" ++ newline
                 ++ indentation indent ++ "    def __init__(self):" ++ newline
                 ++ String.concat ""
                      (map (fun f =>
                              (indentation indent ++ "        self."
                               ++ py_str float_str (value (f_id f)) ++ " = 0"
                               ++ newline)%string) fields))%string.
Proof.
  intros Hkw Hname Hlb Hrb Hsemi Hne HF.
  destruct fields as [|f fs]; [now elim Hne|].
  apply Forall_cons_iff in HF as [Hf HF].
  assert (Hstop : starts_member (type rb) = false) by now rewrite Hrb.
  destruct (parse_member_field f
              (List.concat (map field_tokens fs) ++ rb :: semi :: rest) Hf)
    as (d & Hd & Hv).
  destruct (parse_more_fields fs
              (length (List.concat (map field_tokens fs) ++ rb :: semi :: rest))
              [d] rb (semi :: rest) HF Hstop (fields_length fs _))
    as (ds & Hds & Hvs).
  exists (d :: ds). split; [|split].
  - unfold class_tokens. cbn [map List.concat app].
    rewrite <- !app_assoc. cbn [app].
    cbn [parse_statement parse_statement_with]. rewrite Hkw.
    unfold parse_class. cbn [expect pbind]. rewrite Hname.
    cbn [toktype_eqb pbind expect]. rewrite Hlb. cbn [toktype_eqb pbind].
    unfold parse_declarations, parse_sequence.
    rewrite Hd. cbn [pbind]. rewrite Hds. cbn [app pbind expect].
    rewrite Hrb. cbn [toktype_eqb pbind expect]. now rewrite Hsemi.
  - cbn [map]. now rewrite Hv, Hvs.
  - cbn [generate_code node_children]. rewrite field_lines_concat.
    assert (Hmap : forall F : pyval -> string,
               map (fun d => F (node_value d)) (d :: ds)
               = map (fun f => F (value (f_id f))) (f :: fs)).
    { intros F. rewrite <- (map_map node_value F).
      rewrite <- (map_map (fun f => value (f_id f)) F).
      cbn [map]. now rewrite Hv, Hvs. }
    rewrite (Hmap (fun v => (indentation indent ++ "        self."
                             ++ py_str float_str v ++ " = 0" ++ newline)%string)).
    reflexivity.
Qed.

(** C9.  Include directives contribute nothing.  For a text that opens with
    include directives, among spaces, tabs and line feeds, [transpile]
    returns what it returns for the same text with the directives taken out,
    and leaves the lexer in the same state; and when what follows the
    directives translates to a text on its own, the whole input translates
    to exactly that text. *)
Theorem includes_contribute_nothing (ln : N) (p q s : string) :
  without_includes p q ->
  transpile float_str ln (p ++ s) = transpile float_str ln (q ++ s)
  /\ forall text l,
       transpile_body float_str ln s = Some (Return text, l) ->
       exists l',
         transpile_body float_str ln (p ++ s) = Some (Return text, l')
         /\ transpile float_str ln (p ++ s) = Some (Return text, l').
Proof.
  intros H.
  destruct (scan_without_includes p q s H ln) as (incs & delta & Hincs & Hp & Hq).
  split.
  - unfold transpile, transpile_body, tokenize. rewrite Hp, Hq.
    rewrite (parse_includes_prefix incs _ Hincs).
    now destruct (scan 0 s (ln + delta)).
  - intros text l Hs.
    unfold transpile, transpile_body, tokenize in *. rewrite Hp.
    rewrite (parse_includes_prefix incs _ Hincs).
    rewrite (RelocateFacts.scan_relocate delta s 0 ln). cbn [fst snd].
    rewrite RelocateFacts.parse_relocate.
    destruct (scan 0 s ln) as [toks stop]. cbn [fst snd].
    destruct (parse toks) as [ast r|t| |]; cbn [relocated]; try discriminate.
    + destruct stop as [l0|c l0|e l0]; cbn [relocate_stop]; try discriminate.
      inversion Hs as [[Hg Hl]]. rewrite Hg. eauto.
    + destruct stop; discriminate.
Qed.

End Claims.

(** * The claims on sample inputs *)

Module Samples.
Import Lexer Parser Shape Inputs.
Local Open Scope list_scope.



(** C5: [cout << a << b;] is rejected at [b]. *)
Lemma two_expression_output_rejected :
  parse (fst (tokenize "cout << a << b;" initial_lineno)) = Unexpected t_b
  /\ transpile literal_text initial_lineno "cout << a << b;"
     = Some (Return "Syntax error at 'b' on line 1", 1%N).
Proof. split; vm_compute; reflexivity. Qed.

(** C5 on [cout << a + b;] and [cout << a + b << endl;]. *)
Lemma output_holds_one_expression_witness :
  (type t_cout = COUT /\ type t_lt = LT /\ type t_endl = ENDL
   /\ type t_semi = SEMICOLON /\ expr_shape [t_a; t_plus; t_b] = true
   /\ arith_shape [t_a; t_plus; t_b] = true)
  /\ exists e,
       parse_expression ([t_a; t_plus; t_b] ++ [t_semi]) = POk e [t_semi]
       /\ parse_statement 1 (t_cout :: t_lt :: t_lt :: [t_a; t_plus; t_b] ++ [t_semi])
          = POk (MkNode output [e] (VStr "")) []
       /\ (arith_shape [t_a; t_plus; t_b] = true ->
           parse_statement 1
             (t_cout :: t_lt :: t_lt
              :: [t_a; t_plus; t_b] ++ [t_lt; t_lt; t_endl; t_semi])
           = POk (MkNode output [e] (VStr "endl")) []).
Proof.
  split; [repeat split|].
  exact (output_holds_one_expression 0 t_cout t_lt t_lt t_lt t_lt t_endl t_semi
           [t_a; t_plus; t_b] []
           eq_refl eq_refl eq_refl eq_refl eq_refl eq_refl eq_refl eq_refl).
Defined.

(** C6 on [int x = 5;] and [int x;]. *)
Lemma declaration_binds_name_witness :
  ((type t_int = INT \/ type t_int = FLOAT) /\ type t_x = IDENTIFIER
   /\ type t_equals = EQUALS /\ type t_semi = SEMICOLON
   /\ parse_expression ([t_5] ++ [t_semi]) = POk (lit t_5) [t_semi])
  /\ (parse_statement 1 [t_int; t_x; t_equals; t_5; t_semi]
      = POk (MkNode declaration [lit t_5] (VStr "x")) []
      /\ generate_code literal_text (MkNode declaration [lit t_5] (VStr "x")) 1
         = Return ("    x = 5" ++ newline)%string)
  /\ (parse_statement 1 [t_int; t_x; t_semi]
      = POk (MkNode declaration [] (VStr "x")) []
      /\ generate_code literal_text (MkNode declaration [] (VStr "x")) 1
         = Return ("    x = 0" ++ newline)%string).
Proof.
  split; [repeat split; auto|].
  pose proof (declaration_binds_name literal_text 0 t_int t_int t_x t_equals t_semi
                [t_5] [] (lit t_5) 1
                (or_introl eq_refl) eq_refl eq_refl eq_refl eq_refl eq_refl)
    as (Ha & Hb & _).
  split; [exact Ha | exact Hb].
Defined.

(** C8 on [class A { int x; int y = 5; };]: the lexer gives the tokens of a
    class with the two fields, and both are set to [0]. *)
Lemma class_generates_initializer_only_witness :
  (type t_class = CLASS /\ type t_A = IDENTIFIER /\ type t_lbrace = LBRACE
   /\ type t_rbrace = RBRACE /\ type t_semi = SEMICOLON
   /\ [mkField t_int t_x [] t_semi;
       mkField t_int t_y [t_equals; t_5] t_semi] <> []
   /\ Forall field_ok [mkField t_int t_x [] t_semi;
                       mkField t_int t_y [t_equals; t_5] t_semi])
  /\ tokenize "class A { int x; int y = 5; };" initial_lineno
     = (class_tokens t_class t_A t_lbrace
          [mkField t_int t_x [] t_semi;
           mkField t_int t_y [t_equals; t_5] t_semi] t_rbrace t_semi,
        LexEof 1)
  /\ exists ds : list Node,
       parse_statement 1
         ([t_class; t_A; t_lbrace; t_int; t_x; t_semi;
           t_int; t_y; t_equals; t_5; t_semi; t_rbrace; t_semi] ++ [])
       = POk (MkNode class [MkNode declarations ds VNone] (VStr "A")) []
       /\ map node_value ds = [VStr "x"; VStr "y"]
       /\ generate_code literal_text
            (MkNode class [MkNode declarations ds VNone] (VStr "A")) 0
          = Return ("class A:" ++ newline
                    ++ "    def __init__(self):" ++ newline
                    ++ "        self.x = 0" ++ newline
                    ++ "        self.y = 0" ++ newline)%string.
Proof.
  assert (HF : Forall field_ok [mkField t_int t_x [] t_semi;
                                mkField t_int t_y [t_equals; t_5] t_semi]).
  { constructor; [|constructor; [|constructor]].
    - repeat split; reflexivity.
    - split; [reflexivity|]. split; [reflexivity|].
      split; [now left|]. split; reflexivity. }
  split; [|split].
  - repeat (split; [reflexivity|]). split; [discriminate | exact HF].
  - vm_compute. reflexivity.
  - exact (class_generates_initializer_only literal_text 0
             t_class t_A t_lbrace t_rbrace t_semi
             [mkField t_int t_x [] t_semi;
              mkField t_int t_y [t_equals; t_5] t_semi]
             [] 0 eq_refl eq_refl eq_refl eq_refl eq_refl
             ltac:(discriminate) HF).
Defined.

(** C9 on [#include <iostream>], a line feed, and [int x = 5;]. *)
Lemma includes_contribute_nothing_witness :
  without_includes ("#include <iostream>" ++ newline) newline
  /\ transpile literal_text initial_lineno
       (("#include <iostream>" ++ newline) ++ "int x = 5;")
     = transpile literal_text initial_lineno (newline ++ "int x = 5;")
  /\ transpile_body literal_text initial_lineno "int x = 5;"
     = Some (Return ("x = 5" ++ newline)%string, 1%N)
  /\ exists l',
       transpile_body literal_text initial_lineno
         (("#include <iostream>" ++ newline) ++ "int x = 5;")
       = Some (Return ("x = 5" ++ newline)%string, l')
       /\ transpile literal_text initial_lineno
            (("#include <iostream>" ++ newline) ++ "int x = 5;")
          = Some (Return ("x = 5" ++ newline)%string, l').
Proof.
  assert (H : without_includes ("#include <iostream>" ++ newline) newline).
  { apply (wi_directive "#include <iostream>" newline newline).
    - exists " ", "iostream". repeat split; try reflexivity. discriminate.
    - apply (wi_blank (ascii_of_nat 10) EmptyString EmptyString);
        [reflexivity | apply wi_end]. }
  pose proof (includes_contribute_nothing literal_text initial_lineno _ _
                "int x = 5;" H) as [H1 H2].
  split; [exact H | split; [exact H1 | split; [reflexivity|]]].
  exact (H2 _ _ eq_refl).
Defined.

(** C10 on the member [int x = 5;]. *)
Lemma field_initializer_ignored_witness :
  ((type t_int = INT \/ type t_int = FLOAT) /\ type t_x = IDENTIFIER
   /\ type t_equals = EQUALS /\ type t_semi = SEMICOLON
   /\ parse_expression ([t_5] ++ [t_semi]) = POk (lit t_5) [t_semi])
  /\ parse_member [t_int; t_x; t_equals; t_5; t_semi]
     = POk (MkNode declaration [lit t_5] (VStr "x")) []
  /\ generate_code literal_text
       (MkNode class
          [MkNode declarations [MkNode declaration [lit t_5] (VStr "x")] VNone]
          (VStr "A")) 0
     = generate_code literal_text
         (MkNode class
            [MkNode declarations [MkNode declaration [] (VStr "x")] VNone]
            (VStr "A")) 0.
Proof.
  split; [repeat split; auto|].
  pose proof (field_initializer_ignored literal_text t_int t_x t_equals t_semi
                [t_5] [] (lit t_5) [MkNode declaration [lit t_5] (VStr "x")]
                VNone (VStr "A") 0
                (or_introl eq_refl) eq_refl eq_refl eq_refl eq_refl)
    as (Ha & Hb & _).
  split; [exact Ha | exact Hb].
Defined.

End Samples.


(** * Further properties of the code *)

Section FurtherFacts.
Import Lexer Parser Shape Further LexerFacts ParserFacts StatementFacts.
Local Open Scope list_scope.
Variable float_str : string -> string.

(** ** Inputs without a statement *)

Lemma scan_blank_section (p q : string) :
  without_includes p q ->
  forall ln, exists incs,
    Forall (fun t => type t = INCLUDE) incs
    /\ scan 0 p ln = (incs, LexEof (ln + line_feeds q)).
Proof.
  induction 1 as [|c p q Hc _ IH|d p q Hd _ IH]; intros ln.
  - exists []. split; [constructor|]. cbn [scan line_feeds]. now rewrite N.add_0_r.
  - unfold is_blank in Hc. destruct (is_ignored c) eqn:Hi.
    + assert (Hn : is_newline c = false).
      { unfold is_ignored, is_newline in *.
        destruct (Nat.eqb (code c) 32) eqn:E32.
        - apply Nat.eqb_eq in E32. now rewrite E32.
        - simpl in Hi. apply Nat.eqb_eq in Hi. now rewrite Hi. }
      destruct (IH ln) as (incs & Hincs & Hp).
      exists incs. split; [assumption|].
      cbn [scan line_feeds]. rewrite Hi, Hn, Hp. now rewrite N.add_0_l.
    + simpl in Hc. pose proof Hc as Hc'. apply is_newline_char in Hc'. subst c.
      destruct (IH (ln + 1)%N) as (incs & Hincs & Hp).
      exists incs. split; [assumption|].
      rewrite scan_newline, Hp. cbn [line_feeds]. rewrite Hc.
      now rewrite N.add_assoc.
  - destruct (IH ln) as (incs & Hincs & Hp).
    exists (mkTok INCLUDE (VStr d) ln :: incs). split.
    + constructor; [reflexivity | assumption].
    + pose proof (scan_directive d p ln Hd) as Hs. rewrite Hp in Hs. exact Hs.
Qed.

(** X1.  An input that holds no statement (nothing at all, or only spaces,
    tabs, line feeds and include directives) is rejected with [Unexpected
    end of input], and the lexer's line counter has advanced by the line
    feeds outside the directives. *)
Theorem no_statement_is_unexpected_end (ln : N) (p q : string) :
  without_includes p q ->
  transpile float_str ln p
  = Some (Return "Unexpected end of input", (ln + line_feeds q)%N).
Proof.
  intros H. destruct (scan_blank_section p q H ln) as (incs & Hincs & Hp).
  unfold transpile, transpile_body, tokenize. rewrite Hp.
  pose proof (parse_includes_prefix incs [] Hincs) as Hparse.
  rewrite app_nil_r in Hparse. rewrite Hparse. reflexivity.
Qed.

(** ** The line counter *)

Lemma scan_counter_grows (s : string) :
  forall k ln, exists d, stop_line (snd (scan k s ln)) = (ln + d)%N.
Proof.
  induction s as [|c s IH]; intros k ln; cbn [scan].
  - exists 0%N. cbn. now rewrite N.add_0_r.
  - destruct k; [|apply IH].
    destruct (is_ignored c); [apply IH|].
    destruct (first_match master_rules (String c s)) as [[a m]|].
    2:{ exists 0%N. cbn. now rewrite N.add_0_r. }
    destruct a.
    + destruct (IH (pred (String.length m)) ln) as [d Hd].
      exists d. now destruct (scan _ s ln).
    + destruct (t_NUMBER_cases m ln) as [[v ->] | ->].
      * destruct (IH (pred (String.length m)) ln) as [d Hd].
        exists d. now destruct (scan _ s ln).
      * exists 0%N. cbn. now rewrite N.add_0_r.
    + destruct (IH (pred (String.length m)) (ln + N.of_nat (String.length m))%N)
        as [d Hd].
      exists (N.of_nat (String.length m) + d)%N. now rewrite N.add_assoc.
    + destruct (IH (pred (String.length m)) ln) as [d Hd].
      exists d. now destruct (scan _ s ln).
    + apply IH.
Qed.

Lemma transpile_body_relocate (ln d : N) (s text : string) (l : N) :
  transpile_body float_str ln s = Some (Return text, l) ->
  transpile_body float_str (ln + d) s = Some (Return text, (l + d)%N).
Proof.
  unfold transpile_body, tokenize. intros H.
  rewrite (RelocateFacts.scan_relocate d s 0 ln), RelocateFacts.parse_relocate.
  destruct (scan 0 s ln) as [toks stop]. cbn [fst snd].
  destruct (parse toks) as [ast r|t| |]; cbn [relocated]; try discriminate.
  - destruct stop as [l0|c l0|e l0]; cbn [relocate_stop]; try discriminate.
    inversion H as [[Hg Hl]]. now rewrite Hg.
  - destruct stop; discriminate.
Qed.

(** X2.  The text generated for an input does not depend on the lexer's
    line counter: when a call that starts at line [ln] returns generated
    text, a call that starts [d] lines later returns the same text and leaves
    the counter [d] lines later. *)
Theorem generated_text_ignores_line_counter (ln d : N) (s text : string) (l : N) :
  transpile_body float_str ln s = Some (Return text, l) ->
  transpile_body float_str (ln + d) s = Some (Return text, (l + d)%N)
  /\ transpile float_str (ln + d) s = Some (Return text, (l + d)%N).
Proof.
  intros H. pose proof (transpile_body_relocate ln d s text l H) as H'.
  split; [exact H'|]. unfold transpile. now rewrite H'.
Qed.

(** X3.  A valid input translates to the same text when [transpile] is
    called on it twice in a row, whatever the line counter was before. *)
Theorem valid_input_repeats (ln : N) (s text : string) (l : N) :
  transpile_body float_str ln s = Some (Return text, l) ->
  transpile_twice float_str ln s s = Some (Return text, Return text).
Proof.
  intros H.
  assert (exists d, l = (ln + d)%N) as [d ->].
  { destruct (scan_counter_grows s 0 ln) as [d Hd]. exists d.
    unfold transpile_body, tokenize in H.
    destruct (scan 0 s ln) as [toks stop]. cbn [snd] in Hd.
    destruct (parse toks); try discriminate; destruct stop; try discriminate;
      inversion H; subst; exact Hd. }
  pose proof (transpile_body_relocate ln d s text _ H) as H'.
  unfold transpile_twice, transpile. rewrite H, H'. reflexivity.
Qed.

(** X4.  The line named in a diagnostic is counted from where the lexer's
    counter stood when the call began: for a call that starts [d] lines
    later, a rejected token is reported [d] lines later, and so is an illegal
    character. *)
Theorem diagnostic_lines_follow_counter
  (ln d : N) (s : string) (toks : list LexToken) (stop : lex_stop) :
  tokenize s ln = (toks, stop) ->
  (forall t, parse toks = Unexpected t ->
     transpile float_str (ln + d) s
     = Some (Return ("Syntax error at '" ++ py_str float_str (value t)
                     ++ "' on line " ++ str_of_int (lineno t + d))%string,
             (lineno t + d)%N))
  /\ (forall c l, stop = LexIllegal c l ->
      (forall t, parse toks <> Unexpected t) ->
      transpile float_str (ln + d) s
      = Some (Return ("Illegal character '" ++ String c "" ++ "' at line "
                      ++ str_of_int (l + d))%string, (l + d)%N)).
Proof.
  intros Hlex. unfold transpile, transpile_body, tokenize in *.
  rewrite (RelocateFacts.scan_relocate d s 0 ln), RelocateFacts.parse_relocate.
  rewrite Hlex. cbn [fst snd]. split.
  - intros t Ht. rewrite Ht. reflexivity.
  - intros c l -> Hparse. pose proof (parse_fuel toks) as Hf.
    destruct (parse toks) as [ast r|t| |]; cbn [relocated relocate_stop];
      try reflexivity; [now specialize (Hparse t) | congruence].
Qed.

(** ** Words, comments and strings *)

Lemma ident_start_not_ignored (c : ascii) :
  is_ident_start c = true -> is_ignored c = false.
Proof.
  unfold is_ident_start, is_ignored, between.
  destruct (Nat.eqb (code c) 32) eqn:E1; [apply Nat.eqb_eq in E1; now rewrite E1|].
  destruct (Nat.eqb (code c) 9) eqn:E2; [apply Nat.eqb_eq in E2; now rewrite E2|].
  reflexivity.
Qed.

Lemma word_scan (c : ascii) (w s : string) (ln : N) :
  is_ident_start c = true -> all_chars is_ident_char w = true ->
  stops is_ident_char s ->
  scan 0 (String c w ++ s) ln
  = (mkTok (dict_get reserved (String c w) IDENTIFIER) (VStr (String c w)) ln
     :: fst (scan 0 s ln), snd (scan 0 s ln)).
Proof.
  intros Hc Hw Hs. cbn [String.append scan].
  rewrite (ident_start_not_ignored c Hc).
  rewrite master_rules_eq. cbn [first_match matcher act re_IDENTIFIER].
  rewrite Hc, (span_app is_ident_char w s Hw Hs).
  cbn [String.length pred]. rewrite scan_skip.
  unfold t_IDENTIFIER. now destruct (scan 0 s ln).
Qed.

(** X5.  A word (a letter or underscore followed by letters, digits and
    underscores) that is not followed by another word character is exactly
    one token: the keyword of the [reserved] table when the whole word is
    one, an identifier otherwise; its value is the word. *)
Theorem word_is_one_token (c : ascii) (w s : string) (ln : N) :
  is_ident_start c = true -> all_chars is_ident_char w = true ->
  stops is_ident_char s ->
  tokenize (String c w ++ s) ln
  = (mkTok (dict_get reserved (String c w) IDENTIFIER) (VStr (String c w)) ln
     :: fst (tokenize s ln), snd (tokenize s ln)).
Proof. apply word_scan. Qed.

(** X6.  The bare word [include] is in the keyword table with the token
    type of the include directive, so it is read and dropped like a
    directive: where it opens the input, [transpile] returns what it returns
    for the rest. *)
Theorem bare_include_is_a_directive (ln : N) (s : string) :
  stops is_ident_char s ->
  transpile float_str ln ("include" ++ s) = transpile float_str ln s.
Proof.
  intros Hs. unfold transpile, transpile_body, tokenize.
  change ("include" ++ s)%string with (String "i" "nclude" ++ s)%string.
  rewrite (word_scan "i" "nclude" s ln eq_refl eq_refl Hs).
  cbn [dict_get reserved String.eqb Ascii.eqb Bool.eqb].
  rewrite parse_include by reflexivity.
  now destruct (scan 0 s ln).
Qed.

Lemma strip_close_none (c : ascii) (x : string) :
  (Ascii.eqb c "*" && match x with
                      | String c' _ => Ascii.eqb c' "/"
                      | EmptyString => false
                      end) = false ->
  strip "*/" (String c x) = None.
Proof.
  intros H. cbn [strip]. rewrite (Ascii.eqb_sym "*" c).
  destruct (Ascii.eqb c "*"); [|reflexivity]. cbn [andb] in H.
  destruct x as [|d x']; [reflexivity|].
  rewrite (Ascii.eqb_sym "/" d), H. reflexivity.
Qed.

Lemma until_star_slash_step (c : ascii) (x : string) :
  strip "*/" (String c x) = None -> is_newline c = false ->
  until_star_slash (String c x)
  = match until_star_slash x with
    | Some (m, rest) => Some (String c m, rest)
    | None => None
    end.
Proof. intros H1 H2. cbn [until_star_slash]. now rewrite H1, H2. Qed.

Lemma no_close_head (c : ascii) (b x : string) :
  no_close (String c b) = true ->
  match x with String d _ => Ascii.eqb d "/" = false | EmptyString => True end ->
  is_newline c = false /\ no_close b = true
  /\ strip "*/" (String c (b ++ x)) = None.
Proof.
  cbn [no_close]. intros H Hx.
  apply andb_true_iff in H as [H Hb]. apply andb_true_iff in H as [Hnl Hc].
  apply negb_true_iff in Hnl, Hc. repeat split; try assumption.
  apply strip_close_none.
  destruct (Ascii.eqb c "*"); [|reflexivity]. cbn [andb] in *.
  destruct b as [|d b']; cbn [String.append]; [|assumption].
  destruct x; [reflexivity | assumption].
Qed.

Lemma until_star_slash_closes (b s : string) :
  no_close b = true ->
  until_star_slash (b ++ "*/" ++ s) = Some ((b ++ "*/")%string, s).
Proof.
  induction b as [|c b IH]; intros H.
  - reflexivity.
  - destruct (no_close_head c b ("*/" ++ s) H eq_refl) as (Hnl & Hb & Hstrip).
    cbn [String.append] in *.
    rewrite (until_star_slash_step c _ Hstrip Hnl). now rewrite (IH Hb).
Qed.

Lemma until_star_slash_line_end (b rest : string) :
  no_close b = true ->
  until_star_slash (b ++ String (ascii_of_nat 10) rest) = None.
Proof.
  induction b as [|c b IH]; intros H.
  - reflexivity.
  - destruct (no_close_head c b (String (ascii_of_nat 10) rest) H eq_refl)
      as (Hnl & Hb & Hstrip).
    cbn [String.append] in *.
    rewrite (until_star_slash_step c _ Hstrip Hnl). now rewrite (IH Hb).
Qed.

Lemma line_comment_match (b s : string) :
  all_chars (fun c => negb (is_newline c)) b = true ->
  stops (fun c => negb (is_newline c)) s ->
  first_match master_rules ("//" ++ b ++ s) = Some (Discard, ("//" ++ b)%string).
Proof.
  intros Hb Hs.
  assert (E : re_COMMENT ("//" ++ b ++ s) = Some (("//" ++ b)%string, s)).
  { unfold re_COMMENT.
    change (strip "//" ("//" ++ b ++ s)) with (Some (b ++ s)%string).
    cbv beta iota. now rewrite (span_app _ b s Hb Hs). }
  rewrite master_rules_eq. cbn [first_match matcher act].
  replace (re_IDENTIFIER _) with (@None (string * string)) by reflexivity.
  replace (re_NUMBER _) with (@None (string * string)) by reflexivity.
  replace (re_newline _) with (@None (string * string)) by reflexivity.
  replace (re_INCLUDE _) with (@None (string * string)) by reflexivity.
  now rewrite E.
Qed.

Lemma block_comment_match (b s : string) :
  no_close b = true ->
  first_match master_rules ("/*" ++ b ++ "*/" ++ s)
  = Some (Discard, ("/*" ++ b ++ "*/")%string).
Proof.
  intros Hb.
  assert (E : re_COMMENT ("/*" ++ b ++ "*/" ++ s)
              = Some (("/*" ++ b ++ "*/")%string, s)).
  { unfold re_COMMENT.
    change (strip "//" ("/*" ++ b ++ "*/" ++ s)) with (@None string).
    change (strip "/*" ("/*" ++ b ++ "*/" ++ s)) with (Some (b ++ "*/" ++ s)%string).
    cbv beta iota. now rewrite (until_star_slash_closes b s Hb). }
  rewrite master_rules_eq. cbn [first_match matcher act].
  replace (re_IDENTIFIER _) with (@None (string * string)) by reflexivity.
  replace (re_NUMBER _) with (@None (string * string)) by reflexivity.
  replace (re_newline _) with (@None (string * string)) by reflexivity.
  replace (re_INCLUDE _) with (@None (string * string)) by reflexivity.
  now rewrite E.
Qed.

(** The scan after a match that starts with the character [c]. *)
Lemma scan_match (c : ascii) (m' s : string) (ln : N) (a : action) :
  is_ignored c = false ->
  first_match master_rules (String c m' ++ s) = Some (a, String c m') ->
  scan 0 (String c m' ++ s) ln
  = match a with
    | Discard => scan 0 s ln
    | Newline => scan 0 s (ln + N.of_nat (String.length (String c m')))
    | Ident =>
        (t_IDENTIFIER (String c m') ln :: fst (scan 0 s ln), snd (scan 0 s ln))
    | Number =>
        match t_NUMBER (String c m') ln with
        | Return t => (t :: fst (scan 0 s ln), snd (scan 0 s ln))
        | Raise e => ([], LexRaise e ln)
        end
    | Emit t =>
        (mkTok t (VStr (String c m')) ln :: fst (scan 0 s ln), snd (scan 0 s ln))
    end.
Proof.
  intros Hi Hm. cbn [String.append scan] in *. rewrite Hi, Hm.
  cbn [String.length pred]. rewrite !scan_skip.
  destruct a; try reflexivity; try (now destruct (scan 0 s ln)).
Qed.

(** X7.  Comments yield no token and leave the line counter alone: a line
    comment runs to the end of its line, a block comment to the first [*/]
    on the same line. *)
Theorem comments_are_skipped (b s : string) (ln : N) :
  (all_chars (fun c => negb (is_newline c)) b = true ->
   stops (fun c => negb (is_newline c)) s ->
   tokenize ("//" ++ b ++ s) ln = tokenize s ln)
  /\ (no_close b = true ->
      tokenize ("/*" ++ b ++ "*/" ++ s) ln = tokenize s ln).
Proof.
  unfold tokenize. split.
  - intros Hb Hs. pose proof (line_comment_match b s Hb Hs) as Hm.
    change ("//" ++ b ++ s)%string with (String "/" ("/" ++ b) ++ s)%string in *.
    now rewrite (scan_match "/" _ s ln Discard eq_refl Hm).
  - intros Hb. pose proof (block_comment_match b s Hb) as Hm.
    replace ("/*" ++ b ++ "*/" ++ s)%string
      with (String "/" ("*" ++ b ++ "*/") ++ s)%string in *
      by (cbn [String.append]; now rewrite !string_app_assoc).
    now rewrite (scan_match "/" _ s ln Discard eq_refl Hm).
Qed.

(** X8.  A block comment is not recognised across a line feed: when the
    line ends before [*/], the two characters that open the comment are read
    as a division sign and a multiplication sign, and the text of the comment
    as program text. *)
Theorem block_comment_stops_at_line_end (b rest : string) (ln : N) :
  no_close b = true ->
  tokenize ("/*" ++ b ++ String (ascii_of_nat 10) rest) ln
  = (mkTok DIVIDE (VStr "/") ln :: mkTok MULTIPLY (VStr "*") ln
     :: fst (tokenize (b ++ String (ascii_of_nat 10) rest) ln),
     snd (tokenize (b ++ String (ascii_of_nat 10) rest) ln)).
Proof.
  intros Hb. unfold tokenize.
  set (x := (b ++ String (ascii_of_nat 10) rest)%string).
  assert (E : re_COMMENT ("/*" ++ x) = None).
  { unfold re_COMMENT.
    change (strip "//" ("/*" ++ x)) with (@None string).
    change (strip "/*" ("/*" ++ x)) with (Some x).
    cbv beta iota. unfold x. now rewrite (until_star_slash_line_end b rest Hb). }
  assert (Hm : first_match master_rules (String "/" "" ++ String "*" x)
               = Some (Emit DIVIDE, String "/" "")).
  { rewrite master_rules_eq. cbn [first_match matcher act].
    replace (re_IDENTIFIER _) with (@None (string * string)) by reflexivity.
    replace (re_NUMBER _) with (@None (string * string)) by reflexivity.
    replace (re_newline _) with (@None (string * string)) by reflexivity.
    replace (re_INCLUDE _) with (@None (string * string)) by reflexivity.
    change (String "/" "" ++ String "*" x)%string with ("/*" ++ x)%string.
    rewrite E. reflexivity. }
  assert (Hm2 : first_match master_rules (String "*" "" ++ x)
                = Some (Emit MULTIPLY, String "*" "")).
  { rewrite master_rules_eq. reflexivity. }
  change ("/*" ++ x)%string with (String "/" "" ++ String "*" x)%string.
  rewrite (scan_match "/" "" _ ln _ eq_refl Hm).
  change (String "*" x) with (String "*" "" ++ x)%string.
  rewrite (scan_match "*" "" _ ln _ eq_refl Hm2).
  reflexivity.
Qed.

Lemma dquote_not_ignored : is_ignored dquote = false.
Proof. reflexivity. Qed.

Lemma string_match (body s : string) :
  all_chars (fun c => negb (is_dquote c)) body = true ->
  first_match master_rules (quoted body ++ s) = Some (Emit STRING, quoted body).
Proof.
  intros Hb.
  assert (E : re_STRING (quoted body ++ s) = Some (quoted body, s)).
  { unfold re_STRING, quoted. cbn [String.append].
    change (is_dquote dquote) with true. cbv iota.
    rewrite string_app_assoc. cbn [String.append].
    now rewrite (span_app _ body (String dquote s) Hb eq_refl). }
  rewrite master_rules_eq. cbn [first_match matcher act].
  replace (re_IDENTIFIER _) with (@None (string * string)) by reflexivity.
  replace (re_NUMBER _) with (@None (string * string)) by reflexivity.
  replace (re_newline _) with (@None (string * string)) by reflexivity.
  replace (re_INCLUDE _) with (@None (string * string)) by reflexivity.
  replace (re_COMMENT _) with (@None (string * string)) by reflexivity.
  now rewrite E.
Qed.

(** X9.  A string literal runs from a double quote to the next one, line
    feeds included, and is one token whose value keeps the quotes.  The line
    feeds inside it are not counted: the scan goes on with the line counter
    it had before the literal. *)
Theorem string_literal_is_one_token (body s : string) (ln : N) :
  all_chars (fun c => negb (is_dquote c)) body = true ->
  tokenize (quoted body ++ s) ln
  = (mkTok STRING (VStr (quoted body)) ln :: fst (tokenize s ln),
     snd (tokenize s ln)).
Proof.
  intros Hb. unfold tokenize.
  exact (scan_match dquote _ s ln _ dquote_not_ignored (string_match body s Hb)).
Qed.

(** X10.  A double quote that is never closed is an illegal character. *)
Theorem unclosed_string_is_illegal (s : string) (ln : N) :
  all_chars (fun c => negb (is_dquote c)) s = true ->
  tokenize (String dquote s) ln = ([], LexIllegal dquote ln).
Proof.
  intros Hs. unfold tokenize. cbn [scan]. rewrite dquote_not_ignored.
  rewrite master_rules_eq. cbn [first_match matcher act].
  replace (re_IDENTIFIER _) with (@None (string * string)) by reflexivity.
  replace (re_NUMBER _) with (@None (string * string)) by reflexivity.
  replace (re_newline _) with (@None (string * string)) by reflexivity.
  replace (re_INCLUDE _) with (@None (string * string)) by reflexivity.
  replace (re_COMMENT _) with (@None (string * string)) by reflexivity.
  assert (E : re_STRING (String dquote s) = None).
  { unfold re_STRING. change (is_dquote dquote) with true. cbv iota.
    pose proof (span_app _ s EmptyString Hs I) as Hsp.
    rewrite string_app_nil_r in Hsp. now rewrite Hsp. }
  rewrite E. reflexivity.
Qed.

(** ** Characters that cannot start a token *)

Lemma first_match_some (rs : list rule) (s : string) :
  Exists (fun r => matcher r s <> None) rs -> first_match rs s <> None.
Proof.
  induction 1 as [r rs H|r rs _ IH]; cbn [first_match].
  - destruct (matcher r s) as [[m x]|]; [discriminate | congruence].
  - destruct (matcher r s) as [[m x]|]; [discriminate | assumption].
Qed.

Lemma re_NUMBER_digit (c : ascii) (s : string) :
  is_digit c = true -> re_NUMBER (String c s) <> None.
Proof.
  intros Hc. unfold re_NUMBER. cbn [span]. rewrite Hc.
  destruct (span is_digit s) as [a b].
  destruct b as [|d b']; [discriminate|].
  destruct (Ascii.eqb d ".") eqn:E.
  - apply Ascii.eqb_eq in E. subst d.
    destruct (span is_digit b') as [[|f fs] r]; discriminate.
  - destruct d as [[] [] [] [] [] [] [] []]; try discriminate E; discriminate.
Qed.

Lemma re_newline_feed (c : ascii) (s : string) :
  is_newline c = true -> re_newline (String c s) <> None.
Proof.
  intros Hc. unfold re_newline. cbn [span]. rewrite Hc.
  destruct (span is_newline s). discriminate.
Qed.

(** X11.  At a letter, an underscore, a digit, a line feed or one of the
    one-character operators and brackets some rule always matches.  At any
    other character except the number sign, the double quote, the ampersand
    and the bar (where it depends on what follows) and the skipped space and
    tab, no rule matches whatever follows, and the scan stops there with an
    illegal character; a carriage return is such a character. *)
Theorem token_start_characters (c : ascii) (s : string) (ln : N) :
  (always_starts_token c = true ->
   first_match master_rules (String c s) <> None)
  /\ (always_starts_token c = false -> may_start_token c = false ->
      is_ignored c = false ->
      tokenize (String c s) ln = ([], LexIllegal c ln))
  /\ tokenize (String (ascii_of_nat 13) s) ln = ([], LexIllegal (ascii_of_nat 13) ln).
Proof.
  split; [|split].
  - unfold always_starts_token. intros H.
    apply first_match_some. rewrite master_rules_eq.
    apply orb_true_iff in H as [H|H]; [apply orb_true_iff in H as [H|H];
      [apply orb_true_iff in H as [H|H]|]|].
    + apply Exists_cons_hd. cbn [matcher re_IDENTIFIER]. rewrite H.
      destruct (span is_ident_char s). discriminate.
    + apply Exists_cons_tl, Exists_cons_hd. now apply re_NUMBER_digit.
    + do 2 apply Exists_cons_tl. apply Exists_cons_hd. now apply re_newline_feed.
    + apply existsb_exists in H as (p & Hin & Hp).
      apply Ascii.eqb_eq in Hp. subst p.
      cbn [punctuation In] in Hin.
      repeat (destruct Hin as [<-|Hin];
              [repeat first [ (apply Exists_cons_hd; discriminate)
                            | apply Exists_cons_tl ] |]).
      contradiction.
  - unfold tokenize. cbn [scan]. rewrite master_rules_eq.
    destruct c as [[] [] [] [] [] [] [] []]; intros H1 H2 H3;
      vm_compute in H1, H2, H3;
      try discriminate H1; try discriminate H2; try discriminate H3;
      reflexivity.
  - reflexivity.
Qed.

(** ** Numbers *)

Lemma digit_not_ignored (c : ascii) : is_digit c = true -> is_ignored c = false.
Proof.
  unfold is_digit, is_ignored, between.
  destruct (Nat.eqb (code c) 32) eqn:E1; [apply Nat.eqb_eq in E1; now rewrite E1|].
  destruct (Nat.eqb (code c) 9) eqn:E2; [apply Nat.eqb_eq in E2; now rewrite E2|].
  reflexivity.
Qed.

Lemma digit_not_ident_start (c : ascii) :
  is_digit c = true -> is_ident_start c = false.
Proof.
  unfold is_digit, is_ident_start, between. intros H.
  apply andb_true_iff in H as [H1 H2].
  apply Nat.leb_le in H1, H2.
  repeat match goal with
         | |- context [Nat.leb ?a ?b] => destruct (Nat.leb_spec a b)
         | |- context [Nat.eqb ?a ?b] => destruct (Nat.eqb_spec a b)
         end; cbn; try reflexivity; lia.
Qed.

Lemma digits_no_dot (ds : string) : all_chars is_digit ds = true -> has_dot ds = false.
Proof.
  induction ds as [|c ds IH]; cbn [all_chars has_dot]; [reflexivity|].
  intros H. apply andb_true_iff in H as [Hc Hds]. rewrite (IH Hds).
  destruct (Ascii.eqb_spec c "."); [subst c; discriminate Hc | reflexivity].
Qed.

Lemma has_dot_app (a b : string) : has_dot (a ++ String "." b)%string = true.
Proof.
  induction a as [|c a IH]; simpl in *; [reflexivity|].
  rewrite IH. apply orb_true_r.
Qed.

Lemma number_ends_stops (s : string) : number_ends s -> stops is_digit s.
Proof. destruct s as [|c s]; cbn; [auto | now intros [H _]]. Qed.

Lemma integer_match (c : ascii) (ds s : string) :
  is_digit c = true -> all_chars is_digit ds = true -> number_ends s ->
  re_NUMBER (String c ds ++ s)%string = Some (String c ds, s).
Proof.
  intros Hc Hds Hs. unfold re_NUMBER.
  rewrite (span_app is_digit (String c ds) s);
    [| cbn [all_chars]; now rewrite Hc | now apply number_ends_stops].
  destruct s as [|d s']; [reflexivity|].
  destruct Hs as [Hd Hdot].
  destruct (Ascii.eqb_spec d ".") as [->|Hne].
  - specialize (Hdot eq_refl).
    destruct s' as [|e s'']; [reflexivity|]. cbn in Hdot.
    cbn [span]. now rewrite Hdot.
  - destruct d as [[] [] [] [] [] [] [] []]; try reflexivity. now elim Hne.
Qed.

Lemma float_match (c : ascii) (ds fs s : string) :
  is_digit c = true -> all_chars is_digit ds = true ->
  fs <> EmptyString -> all_chars is_digit fs = true -> stops is_digit s ->
  re_NUMBER (String c ds ++ "." ++ fs ++ s)%string
  = Some ((String c ds ++ "." ++ fs)%string, s).
Proof.
  intros Hc Hds Hne Hfs Hs. unfold re_NUMBER.
  rewrite (span_app is_digit (String c ds) ("." ++ fs ++ s)%string);
    [| cbn [all_chars]; now rewrite Hc | reflexivity].
  cbn [String.append]. rewrite (span_app is_digit fs s Hfs Hs).
  destruct fs as [|f fs]; [now elim Hne | reflexivity].
Qed.

Lemma number_scan (c : ascii) (m' s : string) (ln : N) :
  is_digit c = true ->
  re_NUMBER (String c m' ++ s)%string = Some (String c m', s) ->
  scan 0 (String c m' ++ s)%string ln
  = match t_NUMBER (String c m') ln with
    | Return t => (t :: fst (scan 0 s ln), snd (scan 0 s ln))
    | Raise e => ([], LexRaise e ln)
    end.
Proof.
  intros Hc Hm.
  apply (scan_match c m' s ln Number (digit_not_ignored c Hc)).
  rewrite master_rules_eq. cbn [first_match matcher act re_IDENTIFIER String.append].
  rewrite (digit_not_ident_start c Hc).
  cbn [String.append] in Hm. now rewrite Hm.
Qed.

(** [int] reads a digit string as [N.of_uint] reads the digits. *)
Lemma int_of_digits_acc (d : Decimal.uint) :
  forall p, int_of_digits (Npos p) (NilEmpty.string_of_uint d)
            = Npos (Pos.of_uint_acc d p).
Proof.
  induction d; intros p;
    cbn [NilEmpty.string_of_uint int_of_digits Pos.of_uint_acc];
    try reflexivity;
    match goal with
    | |- context [N.of_nat ?x] =>
        let v := eval vm_compute in (N.of_nat x) in change (N.of_nat x) with v
    end;
    match goal with
    | |- int_of_digits ?a _ = N.pos (Pos.of_uint_acc _ ?q) =>
        replace a with (N.pos q) by lia
    end; apply IHd.
Qed.

Lemma int_of_digits_uint (d : Decimal.uint) :
  int_of_digits 0 (NilEmpty.string_of_uint d) = N.of_uint d.
Proof.
  induction d; cbn [NilEmpty.string_of_uint int_of_digits N.of_uint Pos.of_uint];
    try reflexivity; try exact IHd;
    match goal with
    | |- int_of_digits ?a _ = _ =>
        let v := eval vm_compute in a in change a with v
    end; apply int_of_digits_acc.
Qed.

Lemma int_of_str (n : N) : int_of_digits 0 (str_of_int n) = n.
Proof. unfold str_of_int. rewrite int_of_digits_uint. apply DecimalN.Unsigned.of_to. Qed.

Lemma uint_digits (d : Decimal.uint) :
  all_chars is_digit (NilEmpty.string_of_uint d) = true.
Proof. induction d; cbn [NilEmpty.string_of_uint all_chars]; auto. Qed.

Lemma str_of_int_digits (n : N) :
  exists c ds, str_of_int n = String c ds
               /\ is_digit c = true /\ all_chars is_digit ds = true.
Proof.
  pose proof (uint_digits (N.to_uint n)) as H. unfold str_of_int.
  destruct (NilEmpty.string_of_uint (N.to_uint n)) as [|c ds] eqn:E.
  - exfalso. destruct n as [|p]; [discriminate E|].
    cbn [N.to_uint] in E. pose proof (DecimalPos.Unsigned.to_uint_nonnil p) as Hn.
    destruct (Pos.to_uint p); try discriminate E. now elim Hn.
  - cbn [all_chars] in H. apply andb_true_iff in H as [Hc Hds]. eauto.
Qed.

(** [int] of a digit string is at least what its first digits stand for. *)
Lemma int_of_digits_lower (s : string) :
  forall acc, (acc * 10 ^ N.of_nat (String.length s) <= int_of_digits acc s)%N.
Proof.
  induction s as [|c s IH]; intros acc; cbn [int_of_digits String.length].
  - change (N.of_nat 0) with 0%N. rewrite N.pow_0_r. lia.
  - rewrite Nat2N.inj_succ, N.pow_succ_r'.
    etransitivity; [|apply IH].
    apply N.mul_le_mono_r with (p := (10 ^ N.of_nat (String.length s))%N) (n := (acc * 10)%N)
      (m := (10 * acc + N.of_nat (code c - 48))%N) in IH || idtac.
    rewrite N.mul_assoc.
    apply N.mul_le_mono_r. lia.
Qed.

(** What [str] prints for an integer starts with a digit other than [0],
    unless the integer is [0]. *)
Lemma str_of_int_head (n : N) :
  str_of_int n = "0"
  \/ exists c ds, str_of_int n = String c ds
                 /\ (1 <= 10 * 0 + N.of_nat (code c - 48))%N.
Proof.
  unfold str_of_int.
  pose proof (DecimalN.Unsigned.to_of (N.to_uint n)) as H.
  rewrite DecimalN.Unsigned.of_to in H. unfold Decimal.unorm in H.
  destruct (Decimal.nzhead (N.to_uint n)) eqn:E;
    try (rewrite H; left; reflexivity);
    try (exfalso; exact (DecimalFacts.nzhead_nonzero _ _ E));
    rewrite H; right; cbn [NilEmpty.string_of_uint];
    eexists; eexists; (split; [reflexivity | vm_compute; discriminate]).
Qed.

(** An integer below [10 ^ 4300] prints in at most 4300 digits, which [int]
    reads back. *)
Lemma py_int_str_of_int (n : N) :
  (n < 10 ^ 4300)%N -> py_int (str_of_int n) = Return n.
Proof.
  intros Hn. unfold py_int. rewrite int_of_str.
  replace (Nat.ltb int_max_str_digits (String.length (str_of_int n))) with false;
    [reflexivity|].
  symmetry. apply Nat.ltb_ge.
  destruct (str_of_int_head n) as [-> | (c & ds & E & Hc)].
  - unfold int_max_str_digits. cbn [String.length]. lia.
  - pose proof (int_of_str n) as Hv. rewrite E in *.
    cbn [int_of_digits String.length] in *.
    pose proof (int_of_digits_lower ds (10 * 0 + N.of_nat (code c - 48))) as Hl.
    rewrite Hv in Hl.
    assert (Hp : (10 ^ N.of_nat (String.length ds) <= n)%N).
    { etransitivity; [|exact Hl].
      rewrite <- (N.mul_1_l (10 ^ _)) at 1. now apply N.mul_le_mono_r. }
    destruct (Nat.le_gt_cases 4300 (String.length ds)) as [Hge|Hlt].
    + exfalso. apply (N.lt_irrefl n).
      eapply N.lt_le_trans; [exact Hn|].
      etransitivity; [|exact Hp].
      apply N.pow_le_mono_r; [discriminate|].
      change 4300%N with (N.of_nat 4300). lia.
    + unfold int_max_str_digits. lia.
Qed.

(** X12.  The digits the generator prints for an integer are read back by
    the lexer as one [NUMBER] token that carries this integer: [int] undoes
    [str].  The integer is below [10 ^ 4300], the size up to which the
    interpreter converts between integers and digit strings, and the text
    does not go on with a digit or a fraction. *)
Theorem integer_literal_round_trip (n : N) (s : string) (ln : N) :
  (n < 10 ^ 4300)%N -> number_ends s ->
  tokenize (str_of_int n ++ s)%string ln
  = (mkTok NUMBER (VInt n) ln :: fst (tokenize s ln), snd (tokenize s ln)).
Proof.
  intros Hn Hs. destruct (str_of_int_digits n) as (c & ds & E & Hc & Hds).
  unfold tokenize. rewrite E.
  rewrite (number_scan c ds s ln Hc (integer_match c ds s Hc Hds Hs)).
  unfold t_NUMBER. rewrite digits_no_dot by (cbn [all_chars]; now rewrite Hc).
  now rewrite <- E, (py_int_str_of_int n Hn).
Qed.

(** X13.  Digits, a point and digits are one [NUMBER] token whose value is
    the float written by the whole text; a second point is not part of
    it. *)
Theorem float_literal_is_one_token (c : ascii) (ds fs s : string) (ln : N) :
  is_digit c = true -> all_chars is_digit ds = true ->
  fs <> EmptyString -> all_chars is_digit fs = true -> stops is_digit s ->
  tokenize (String c ds ++ "." ++ fs ++ s)%string ln
  = (mkTok NUMBER (VFloat (String c ds ++ "." ++ fs)%string) ln
     :: fst (tokenize s ln), snd (tokenize s ln)).
Proof.
  intros Hc Hds Hne Hfs Hs. unfold tokenize.
  pose proof (float_match c ds fs s Hc Hds Hne Hfs Hs) as Hm.
  replace (String c ds ++ "." ++ fs ++ s)%string
    with (String c (ds ++ "." ++ fs) ++ s)%string in *
    by (cbn [String.append]; now rewrite !string_app_assoc).
  replace (String c ds ++ "." ++ fs)%string
    with (String c (ds ++ "." ++ fs))%string in * by reflexivity.
  rewrite (number_scan c _ s ln Hc Hm).
  unfold t_NUMBER. cbn [has_dot]. cbn [String.append]. rewrite has_dot_app.
  now rewrite orb_true_r.
Qed.

(** ** Operators of two characters *)

Lemma single_ampersand (s : string) :
  stops (fun c => Ascii.eqb c "&") s ->
  first_match master_rules (String "&" s) = None.
Proof.
  intros Hs. rewrite master_rules_eq.
  destruct s as [|d s]; [reflexivity|]. cbn [stops] in Hs.
  destruct d as [[] [] [] [] [] [] [] []]; try discriminate Hs; reflexivity.
Qed.

Lemma single_bar (s : string) :
  stops (fun c => Ascii.eqb c "|") s ->
  first_match master_rules (String "|" s) = None.
Proof.
  intros Hs. rewrite master_rules_eq.
  destruct s as [|d s]; [reflexivity|]. cbn [stops] in Hs.
  destruct d as [[] [] [] [] [] [] [] []]; try discriminate Hs; reflexivity.
Qed.

(** X14.  The rules are tried longest pattern first, so the two-character
    operators win over their first character: [++] is one [PLUSPLUS] and
    [->] one [ARROW], never a [PLUS] or a [MINUS] first.  [&&] and [||] are
    one token each, and a single ampersand or bar is an illegal
    character. *)
Theorem two_character_operators (s : string) (ln : N) :
  tokenize ("++" ++ s)%string ln
  = (mkTok PLUSPLUS (VStr "++") ln :: fst (tokenize s ln), snd (tokenize s ln))
  /\ tokenize ("->" ++ s)%string ln
     = (mkTok ARROW (VStr "->") ln :: fst (tokenize s ln), snd (tokenize s ln))
  /\ tokenize ("&&" ++ s)%string ln
     = (mkTok AND (VStr "&&") ln :: fst (tokenize s ln), snd (tokenize s ln))
  /\ tokenize ("||" ++ s)%string ln
     = (mkTok OR (VStr "||") ln :: fst (tokenize s ln), snd (tokenize s ln))
  /\ (stops (fun c => Ascii.eqb c "&") s ->
      tokenize (String "&" s) ln = ([], LexIllegal "&" ln))
  /\ (stops (fun c => Ascii.eqb c "|") s ->
      tokenize (String "|" s) ln = ([], LexIllegal "|" ln)).
Proof.
  unfold tokenize. repeat split.
  - apply (scan_match "+" "+" s ln (Emit PLUSPLUS) eq_refl).
    rewrite master_rules_eq. reflexivity.
  - apply (scan_match "-" ">" s ln (Emit ARROW) eq_refl).
    rewrite master_rules_eq. reflexivity.
  - apply (scan_match "&" "&" s ln (Emit AND) eq_refl).
    rewrite master_rules_eq. reflexivity.
  - apply (scan_match "|" "|" s ln (Emit OR) eq_refl).
    rewrite master_rules_eq. reflexivity.
  - intros Hs. cbn [scan is_ignored]. change (is_ignored "&") with false.
    cbv iota. now rewrite single_ampersand.
  - intros Hs. cbn [scan is_ignored]. change (is_ignored "|") with false.
    cbv iota. now rewrite single_bar.
Qed.

(** ** The text of an expression *)

Local Abbreviation gen := (generate_code float_str).

Local Abbreviation stack_text := (Further.stack_text float_str).

Lemma binop_word (a : LexToken) :
  is_binop (type a) = true -> tok_ok a ->
  dict_lookup op_map (value a) = Return (word float_str a).
Proof.
  unfold tok_ok, word. destruct (type a); try discriminate; intros _ ->;
    reflexivity.
Qed.

Lemma reduce_text (f : frame) (st : list frame) (w : string) (e : Node) (te : string) :
  stack_text (f :: st) w -> gen e 0 = Return te ->
  exists w' , stack_text st w'
    /\ exists tr, gen (reduce f e) 0 = Return tr /\ (w' ++ tr = w ++ te)%string.
Proof.
  intros Hst He.
  inversion Hst as [|lhs op st' w0 tl Hst0 Hl Hb Hok|op st' w0 Hst0 Hty]; subst;
    cbn [reduce generate_code].
  - exists w0. split; [assumption|]. rewrite Hl. cbn [bind].
    rewrite (binop_word op Hb Hok). cbn [bind]. rewrite He. cbn [bind].
    eexists. split; [reflexivity|]. now rewrite !string_app_assoc.
  - exists w0. split; [assumption|]. rewrite He. cbn [bind].
    eexists. split; [reflexivity|]. now rewrite !string_app_assoc.
Qed.

Lemma reduce_for_text (a : toktype) (st : list frame) :
  forall w e te,
    stack_text st w -> gen e 0 = Return te ->
    exists w' tr,
      stack_text (fst (reduce_for a st e)) w'
      /\ gen (snd (reduce_for a st e)) 0 = Return tr
      /\ (w' ++ tr = w ++ te)%string.
Proof.
  induction st as [|f st IH]; intros w e te Hst He; cbn [reduce_for].
  - eauto.
  - destruct (resolves_to_reduce a f); [|cbn [fst snd]; eauto].
    destruct (reduce_text f st w e te Hst He) as (w' & Hst' & tr & Hr & Heq).
    destruct (IH w' (reduce f e) tr Hst' Hr) as (w'' & tr' & H1 & H2 & H3).
    exists w'', tr'. split; [assumption|]. split; [assumption|]. congruence.
Qed.

Lemma reduce_all_text (st : list frame) :
  forall w e te,
    stack_text st w -> gen e 0 = Return te ->
    gen (reduce_all st e) 0 = Return (w ++ te)%string.
Proof.
  induction st as [|f st IH]; intros w e te Hst He; cbn [reduce_all].
  - inversion Hst; subst. exact He.
  - destruct (reduce_text f st w e te Hst He) as (w' & Hst' & tr & Hr & Heq).
    rewrite (IH w' (reduce f e) tr Hst' Hr). now rewrite Heq.
Qed.

Lemma stack_text_empty (w : string) : stack_text [] w -> w = EmptyString.
Proof. now inversion 1. Qed.

Lemma spaced_cons (w : string) (ws : list string) :
  ws <> [] -> spaced (w :: ws) = (w ++ " " ++ spaced ws)%string.
Proof. destruct ws; [now intros H; elim H | reflexivity]. Qed.

Lemma operand_word (t : LexToken) :
  is_operand (type t) = true ->
  gen (MkNode literal [] (value t)) 0 = Return (word float_str t).
Proof. unfold word. destruct (type t); try discriminate; reflexivity. Qed.

Lemma parse_operand_text_upto (k : nat) :
  forall toks, length toks <= k ->
  forall out st w e r,
    Forall tok_ok toks -> stack_text st w ->
    parse_operand out st toks = POk e r ->
    exists pre,
      pre <> [] /\ toks = pre ++ r
      /\ gen e 0 = Return (w ++ spaced (map (word float_str) pre))%string.
Proof.
  induction k as [|k IH]; intros toks Hk out st w e r HF Hst H.
  - destruct toks; [discriminate | simpl in Hk; lia].
  - destruct toks as [|t rest]; [discriminate|].
    cbn [parse_operand] in H. simpl in Hk.
    apply Forall_cons_iff in HF as [Ht HF].
    destruct (is_operand (type t)) eqn:Eop.
    + assert (Hlit : gen (MkNode literal [] (value t)) 0 = Return (word float_str t))
        by now apply operand_word.
      assert (H' :
        match rest with
        | [] => NeedToken
        | a :: rest' =>
            if is_binop (type a) then
              let (stack', e') := reduce_for (type a) st (MkNode literal [] (value t)) in
              match out, type a, stack', rest' with
              | true, LT, [], [] => NeedToken
              | true, LT, [], b :: _ =>
                  if toktype_eqb (type b) LT then POk e' rest
                  else parse_operand out [FBin e' a] rest'
              | _, _, _, _ => parse_operand out (FBin e' a :: stack') rest'
              end
            else POk (reduce_all st (MkNode literal [] (value t))) rest
        end = POk e r).
      { destruct (type t); try discriminate Eop; exact H. }
      clear H. destruct rest as [|a rest']; [discriminate|].
      apply Forall_cons_iff in HF as [Ha HF].
      destruct (is_binop (type a)) eqn:Ebin.
      2:{ inversion H'; subst. exists [t]. split; [discriminate|].
          split; [reflexivity|]. cbn [map spaced].
          now apply reduce_all_text. }
      destruct (reduce_for_text (type a) st w _ _ Hst Hlit)
        as (w' & tr & Hst' & Hr & Heq).
      destruct (reduce_for (type a) st (MkNode literal [] (value t)))
        as [stack' e'] eqn:Ered. cbn [fst snd] in Hst', Hr.
      assert (Hnext : forall stk wk,
                 stack_text stk wk ->
                 parse_operand out stk rest' = POk e r ->
                 (wk = w ++ word float_str t ++ " " ++ word float_str a ++ " ")%string ->
                 exists pre, pre <> [] /\ t :: a :: rest' = pre ++ r
                   /\ gen e 0 = Return (w ++ spaced (map (word float_str) pre))%string).
      { intros stk wk Hstk Hp Hwk.
        destruct (IH rest' ltac:(simpl in Hk; lia) out stk wk e r HF Hstk Hp)
          as (pre & Hne & Hpre & Hg).
        exists (t :: a :: pre). split; [discriminate|].
        split; [cbn [app]; now rewrite Hpre|].
        rewrite Hg, Hwk. cbn [map].
        rewrite (spaced_cons (word float_str t)) by discriminate.
        rewrite (spaced_cons (word float_str a))
          by (destruct pre; [now elim Hne | discriminate]).
        now rewrite !string_app_assoc. }
      assert (Hpush : stack_text (FBin e' a :: stack')
                        (w' ++ tr ++ " " ++ word float_str a ++ " ")%string)
        by now constructor.
      assert (Hpush_eq :
                (w' ++ tr ++ " " ++ word float_str a ++ " "
                 = w ++ word float_str t ++ " " ++ word float_str a ++ " ")%string).
      { rewrite <- !string_app_assoc. now rewrite Heq. }
      destruct out.
      * destruct (type a) eqn:Eta;
          try (now apply (Hnext _ _ Hpush H' Hpush_eq)).
        destruct stack' as [|f stack''];
          [|now apply (Hnext _ _ Hpush H' Hpush_eq)].
        destruct rest' as [|b rest'']; [discriminate|].
        destruct (toktype_eqb (type b) LT).
        -- inversion H'; subst. exists [t]. split; [discriminate|].
           split; [reflexivity|]. cbn [map spaced].
           apply stack_text_empty in Hst'. subst w'. cbn [String.append] in Heq.
           now rewrite Hr, Heq.
        -- now apply (Hnext _ _ Hpush H' Hpush_eq).
      * assert (H'' : parse_operand false (FBin e' a :: stack') rest' = POk e r).
        { destruct (type a), stack', rest'; exact H'. }
        now apply (Hnext _ _ Hpush H'' Hpush_eq).
    + destruct (type t) eqn:Et; try discriminate H; try discriminate Eop.
      assert (Hpush : stack_text (FNot t :: st) (w ++ "not ")%string)
        by now constructor.
      destruct (IH rest ltac:(lia) out _ _ e r HF Hpush H)
        as (pre & Hne & Hpre & Hg).
      exists (t :: pre). split; [discriminate|].
      split; [cbn [app]; now rewrite Hpre|].
      rewrite Hg. cbn [map]. rewrite spaced_cons
        by (destruct pre; [now elim Hne | discriminate]).
      unfold word at 2. rewrite Et. now rewrite !string_app_assoc.
Qed.

Lemma reduce_kind (f : frame) (e : Node) : expression_node (reduce f e) = true.
Proof. now destruct f. Qed.

Lemma reduce_for_kind (a : toktype) (st : list frame) :
  forall e, expression_node e = true ->
            expression_node (snd (reduce_for a st e)) = true.
Proof.
  induction st as [|f st IH]; intros e He; cbn [reduce_for]; [assumption|].
  destruct (resolves_to_reduce a f); [|assumption]. apply IH, reduce_kind.
Qed.

Lemma reduce_all_kind (st : list frame) :
  forall e, expression_node e = true -> expression_node (reduce_all st e) = true.
Proof.
  induction st as [|f st IH]; intros e He; cbn [reduce_all]; [assumption|].
  apply IH, reduce_kind.
Qed.

Lemma parse_operand_kind_upto (k : nat) :
  forall toks, length toks <= k ->
  forall out st e r,
    parse_operand out st toks = POk e r -> expression_node e = true.
Proof.
  induction k as [|k IH]; intros toks Hk out st e r H.
  - destruct toks; [discriminate | simpl in Hk; lia].
  - destruct toks as [|t rest]; [discriminate|].
    cbn [parse_operand] in H. simpl in Hk.
    destruct (is_operand (type t)) eqn:Eop.
    + assert (H' :
        match rest with
        | [] => NeedToken
        | a :: rest' =>
            if is_binop (type a) then
              let (stack', e') := reduce_for (type a) st (MkNode literal [] (value t)) in
              match out, type a, stack', rest' with
              | true, LT, [], [] => NeedToken
              | true, LT, [], b :: _ =>
                  if toktype_eqb (type b) LT then POk e' rest
                  else parse_operand out [FBin e' a] rest'
              | _, _, _, _ => parse_operand out (FBin e' a :: stack') rest'
              end
            else POk (reduce_all st (MkNode literal [] (value t))) rest
        end = POk e r).
      { destruct (type t); try discriminate Eop; exact H. }
      clear H. destruct rest as [|a rest']; [discriminate|].
      destruct (is_binop (type a)).
      2:{ inversion H'; subst. now apply reduce_all_kind. }
      pose proof (reduce_for_kind (type a) st (MkNode literal [] (value t)) eq_refl)
        as Hk'.
      destruct (reduce_for (type a) st (MkNode literal [] (value t)))
        as [stack' e']. cbn [snd] in Hk'.
      assert (Hnext : forall stk, parse_operand out stk rest' = POk e r ->
                                  expression_node e = true).
      { intros stk Hp. apply (IH rest' ltac:(simpl in Hk; lia) out stk e r Hp). }
      destruct out.
      * destruct (type a); try (now apply (Hnext _ H')).
        destruct stack'; [|now apply (Hnext _ H')].
        destruct rest' as [|b rest'']; [discriminate|].
        destruct (toktype_eqb (type b) LT); [|now apply (Hnext _ H')].
        inversion H'; subst. assumption.
      * apply (Hnext (FBin e' a :: stack')).
        destruct (type a), stack', rest'; exact H'.
    + destruct (type t); try discriminate H; try discriminate Eop.
      apply (IH rest ltac:(lia) out _ e r H).
Qed.

Lemma gen_expression_node (e : Node) (indent : nat) :
  expression_node e = true -> gen e indent = gen e 0.
Proof.
  destruct e as [ty ch v]. unfold expression_node. cbn [node_type].
  destruct ty; try discriminate; reflexivity.
Qed.

(** X15.  The text generated for an expression is the sequence of its
    tokens, separated by single spaces, with [&&], [||] and [!] written
    [and], [or] and [not]: the generator writes no parentheses, so the
    grouping the parser chose does not show in the text. *)
Theorem expression_text_is_flat
  (out : bool) (toks : list LexToken) (e : Node) (r : list LexToken) :
  Forall tok_ok toks ->
  parse_operand out [] toks = POk e r ->
  exists pre,
    pre <> [] /\ toks = pre ++ r
    /\ forall indent,
         gen e indent = Return (spaced (map (word float_str) pre)).
Proof.
  intros HF H.
  destruct (parse_operand_text_upto (length toks) toks (Nat.le_refl _)
              out [] EmptyString e r HF (st_nil float_str) H) as (pre & Hne & Hpre & Hg).
  exists pre. split; [assumption|]. split; [assumption|].
  intros indent. cbn [String.append] in Hg. rewrite <- Hg.
  apply gen_expression_node.
  apply (parse_operand_kind_upto (length toks) toks (Nat.le_refl _) out [] e r H).
Qed.

(** ** The layout of the generated text *)

Local Abbreviation ok := (gen_ok float_str).
Local Abbreviation laid := (laid_out float_str).

Lemma prefix_app (p x : string) : String.prefix p (p ++ x)%string = true.
Proof.
  induction p as [|c p IH]; cbn [String.append String.prefix].
  - now destruct x.
  - destruct (ascii_dec c c) as [_|Hne]; [exact IH | now elim Hne].
Qed.

Lemma prefix_app_l (p a b : string) :
  String.prefix p a = true -> String.prefix p (a ++ b)%string = true.
Proof.
  revert a. induction p as [|c p IH]; intros a H.
  - now destruct (a ++ b)%string.
  - destruct a as [|d a]; [discriminate|]. cbn [String.append String.prefix] in *.
    destruct (ascii_dec c d); [now apply IH | discriminate].
Qed.

Lemma ends_app_nonempty (a b : string) :
  b <> EmptyString ->
  ends_with_newline (a ++ b)%string = ends_with_newline b.
Proof.
  intros Hb. induction a as [|c a IH]; [reflexivity|].
  cbn [String.append ends_with_newline]. rewrite IH.
  destruct (a ++ b)%string eqn:E; [|reflexivity].
  destruct a; [cbn in E; now elim Hb | discriminate].
Qed.

Lemma ends_app (a b : string) :
  ends_with_newline b = true -> ends_with_newline (a ++ b)%string = true.
Proof.
  intros H. rewrite ends_app_nonempty; [assumption|].
  intros ->. discriminate.
Qed.

Lemma ends_newline : ends_with_newline newline = true.
Proof. reflexivity. Qed.

Ltac ends_tac :=
  repeat match goal with
    | |- ends_with_newline (_ ++ _)%string = true => apply ends_app
    end.

(** Runs the generator on a node whose children are known to generate, and
    reads the two ends of the text. *)
Ltac lay_tac :=
  intros ?indent; cbn [generate_code];
  repeat match goal with
    | H : gen_ok _ ?e |- context [generate_code _ ?e ?i] =>
        let s := fresh "s" in let E := fresh "E" in
        destruct (H i) as [s E]; rewrite E; clear E; cbn [bind]
    | H : laid_out _ ?e |- context [generate_code _ ?e ?i] =>
        let s := fresh "s" in let E := fresh "E" in
        let Hp := fresh "Hp" in let He := fresh "He" in
        destruct (H i) as (s & E & Hp & He); rewrite E; clear E; cbn [bind]
    end;
  cbn [length Nat.ltb Nat.leb];
  eexists; split; [reflexivity|]; split;
  [ first [ apply prefix_app | apply prefix_app_l; apply prefix_app ]
  | ends_tac; first [ exact ends_newline | eassumption ] ].

Lemma lay_declaration_bare v : laid (MkNode declaration [] v).
Proof. lay_tac. Qed.

Lemma lay_declaration_init e v : ok e -> laid (MkNode declaration [e] v).
Proof. intros He. lay_tac. Qed.

Lemma lay_assignment e v : ok e -> laid (MkNode assignment [e] v).
Proof. intros He. lay_tac. Qed.

Lemma lay_increment v : laid (MkNode increment [] v).
Proof. lay_tac. Qed.

Lemma lay_output e v : ok e -> laid (MkNode output [e] v).
Proof. intros He. lay_tac. Qed.

Lemma lay_return e v : ok e -> laid (MkNode return_ [e] v).
Proof. intros He. lay_tac. Qed.

Lemma lay_if c b v : ok c -> laid b -> laid (MkNode if_ [c; b] v).
Proof. intros Hc Hb. lay_tac. Qed.

Lemma lay_if_else c b1 b2 v :
  ok c -> laid b1 -> laid b2 -> laid (MkNode if_ [c; b1; b2] v).
Proof. intros Hc Hb1 Hb2. lay_tac. Qed.

Lemma lay_for e1 e2 b v :
  ok e1 -> ok e2 -> laid b -> laid (MkNode for_ [e1; e2; b] v).
Proof. intros H1 H2 Hb. lay_tac. Qed.

Lemma lay_while c b v : ok c -> laid b -> laid (MkNode while [c; b] v).
Proof. intros Hc Hb. lay_tac. Qed.

Lemma lay_function ps b v :
  params_ok ps -> laid b -> laid (MkNode function [ps; b] v).
Proof.
  intros (l & -> & Hl) Hb. destruct (join_values_ok l Hl) as [text Ht].
  intros indent. cbn [generate_code node_children]. rewrite Ht. cbn [bind].
  destruct (Hb (indent + 1)) as (s & -> & _ & He). cbn [bind].
  eexists. split; [reflexivity|]. split; [apply prefix_app|].
  ends_tac. assumption.
Qed.

Lemma field_lines_ends (i : string) (ds : list Node) :
  ds <> [] -> ends_with_newline (field_lines float_str i ds) = true.
Proof.
  induction ds as [|d ds IH]; [now intros H; elim H|]. intros _.
  cbn [field_lines]. destruct ds as [|d' ds].
  - cbn [field_lines]. rewrite string_app_nil_r.
    ends_tac. exact ends_newline.
  - ends_tac. now apply IH.
Qed.

Lemma lay_class ds v : declarations_ok ds -> laid (MkNode class [ds] v).
Proof.
  intros (l & -> & Hne & _) indent. cbn [generate_code node_children].
  eexists. split; [reflexivity|]. split; [apply prefix_app|].
  ends_tac. now apply field_lines_ends.
Qed.

Lemma lay_sequence (l : list Node) (indent : nat) :
  l <> [] -> Forall laid l ->
  exists text,
    (fix each (l : list Node) : outcome string :=
       match l with
       | [] => Return EmptyString
       | child :: l' =>
           s <- generate_code float_str child indent ;;
           r <- each l' ;;
           Return (s ++ r)%string
       end) l = Return text
    /\ String.prefix (indentation indent) text = true
    /\ ends_with_newline text = true.
Proof.
  intros Hne Hl. induction Hl as [|c l Hc Hl IH]; [now elim Hne|].
  destruct (Hc indent) as (s & Hs & Hp & He). rewrite Hs. cbn [bind].
  destruct l as [|c' l'].
  - cbn [bind]. exists (s ++ "")%string. rewrite string_app_nil_r. auto.
  - destruct (IH ltac:(discriminate)) as (text & Ht & _ & He').
    rewrite Ht. cbn [bind]. eexists. split; [reflexivity|].
    split; [now apply prefix_app_l | now apply ends_app].
Qed.

Lemma lay_statements l v : l <> [] -> Forall laid l -> laid (MkNode statements l v).
Proof. intros Hne Hl indent. cbn [generate_code]. now apply lay_sequence. Qed.

Lemma lay_program l v : l <> [] -> Forall laid l -> laid (MkNode program l v).
Proof. intros Hne Hl indent. cbn [generate_code]. now apply lay_sequence. Qed.

(** Uses what is known of each step of a production, in order. *)
Ltac lay_steps :=
  repeat match goal with
    | H : pbind _ _ = POk _ _ |- _ =>
        let x := fresh "x" in let r := fresh "r" in let E := fresh "E" in
        apply pbind_ok in H as (x & r & E & H)
    | H : expect _ _ = POk _ _ |- _ =>
        let Heq := fresh "Heq" in let Hty := fresh "Hty" in
        apply expect_ok in H as [Heq Hty];
        first [ subst | inversion Heq; subst; clear Heq ]
    | H : Forall tok_ok (_ :: _) |- _ =>
        let Ht := fresh "Ht" in let Hr := fresh "Hr" in
        apply Forall_cons_iff in H as [Ht Hr]
    | H : parse_expression _ = POk _ _ |- _ => unfold parse_expression in H
    | HS : sound _ ?p, H : ?p ?x = POk _ _, HF : Forall tok_ok ?x |- _ =>
        let Hn := fresh "Hn" in let Hr := fresh "Hr" in
        apply (HS _ _ _ HF) in H as [Hn Hr]
    | H : parse_operand ?o [] ?x = POk _ _, HF : Forall tok_ok ?x |- _ =>
        let Hn := fresh "Hn" in let Hr := fresh "Hr" in
        apply (parse_operand_sound float_str o _ _ _ HF) in H as [Hn Hr]
    | H : POk _ _ = POk _ _ |- _ => inversion H; subst; clear H
    | H : match ?x with _ => _ end = POk _ _ |- _ =>
        let E := fresh "E" in destruct x eqn:E; try discriminate
    end.

Ltac lay_done :=
  split;
  [ first [ apply lay_declaration_bare | apply lay_declaration_init
          | apply lay_assignment | apply lay_increment | apply lay_output
          | apply lay_return | apply lay_if | apply lay_if_else | apply lay_for
          | apply lay_while | apply lay_function | apply lay_class ];
    assumption
  | first [ assumption | now constructor ] ].

Lemma parse_declaration_tail_lay id : sound laid (parse_declaration_tail id).
Proof.
  intros toks n r HF H. unfold parse_declaration_tail in H.
  lay_steps; lay_done.
Qed.

Lemma parse_float_declaration_lay : sound laid parse_float_declaration.
Proof.
  intros toks n r HF H. unfold parse_float_declaration in H.
  lay_steps; lay_done.
Qed.

Lemma parse_after_identifier_lay id : sound laid (parse_after_identifier id).
Proof.
  intros toks n r HF H. unfold parse_after_identifier in H.
  lay_steps; lay_done.
Qed.

Lemma parse_output_lay : sound laid parse_output.
Proof.
  intros toks n r HF H. unfold parse_output in H.
  lay_steps; lay_done.
Qed.

Lemma parse_return_lay : sound laid parse_return.
Proof.
  intros toks n r HF H. unfold parse_return in H.
  lay_steps; lay_done.
Qed.

Lemma parse_class_lay : sound laid parse_class.
Proof.
  intros toks n r HF H. split.
  - destruct (parse_class_shape float_str toks n r HF H) as (name & ds & -> & Hds).
    now apply lay_class.
  - eapply strict_suffix_Forall; [|exact HF].
    eapply parse_class_suffix; eassumption.
Qed.

Lemma parse_block_lay stmt : sound laid stmt -> sound laid (parse_block stmt).
Proof.
  intros Hstmt toks n r HF H. unfold parse_block in H.
  lay_steps.
  match goal with
  | H : parse_sequence _ _ _ _ = POk _ _ |- _ =>
      apply (parse_sequence_sound _ _ _ _ Hstmt _ _ _ Hr) in H
        as [(l & -> & Hne & Hl) Hr']
  end.
  lay_steps. split; [now apply lay_statements | assumption].
Qed.

Lemma parse_statement_with_lay block :
  sound laid block -> sound laid (parse_statement_with block).
Proof.
  intros Hblock toks n r HF H. unfold parse_statement_with in H.
  destruct toks as [|t0 r0]; [discriminate|].
  apply Forall_cons_iff in HF as [Ht0 HF].
  pose proof (parse_params_sound) as Hparams.
  pose proof parse_float_declaration_lay as Hfloat.
  pose proof parse_class_lay as Hclass.
  pose proof parse_output_lay as Hout.
  pose proof parse_return_lay as Hret.
  pose proof (parse_after_identifier_lay t0) as Hid.
  destruct (type t0); try discriminate; lay_steps; auto.
  all: try lay_done.
  all: try match goal with
         | H : parse_declaration_tail ?id ?x = POk _ _ |- _ =>
             eapply (parse_declaration_tail_lay id); [|exact H];
             repeat constructor; assumption
         end.
Qed.

Lemma parse_statement_lay (fuel : nat) : sound laid (parse_statement fuel).
Proof.
  induction fuel as [|fuel IH].
  - intros toks n r _ H. discriminate.
  - cbn [parse_statement]. now apply parse_statement_with_lay, parse_block_lay.
Qed.

Lemma parse_program_lay (fuel : nat) : sound laid (parse_program fuel).
Proof.
  intros toks n r HF H. unfold parse_program in H.
  pose proof (parse_sequence_sound statements starts_statement _ _
                (parse_statement_lay fuel)) as Hseq.
  apply pbind_ok in H as (p & r1 & E & H).
  assert (Hp : laid p).
  { destruct toks as [|t r0]; [discriminate|].
    destruct (toktype_eqb (type t) INCLUDE).
    - pose proof (parse_includes_suffix (t :: r0) []) as Hs.
      destruct (parse_includes [] (t :: r0)) as [p1 r2]. cbn [snd] in Hs.
      apply (suffix_Forall _ _ _ Hs) in HF.
      apply pbind_ok in E as (p2 & r3 & E & H').
      apply (Hseq _ _ _ HF) in E as [(l & -> & Hne & Hl) _].
      inversion H'; subst. apply lay_program; [discriminate|].
      constructor; [|constructor]. now apply lay_statements.
    - apply pbind_ok in E as (p2 & r3 & E & H').
      apply (Hseq _ _ _ HF) in E as [(l & -> & Hne & Hl) _].
      inversion H'; subst. apply lay_program; [discriminate|].
      constructor; [|constructor]. now apply lay_statements. }
  destruct r1; [|discriminate]. inversion H; subst. split; [assumption | constructor].
Qed.

(** X16.  Every statement the parser accepts is written, at every
    indentation, as text that starts with that indentation and ends with a
    line feed. *)
Theorem statement_text_is_laid_out
  (fuel : nat) (toks : list LexToken) (n : Node) (r : list LexToken) :
  Forall tok_ok toks ->
  parse_statement fuel toks = POk n r ->
  forall indent, exists text,
    generate_code float_str n indent = Return text
    /\ String.prefix (indentation indent) text = true
    /\ ends_with_newline text = true.
Proof. intros HF H. exact (proj1 (parse_statement_lay fuel toks n r HF H)). Qed.

Lemma app_nonempty (a b : string) :
  b <> EmptyString -> (a ++ b)%string <> EmptyString.
Proof. destruct a; [trivial | discriminate]. Qed.

Lemma digits_end (c : ascii) (ds : string) :
  is_digit c = true -> all_chars is_digit ds = true ->
  ends_with_newline (String c ds) = false.
Proof.
  revert c. induction ds as [|d ds IH]; intros c Hc Hds.
  - cbn [ends_with_newline].
    destruct c as [[] [] [] [] [] [] [] []]; try discriminate Hc; reflexivity.
  - cbn [all_chars] in Hds. apply andb_true_iff in Hds as [Hd Hds].
    change (ends_with_newline (String c (String d ds)))
      with (ends_with_newline (String d ds)). now apply IH.
Qed.

Lemma ends_with_number (a : string) (n : N) :
  ends_with_newline (a ++ str_of_int n)%string = false.
Proof.
  destruct (str_of_int_digits n) as (c & ds & -> & Hc & Hds).
  rewrite ends_app_nonempty by discriminate. now apply digits_end.
Qed.

Lemma syntax_error_at_end (t : LexToken) :
  ends_with_newline (syntax_error_at float_str t) = false.
Proof.
  unfold syntax_error_at. rewrite <- !string_app_assoc. apply ends_with_number.
Qed.

Lemma illegal_character_end (c : ascii) (l : N) :
  ends_with_newline (illegal_character c l) = false.
Proof.
  unfold illegal_character. rewrite <- !string_app_assoc. apply ends_with_number.
Qed.

Lemma translation_ends (ln : N) (s text : string) (l : N) :
  transpile_body float_str ln s = Some (Return text, l) ->
  ends_with_newline text = true.
Proof.
  unfold transpile_body, tokenize. intros H.
  pose proof (scan_tok_ok s 0 ln) as Hok.
  destruct (scan 0 s ln) as [toks stop]. cbn [fst] in Hok.
  destruct (parse toks) as [ast r|t| |] eqn:E; try discriminate;
    destruct stop as [l0|c l0|e l0]; try discriminate.
  unfold parse in E.
  destruct (proj1 (parse_program_lay _ toks ast r Hok E) 0) as (text' & Ht & _ & He).
  rewrite Ht in H. now inversion H; subst.
Qed.

Lemma diagnostic_ends (ln : N) (s msg : string) (l : N) :
  transpile_body float_str ln s = Some (Raise (SyntaxError msg), l) ->
  ends_with_newline msg = false.
Proof.
  unfold transpile_body, tokenize. intros H.
  pose proof (scan_tok_ok s 0 ln) as Hok.
  destruct (scan 0 s ln) as [toks stop] eqn:Es. cbn [fst] in Hok.
  destruct (parse toks) as [ast r|t| |] eqn:E; try discriminate.
  - destruct stop as [l0|c l0|e l0].
    + destruct (parse_sound float_str toks ast r Hok E 0) as [text Ht].
      rewrite Ht in H. discriminate.
    + inversion H; subst. apply illegal_character_end.
    + pose proof (scan_raises s 0 ln) as Hr. rewrite Es in Hr.
      rewrite (Hr e l0 eq_refl) in H. discriminate.
  - inversion H; subst. apply syntax_error_at_end.
  - destruct stop as [l0|c l0|e l0].
    + inversion H; subst. reflexivity.
    + inversion H; subst. apply illegal_character_end.
    + pose proof (scan_raises s 0 ln) as Hr. rewrite Es in Hr.
      rewrite (Hr e l0 eq_refl) in H. discriminate.
Qed.

(** X17.  The string [transpile] returns ends with a line feed exactly when
    it is generated text: a translation always ends with one, and none of
    the three diagnostics does. *)
Theorem result_ends_with_line_feed_iff_translated
  (ln : N) (s result : string) (l : N) :
  transpile float_str ln s = Some (Return result, l) ->
  (ends_with_newline result = true
   <-> transpile_body float_str ln s = Some (Return result, l)).
Proof.
  unfold transpile. intros H.
  destruct (transpile_body float_str ln s) as [[[text|e] l']|] eqn:E;
    [| |discriminate].
  - inversion H; subst. split; [reflexivity|]. intros _.
    now apply (translation_ends ln s result l).
  - destruct e as [msg| | | |]; try discriminate. inversion H; subst.
    rewrite (diagnostic_ends ln s result l E). split; discriminate.
Qed.

(** ** Tokens without a production *)

Lemma eats_refl (r : list LexToken) : eats r r.
Proof. exists []. split; [reflexivity | constructor]. Qed.

Lemma eats_step (t : LexToken) (toks r : list LexToken) :
  in_grammar (type t) = true -> eats toks r -> eats (t :: toks) r.
Proof.
  intros Ht (pre & -> & Hpre). exists (t :: pre).
  split; [reflexivity | now constructor].
Qed.

Lemma eats_trans (a b c : list LexToken) : eats a b -> eats b c -> eats a c.
Proof.
  intros (p1 & -> & H1) (p2 & -> & H2). exists (p1 ++ p2).
  split; [now rewrite app_assoc | now apply Forall_app].
Qed.

Lemma eats_all (toks : list LexToken) :
  eats toks [] -> Forall (fun t => in_grammar (type t) = true) toks.
Proof. intros (pre & -> & H). now rewrite app_nil_r. Qed.

Ltac eat_type :=
  match goal with
  | H : type ?t = _ |- in_grammar (type ?t) = true => rewrite H; reflexivity
  end.

(** Puts together what each step of a production has read. *)
Ltac eat_done :=
  repeat match goal with
    | |- eats ?x ?x => apply eats_refl
    | H : eats ?x ?y |- eats ?x ?r => apply (eats_trans x y r H)
    | |- eats (?t :: ?x) ?r => apply eats_step; [eat_type|]
    end.

Ltac eat_steps :=
  repeat match goal with
    | H : pbind _ _ = POk _ _ |- _ =>
        let x := fresh "x" in let r := fresh "r" in let E := fresh "E" in
        apply pbind_ok in H as (x & r & E & H)
    | H : expect _ _ = POk _ _ |- _ =>
        let Heq := fresh "Heq" in let Hty := fresh "Hty" in
        apply expect_ok in H as [Heq Hty];
        first [ subst | inversion Heq; subst; clear Heq ]
    | H : parse_expression _ = POk _ _ |- _ => unfold parse_expression in H
    | HS : eater ?p, H : ?p ?x = POk _ _ |- _ => apply HS in H
    | H : POk _ _ = POk _ _ |- _ => inversion H; subst; clear H
    | H : toktype_eqb _ _ = true |- _ => apply toktype_eqb_eq in H
    | H : match ?x with _ => _ end = POk _ _ |- _ =>
        let E := fresh "E" in destruct x eqn:E; try discriminate; try subst
    end.

Lemma parse_operand_eats_upto (k : nat) :
  forall toks, length toks <= k ->
  forall out st e r, parse_operand out st toks = POk e r -> eats toks r.
Proof.
  induction k as [|k IH]; intros toks Hk out st e r H.
  - destruct toks; [discriminate | simpl in Hk; lia].
  - destruct toks as [|t rest]; [discriminate|].
    cbn [parse_operand] in H. simpl in Hk.
    destruct (is_operand (type t)) eqn:Eop.
    + assert (Ht : in_grammar (type t) = true)
        by (destruct (type t); try discriminate Eop; reflexivity).
      assert (H' :
        match rest with
        | [] => NeedToken
        | a :: rest' =>
            if is_binop (type a) then
              let (stack', e') := reduce_for (type a) st (MkNode literal [] (value t)) in
              match out, type a, stack', rest' with
              | true, LT, [], [] => NeedToken
              | true, LT, [], b :: _ =>
                  if toktype_eqb (type b) LT then POk e' rest
                  else parse_operand out [FBin e' a] rest'
              | _, _, _, _ => parse_operand out (FBin e' a :: stack') rest'
              end
            else POk (reduce_all st (MkNode literal [] (value t))) rest
        end = POk e r).
      { destruct (type t); try discriminate Eop; exact H. }
      clear H. destruct rest as [|a rest']; [discriminate|].
      destruct (is_binop (type a)) eqn:Ebin.
      2:{ inversion H'; subst. apply eats_step; [assumption | apply eats_refl]. }
      assert (Ha : in_grammar (type a) = true)
        by (destruct (type a); try discriminate Ebin; reflexivity).
      destruct (reduce_for (type a) st (MkNode literal [] (value t)))
        as [stack' e'].
      assert (Hnext : forall stk, parse_operand out stk rest' = POk e r ->
                                  eats (t :: a :: rest') r).
      { intros stk Hp. do 2 (apply eats_step; [assumption|]).
        apply (IH rest' ltac:(simpl in Hk; lia) out stk e r Hp). }
      destruct out.
      * destruct (type a); try (now apply (Hnext _ H')).
        destruct stack'; [|now apply (Hnext _ H')].
        destruct rest' as [|b rest'']; [discriminate|].
        destruct (toktype_eqb (type b) LT); [|now apply (Hnext _ H')].
        inversion H'; subst. apply eats_step; [assumption | apply eats_refl].
      * apply (Hnext (FBin e' a :: stack')).
        destruct (type a), stack', rest'; exact H'.
    + destruct (type t) eqn:Et; try discriminate H; try discriminate Eop.
      apply eats_step; [now rewrite Et|].
      apply (IH rest ltac:(lia) out _ e r H).
Qed.

Lemma parse_operand_eats out st : eater (parse_operand out st).
Proof.
  intros toks n r H.
  apply (parse_operand_eats_upto (length toks) toks (Nat.le_refl _) out st n r H).
Qed.

Lemma parse_declaration_tail_eats id : eater (parse_declaration_tail id).
Proof.
  intros toks n r H. unfold parse_declaration_tail in H.
  pose proof (parse_operand_eats false []) as He.
  eat_steps; eat_done.
Qed.

Lemma parse_float_declaration_eats : eater parse_float_declaration.
Proof.
  intros toks n r H. unfold parse_float_declaration in H.
  pose proof (parse_operand_eats false []) as He.
  eat_steps; eat_done.
Qed.

Lemma parse_after_identifier_eats id : eater (parse_after_identifier id).
Proof.
  intros toks n r H. unfold parse_after_identifier in H.
  pose proof (parse_operand_eats false []) as He.
  eat_steps; eat_done.
Qed.

Lemma parse_output_eats : eater parse_output.
Proof.
  intros toks n r H. unfold parse_output in H.
  pose proof (parse_operand_eats true []) as He.
  eat_steps; eat_done.
Qed.

Lemma parse_return_eats : eater parse_return.
Proof.
  intros toks n r H. unfold parse_return in H.
  pose proof (parse_operand_eats false []) as He.
  eat_steps; eat_done.
Qed.

Lemma parse_more_params_eats_upto (k : nat) :
  forall toks, length toks <= k ->
  forall acc n r, parse_more_params acc toks = POk n r -> eats toks r.
Proof.
  induction k as [|k IH]; intros toks Hk acc n r H.
  - destruct toks; [|simpl in Hk; lia]. inversion H. apply eats_refl.
  - destruct toks as [|c r1]; [inversion H; apply eats_refl|].
    cbn [parse_more_params] in H. simpl in Hk.
    destruct (toktype_eqb (type c) COMMA) eqn:Ec.
    2:{ inversion H; subst. apply eats_refl. }
    destruct r1 as [|i r2]; [discriminate|].
    destruct (toktype_eqb (type i) INT) eqn:Ei; [|discriminate].
    destruct r2 as [|id r3]; [discriminate|].
    destruct (toktype_eqb (type id) IDENTIFIER) eqn:Eid; [|discriminate].
    apply toktype_eqb_eq in Ec, Ei, Eid.
    apply IH in H; [|simpl in Hk; lia]. eat_done.
Qed.

Lemma parse_more_params_eats acc : eater (parse_more_params acc).
Proof.
  intros toks n r H.
  apply (parse_more_params_eats_upto (length toks) toks (Nat.le_refl _) acc n r H).
Qed.

Lemma parse_params_eats : eater parse_params.
Proof.
  intros toks n r H. unfold parse_params in H.
  destruct toks as [|t r0]; [discriminate|].
  destruct (type t) eqn:Et; try discriminate.
  - apply pbind_ok in H as (id & r1 & E & H).
    apply expect_ok in E as [-> Hid].
    apply parse_more_params_eats in H. eat_done.
  - now apply parse_more_params_eats in H.
  - now apply parse_more_params_eats in H.
Qed.

Lemma parse_member_eats : eater parse_member.
Proof.
  intros toks n r H. unfold parse_member in H.
  destruct toks as [|t r0]; [discriminate|].
  destruct (type t) eqn:Et; try discriminate.
  - apply pbind_ok in H as (id & r1 & E & H).
    apply expect_ok in E as [-> Hid].
    apply parse_declaration_tail_eats in H. eat_done.
  - apply parse_float_declaration_eats in H. eat_done.
Qed.

Section SequenceEats.
Variables (kind : NodeType) (starts : toktype -> bool).
Variable item : list LexToken -> presult Node.
Hypothesis item_eats : eater item.

Lemma parse_more_eats (k : nat) :
  forall acc, eater (parse_more kind starts item k acc).
Proof.
  induction k as [|k IH]; intros acc toks n r H.
  - destruct toks as [|t toks']; cbn [parse_more] in H.
    + inversion H; subst. apply eats_refl.
    + destruct (starts (type t)); [discriminate|]. inversion H; subst.
      apply eats_refl.
  - destruct toks as [|t toks']; cbn [parse_more] in H.
    + inversion H; subst. apply eats_refl.
    + destruct (starts (type t)).
      2:{ inversion H; subst. apply eats_refl. }
      apply pbind_ok in H as (x & r1 & E & H).
      apply item_eats in E. apply IH in H. eat_done.
Qed.

Lemma parse_sequence_eats : eater (parse_sequence kind starts item).
Proof.
  intros toks n r H. unfold parse_sequence in H.
  apply pbind_ok in H as (x & r1 & E & H).
  apply item_eats in E. apply parse_more_eats in H. eat_done.
Qed.

End SequenceEats.

Lemma parse_class_eats : eater parse_class.
Proof.
  intros toks n r H. unfold parse_class, parse_declarations in H.
  pose proof (parse_sequence_eats declarations starts_member _ parse_member_eats)
    as Hds.
  eat_steps; eat_done.
Qed.

Lemma parse_block_eats stmt : eater stmt -> eater (parse_block stmt).
Proof.
  intros Hstmt toks n r H. unfold parse_block in H.
  pose proof (parse_sequence_eats statements starts_statement _ Hstmt) as Hseq.
  eat_steps; eat_done.
Qed.

Lemma parse_statement_with_eats block :
  eater block -> eater (parse_statement_with block).
Proof.
  intros Hblock toks n r H. unfold parse_statement_with in H.
  destruct toks as [|t0 r0]; [discriminate|].
  pose proof parse_params_eats as Hparams.
  pose proof parse_float_declaration_eats as Hfloat.
  pose proof parse_class_eats as Hclass.
  pose proof parse_output_eats as Hout.
  pose proof parse_return_eats as Hret.
  pose proof (parse_after_identifier_eats t0) as Hid.
  pose proof (parse_operand_eats false []) as He.
  destruct (type t0) eqn:Et0; try discriminate; eat_steps; try eat_done.
  all: try match goal with
         | H : parse_declaration_tail ?id ?x = POk _ _ |- _ =>
             apply (parse_declaration_tail_eats id) in H; eat_done
         end.
Qed.

Lemma parse_statement_eats (fuel : nat) : eater (parse_statement fuel).
Proof.
  induction fuel as [|fuel IH].
  - intros toks n r H. discriminate.
  - cbn [parse_statement]. now apply parse_statement_with_eats, parse_block_eats.
Qed.

Lemma parse_includes_eats (toks : list LexToken) :
  forall acc, eats toks (snd (parse_includes acc toks)).
Proof.
  induction toks as [|t r IH]; intros acc; cbn [parse_includes].
  - apply eats_refl.
  - destruct (toktype_eqb (type t) INCLUDE) eqn:E; [|apply eats_refl].
    apply toktype_eqb_eq in E. apply eats_step; [now rewrite E | apply IH].
Qed.

Lemma parse_program_eats_rest (fuel : nat) (toks r1 : list LexToken) (p : Node) :
  match toks with
  | [] => NeedToken
  | t :: _ =>
      if toktype_eqb (type t) INCLUDE then
        let (p1, r) := parse_includes [] toks in
        let* (p2, r) :=
          parse_sequence statements starts_statement (parse_statement fuel) r in
        POk (MkNode program [p2] VNone) r
      else
        let* (p1, r) :=
          parse_sequence statements starts_statement (parse_statement fuel) toks in
        POk (MkNode program [p1] VNone) r
  end = POk p r1 ->
  eats toks r1.
Proof.
  intros E.
  pose proof (parse_sequence_eats statements starts_statement _
                (parse_statement_eats fuel)) as Hseq.
  destruct toks as [|t r0]; [discriminate|].
  destruct (toktype_eqb (type t) INCLUDE).
  - pose proof (parse_includes_eats (t :: r0) []) as Hs.
    destruct (parse_includes [] (t :: r0)) as [p1 r2]. cbn [snd] in Hs.
    apply pbind_ok in E as (p2 & r3 & E & H').
    apply Hseq in E. inversion H'; subst. eat_done.
  - apply pbind_ok in E as (p2 & r3 & E & H').
    apply Hseq in E. inversion H'; subst. exact E.
Qed.

Lemma parse_program_eats (fuel : nat) : eater (parse_program fuel).
Proof.
  intros toks n r H. unfold parse_program in H.
  apply pbind_ok in H as (p & r1 & E & H).
  apply parse_program_eats_rest in E.
  destruct r1; [|discriminate]. now inversion H; subst.
Qed.

(** *** Inputs that end too early *)

Lemma eats_hungry (x r : list LexToken) :
  eats x r -> all_grammar r -> all_grammar x.
Proof. intros (pre & -> & Hp) Hr. now apply Forall_app. Qed.

Lemma all_grammar_cons (t : LexToken) (x : list LexToken) :
  in_grammar (type t) = true -> all_grammar x -> all_grammar (t :: x).
Proof. now constructor. Qed.

Lemma pbind_need {A B} (m : presult A) (k : A -> list LexToken -> presult B) :
  pbind m k = NeedToken ->
  m = NeedToken \/ exists a r, m = POk a r /\ k a r = NeedToken.
Proof.
  destruct m as [a r|t0| |]; cbn [pbind]; intros H; try discriminate.
  - right. exists a, r. auto.
  - now left.
Qed.

Lemma expect_need (ty : toktype) (toks : list LexToken) :
  expect ty toks = NeedToken -> toks = [].
Proof.
  destruct toks as [|t0 r]; cbn [expect]; [reflexivity|].
  destruct (toktype_eqb (type t0) ty); discriminate.
Qed.

Ltac need_steps :=
  repeat match goal with
    | H : pbind _ _ = NeedToken |- _ =>
        let x := fresh "x" in let r := fresh "r" in let E := fresh "E" in
        apply pbind_need in H as [H | (x & r & E & H)]
    | H : expect _ _ = NeedToken |- _ =>
        apply expect_need in H;
        first [ subst | discriminate H ]
    | H : expect _ _ = POk _ _ |- _ =>
        let Heq := fresh "Heq" in let Hty := fresh "Hty" in
        apply expect_ok in H as [Heq Hty];
        first [ subst | inversion Heq; subst; clear Heq ]
    | H : parse_expression _ = _ |- _ => unfold parse_expression in H
    | HS : eater ?p, H : ?p ?x = POk _ _ |- _ => apply HS in H
    | HS : hungry ?p, H : ?p ?x = NeedToken |- _ => apply HS in H
    | H : POk _ _ = NeedToken |- _ => discriminate H
    | H : Unexpected _ = NeedToken |- _ => discriminate H
    | H : match ?x with _ => _ end = NeedToken |- _ =>
        let E := fresh "E" in destruct x eqn:E; try discriminate; try subst
    end.

Ltac need_done :=
  solve [ repeat match goal with
            | H : all_grammar ?x |- all_grammar ?x => exact H
            | |- all_grammar [] => constructor
            | H : eats ?x ?r |- all_grammar ?x => apply (eats_hungry x r H)
            | |- all_grammar (?t :: ?x) => apply all_grammar_cons; [eat_type|]
            end ].

Lemma parse_operand_hungry_upto (k : nat) :
  forall toks, length toks <= k ->
  forall out st, parse_operand out st toks = NeedToken -> all_grammar toks.
Proof.
  induction k as [|k IH]; intros toks Hk out st H.
  - destruct toks; [constructor | simpl in Hk; lia].
  - destruct toks as [|t0 rest]; [constructor|].
    cbn [parse_operand] in H. simpl in Hk.
    destruct (is_operand (type t0)) eqn:Eop.
    + assert (Ht0 : in_grammar (type t0) = true)
        by (destruct (type t0); try discriminate Eop; reflexivity).
      assert (H' :
        match rest with
        | [] => NeedToken
        | a :: rest' =>
            if is_binop (type a) then
              let (stack', e') := reduce_for (type a) st (MkNode literal [] (value t0)) in
              match out, type a, stack', rest' with
              | true, LT, [], [] => NeedToken
              | true, LT, [], b :: _ =>
                  if toktype_eqb (type b) LT then POk e' rest
                  else parse_operand out [FBin e' a] rest'
              | _, _, _, _ => parse_operand out (FBin e' a :: stack') rest'
              end
            else POk (reduce_all st (MkNode literal [] (value t0))) rest
        end = NeedToken).
      { destruct (type t0); try discriminate Eop; exact H. }
      clear H. destruct rest as [|a rest']; [now repeat constructor|].
      destruct (is_binop (type a)) eqn:Eb; [|discriminate].
      assert (Ha : in_grammar (type a) = true)
        by (destruct (type a); try discriminate Eb; reflexivity).
      destruct (reduce_for (type a) st (MkNode literal [] (value t0)))
        as [stack' e'].
      assert (Hnext : forall stk, parse_operand out stk rest' = NeedToken ->
                                  all_grammar (t0 :: a :: rest')).
      { intros stk Hp. constructor; [exact Ht0|]. constructor; [exact Ha|].
        apply (IH rest' ltac:(simpl in Hk; lia) out stk Hp). }
      destruct out.
      * destruct (type a); try (now apply (Hnext _ H')).
        destruct stack'; [|now apply (Hnext _ H')].
        destruct rest' as [|b rest'']; [apply (Hnext []); reflexivity|].
        destruct (toktype_eqb (type b) LT); [discriminate|].
        now apply (Hnext _ H').
      * apply (Hnext (FBin e' a :: stack')).
        destruct (type a), stack', rest'; exact H'.
    + destruct (type t0) eqn:Et; try discriminate Eop; try discriminate H.
      constructor; [now rewrite Et|].
      apply (IH rest ltac:(lia) out _ H).
Qed.

Lemma parse_operand_hungry out st : hungry (parse_operand out st).
Proof.
  intros toks H.
  apply (parse_operand_hungry_upto (length toks) toks (Nat.le_refl _) out st H).
Qed.

Lemma parse_declaration_tail_hungry id : hungry (parse_declaration_tail id).
Proof.
  intros toks H. unfold parse_declaration_tail in H.
  pose proof (parse_operand_hungry false []) as Hb.
  pose proof (parse_operand_eats false []) as He.
  need_steps; need_done.
Qed.

Lemma parse_float_declaration_hungry : hungry parse_float_declaration.
Proof.
  intros toks H. unfold parse_float_declaration in H.
  pose proof (parse_operand_hungry false []) as Hb.
  pose proof (parse_operand_eats false []) as He.
  need_steps; need_done.
Qed.

Lemma parse_after_identifier_hungry id : hungry (parse_after_identifier id).
Proof.
  intros toks H. unfold parse_after_identifier in H.
  pose proof (parse_operand_hungry false []) as Hb.
  pose proof (parse_operand_eats false []) as He.
  need_steps; need_done.
Qed.

Lemma parse_output_hungry : hungry parse_output.
Proof.
  intros toks H. unfold parse_output in H.
  pose proof (parse_operand_hungry true []) as Hb.
  pose proof (parse_operand_eats true []) as He.
  need_steps; need_done.
Qed.

Lemma parse_return_hungry : hungry parse_return.
Proof.
  intros toks H. unfold parse_return in H.
  pose proof (parse_operand_hungry false []) as Hb.
  pose proof (parse_operand_eats false []) as He.
  need_steps; need_done.
Qed.

Lemma parse_more_params_hungry_upto (k : nat) :
  forall toks, length toks <= k ->
  forall acc, parse_more_params acc toks = NeedToken -> all_grammar toks.
Proof.
  induction k as [|k IH]; intros toks Hk acc H.
  - destruct toks; [constructor | simpl in Hk; lia].
  - destruct toks as [|c r1]; [constructor|].
    cbn [parse_more_params] in H. simpl in Hk.
    destruct (toktype_eqb (type c) COMMA) eqn:Ec; [|discriminate].
    apply toktype_eqb_eq in Ec.
    destruct r1 as [|i r2]; [constructor; [now rewrite Ec | constructor]|].
    destruct (toktype_eqb (type i) INT) eqn:Ei; [|discriminate].
    apply toktype_eqb_eq in Ei.
    destruct r2 as [|id r3];
      [repeat (constructor; [first [now rewrite Ec | now rewrite Ei]|]); constructor|].
    destruct (toktype_eqb (type id) IDENTIFIER) eqn:Eid; [|discriminate].
    apply toktype_eqb_eq in Eid.
    constructor; [now rewrite Ec|]. constructor; [now rewrite Ei|].
    constructor; [now rewrite Eid|].
    apply (IH r3 ltac:(simpl in Hk; lia) _ H).
Qed.

Lemma parse_more_params_hungry acc : hungry (parse_more_params acc).
Proof.
  intros toks H.
  apply (parse_more_params_hungry_upto (length toks) toks (Nat.le_refl _) acc H).
Qed.

Lemma parse_params_hungry : hungry parse_params.
Proof.
  intros toks H. unfold parse_params in H.
  destruct toks as [|t0 r0]; [constructor|].
  destruct (type t0) eqn:Et; try discriminate H.
  - apply pbind_need in H as [H | (id & r1 & E & H)].
    + apply expect_need in H as ->. constructor; [now rewrite Et | constructor].
    + apply expect_ok in E as [-> Hid].
      apply parse_more_params_hungry in H.
      constructor; [now rewrite Et|]. constructor; [now rewrite Hid | exact H].
  - now apply parse_more_params_hungry in H.
  - now apply parse_more_params_hungry in H.
Qed.

Lemma parse_member_hungry : hungry parse_member.
Proof.
  intros toks H. unfold parse_member in H.
  destruct toks as [|t0 r0]; [constructor|].
  destruct (type t0) eqn:Et; try discriminate H.
  - apply pbind_need in H as [H | (id & r1 & E & H)].
    + apply expect_need in H as ->. constructor; [now rewrite Et | constructor].
    + apply expect_ok in E as [-> Hid].
      apply parse_declaration_tail_hungry in H.
      constructor; [now rewrite Et|]. constructor; [now rewrite Hid | exact H].
  - apply parse_float_declaration_hungry in H. constructor; [now rewrite Et | exact H].
Qed.

Section SequenceHungry.
Variables (kind : NodeType) (starts : toktype -> bool).
Variable item : list LexToken -> presult Node.
Hypothesis item_eats : eater item.
Hypothesis item_hungry : hungry item.

Lemma parse_more_hungry (k : nat) :
  forall acc, hungry (parse_more kind starts item k acc).
Proof.
  induction k as [|k IH]; intros acc toks H.
  - destruct toks as [|t0 toks']; cbn [parse_more] in H; [constructor|].
    destruct (starts (type t0)); discriminate.
  - destruct toks as [|t0 toks']; cbn [parse_more] in H; [constructor|].
    destruct (starts (type t0)); [|discriminate].
    apply pbind_need in H as [H | (x & r1 & E & H)].
    + now apply item_hungry in H.
    + apply item_eats in E. apply IH in H. now apply (eats_hungry _ _ E).
Qed.

Lemma parse_sequence_hungry : hungry (parse_sequence kind starts item).
Proof.
  intros toks H. unfold parse_sequence in H.
  apply pbind_need in H as [H | (x & r1 & E & H)].
  - now apply item_hungry in H.
  - apply item_eats in E. apply parse_more_hungry in H.
    now apply (eats_hungry _ _ E).
Qed.

End SequenceHungry.

Lemma parse_class_hungry : hungry parse_class.
Proof.
  intros toks H. unfold parse_class, parse_declarations in H.
  pose proof (parse_sequence_eats declarations starts_member _ parse_member_eats)
    as Hds.
  pose proof (parse_sequence_hungry declarations starts_member _
                parse_member_eats parse_member_hungry) as Hdb.
  need_steps; need_done.
Qed.

Lemma parse_block_hungry stmt :
  eater stmt -> hungry stmt -> hungry (parse_block stmt).
Proof.
  intros Hse Hsb toks H. unfold parse_block in H.
  pose proof (parse_sequence_eats statements starts_statement _ Hse) as Hseq.
  pose proof (parse_sequence_hungry statements starts_statement _ Hse Hsb)
    as Hseqb.
  need_steps; need_done.
Qed.

Lemma parse_statement_with_hungry block :
  eater block -> hungry block -> hungry (parse_statement_with block).
Proof.
  intros Hbe Hbb toks H. unfold parse_statement_with in H.
  destruct toks as [|t0 r0]; [constructor|].
  pose proof parse_params_eats as Hparams.
  pose proof parse_params_hungry as Hparamsb.
  pose proof parse_float_declaration_hungry as Hfloat.
  pose proof parse_class_hungry as Hclass.
  pose proof parse_output_hungry as Hout.
  pose proof parse_return_hungry as Hret.
  pose proof (parse_after_identifier_hungry t0) as Hid.
  pose proof (parse_operand_eats false []) as He.
  pose proof (parse_operand_hungry false []) as Heb.
  destruct (type t0) eqn:Et0; try discriminate H;
    need_steps; try need_done.
  all: repeat match goal with
         | H : toktype_eqb _ _ = true |- _ => apply toktype_eqb_eq in H
         | H : parse_declaration_tail ?id ?x = NeedToken |- _ =>
             apply (parse_declaration_tail_hungry id) in H
         end; need_done.
Qed.

Lemma parse_statement_hungry (fuel : nat) : hungry (parse_statement fuel).
Proof.
  induction fuel as [|fuel IH].
  - intros toks H. discriminate.
  - cbn [parse_statement].
    apply parse_statement_with_hungry;
      [apply parse_block_eats, parse_statement_eats
      | apply parse_block_hungry; [apply parse_statement_eats | exact IH]].
Qed.

Lemma parse_program_hungry (fuel : nat) : hungry (parse_program fuel).
Proof.
  intros toks H. unfold parse_program in H.
  pose proof (parse_sequence_eats statements starts_statement _
                (parse_statement_eats fuel)) as Hseq.
  pose proof (parse_sequence_hungry statements starts_statement _
                (parse_statement_eats fuel) (parse_statement_hungry fuel))
    as Hseqb.
  apply pbind_need in H as [H | (p & r1 & E & H)].
  - destruct toks as [|t0 r0]; [constructor|].
    destruct (toktype_eqb (type t0) INCLUDE).
    + pose proof (parse_includes_eats (t0 :: r0) []) as Hs.
      destruct (parse_includes [] (t0 :: r0)) as [p1 r2]. cbn [snd] in Hs.
      apply pbind_need in H as [H | (p2 & r3 & E & H)]; [|discriminate].
      apply Hseqb in H. now apply (eats_hungry _ _ Hs).
    + apply pbind_need in H as [H | (p2 & r3 & E & H)]; [|discriminate].
      now apply Hseqb in H.
  - destruct r1 as [|t1 r1]; discriminate.
Qed.

(** X18.  Eight token types of the lexer occur in no production: [COLON],
    [ARROW], [LBRACKET], [RBRACKET] and the keywords [string], [iostream],
    [namespace] and [std].  An input in which the lexer finds one of them is
    never translated: the call ends with a diagnostic. *)
Theorem tokens_without_production_are_rejected
  (ln : N) (s : string) (toks : list LexToken) (stop : lex_stop) :
  tokenize s ln = (toks, stop) ->
  Exists (fun t => in_grammar (type t) = false) toks ->
  (forall ast r, parse toks <> POk ast r)
  /\ exists msg l,
       transpile_body float_str ln s = Some (Raise (SyntaxError msg), l).
Proof.
  intros Hlex Hex.
  assert (Hno : forall ast r, parse toks <> POk ast r).
  { intros ast r H. pose proof H as H'. unfold parse in H'.
    assert (r = []) as ->.
    { unfold parse_program in H'. apply pbind_ok in H' as (p & r1 & _ & H').
      destruct r1; [now inversion H' | discriminate]. }
    apply parse_program_eats, eats_all in H'.
    apply Exists_exists in Hex as (t & Hin & Ht).
    rewrite Forall_forall in H'. specialize (H' t Hin). congruence. }
  split; [exact Hno|].
  unfold transpile_body. rewrite Hlex.
  pose proof (parse_fuel toks) as Hf.
  destruct (parse toks) as [ast r|t| |] eqn:E.
  - now elim (Hno ast r).
  - eauto.
  - destruct stop as [l0|c l0|e l0]; eauto.
    exfalso. unfold parse in E. apply parse_program_hungry in E.
    apply Exists_exists in Hex as (t & Hin & Ht).
    unfold all_grammar in E. rewrite Forall_forall in E.
    specialize (E t Hin). congruence.
  - congruence.
Qed.

(** ** Edges of the grammar *)

Lemma toktype_eqb_refl (a : toktype) : toktype_eqb a a = true.
Proof. now apply toktype_eqb_eq. Qed.

Lemma toktype_eqb_neq (a b : toktype) : a <> b -> toktype_eqb a b = false.
Proof.
  intros H. destruct (toktype_eqb a b) eqn:E; [|reflexivity].
  apply toktype_eqb_eq in E. now elim H.
Qed.

(** X19.  The empty parameter list is reduced in front of a comma as well
    as in front of the closing parenthesis, so a parameter list may begin
    with a comma: [int f(, int a) ...] is read as [int f(int a) ...] is. *)
Theorem parameter_list_may_start_with_comma
  (fuel : nat) (kw name lp c i id : LexToken) (r : list LexToken) :
  type kw = INT -> type name = IDENTIFIER -> type lp = LPAREN ->
  type c = COMMA -> type i = INT -> type id = IDENTIFIER ->
  parse_params (c :: i :: id :: r) = parse_params (i :: id :: r)
  /\ parse_statement (S fuel) (kw :: name :: lp :: c :: i :: id :: r)
     = parse_statement (S fuel) (kw :: name :: lp :: i :: id :: r).
Proof.
  intros Hkw Hname Hlp Hc Hi Hid.
  assert (Hp : parse_params (c :: i :: id :: r) = parse_params (i :: id :: r)).
  { unfold parse_params. rewrite Hc, Hi. cbn [parse_more_params].
    rewrite Hc, Hi, Hid. cbn [toktype_eqb expect pbind app].
    rewrite Hid. reflexivity. }
  split; [exact Hp|].
  cbn [parse_statement parse_statement_with]. rewrite Hkw.
  cbn [expect]. rewrite Hname. cbn [toktype_eqb pbind]. rewrite Hlp.
  cbn [toktype_eqb]. now rewrite Hp.
Qed.

(** X20.  A [float] declaration has no form without an initializer and
    there is no function that returns [float]: after [float] and a name,
    any token but [=] is a syntax error at that token, in a statement and in
    a class body alike. *)
Theorem float_needs_initializer
  (fuel : nat) (kw id t : LexToken) (r : list LexToken) :
  type kw = FLOAT -> type id = IDENTIFIER -> type t <> EQUALS ->
  parse_statement (S fuel) (kw :: id :: t :: r) = Unexpected t
  /\ parse_member (kw :: id :: t :: r) = Unexpected t.
Proof.
  intros Hkw Hid Ht. apply toktype_eqb_neq in Ht.
  cbn [parse_statement parse_statement_with parse_member]. rewrite Hkw.
  unfold parse_float_declaration. cbn [expect]. rewrite Hid.
  cbn [toktype_eqb pbind expect]. rewrite Ht. now split.
Qed.

Lemma statement_needs_start (fuel : nat) (t : LexToken) (r : list LexToken) :
  starts_statement (type t) = false ->
  parse_statement (S fuel) (t :: r) = Unexpected t.
Proof.
  intros Ht. cbn [parse_statement parse_statement_with].
  destruct (type t); try discriminate Ht; reflexivity.
Qed.

(** X21.  A block holds at least one statement and a class body at least
    one member: after the opening brace, a token that starts no statement
    (the closing brace of [{ }], for one) is a syntax error at that token.
    So [int main() { }] is rejected at its closing brace. *)
Theorem empty_body_is_rejected
  (fuel : nat) (lb t : LexToken) (r : list LexToken) :
  type lb = LBRACE ->
  (starts_statement (type t) = false ->
   parse_block (parse_statement (S fuel)) (lb :: t :: r) = Unexpected t
   /\ forall kw name lp rp,
        type kw = INT -> type name = IDENTIFIER ->
        type lp = LPAREN -> type rp = RPAREN ->
        parse_statement (S (S fuel)) (kw :: name :: lp :: rp :: lb :: t :: r)
        = Unexpected t)
  /\ (starts_member (type t) = false ->
      forall kw name,
        type kw = CLASS -> type name = IDENTIFIER ->
        parse_statement (S fuel) (kw :: name :: lb :: t :: r) = Unexpected t).
Proof.
  intros Hlb. split.
  - intros Ht.
    assert (Hb : parse_block (parse_statement (S fuel)) (lb :: t :: r)
                 = Unexpected t).
    { unfold parse_block. cbn [expect]. rewrite Hlb. cbn [toktype_eqb pbind].
      unfold parse_sequence. now rewrite statement_needs_start. }
    split; [exact Hb|].
    intros kw name lp rp Hkw Hname Hlp Hrp.
    change (parse_statement (S (S fuel)))
      with (parse_statement_with (parse_block (parse_statement (S fuel)))).
    unfold parse_statement_with. rewrite Hkw. cbn [expect]. rewrite Hname.
    cbn [toktype_eqb pbind]. rewrite Hlp. cbn [toktype_eqb].
    unfold parse_params. rewrite Hrp. cbn [parse_more_params]. rewrite Hrp.
    cbn [toktype_eqb pbind expect]. rewrite Hrp. cbn [toktype_eqb pbind].
    now rewrite Hb.
  - intros Ht kw name Hkw Hname.
    cbn [parse_statement parse_statement_with]. rewrite Hkw.
    unfold parse_class. cbn [expect]. rewrite Hname. cbn [toktype_eqb pbind expect].
    rewrite Hlb. cbn [toktype_eqb pbind].
    unfold parse_declarations, parse_sequence, parse_member.
    destruct (type t); try discriminate Ht; reflexivity.
Qed.

(** ** The text of each statement *)

Lemma expression_text
  (out : bool) (e_toks r : list LexToken) (e : Node) (indent : nat) :
  Forall tok_ok (e_toks ++ r) ->
  parse_operand out [] (e_toks ++ r) = POk e r ->
  gen e indent = Return (spaced (map (word float_str) e_toks)).
Proof.
  intros HF H.
  destruct (parse_operand_text_upto _ _ (Nat.le_refl _)
              out [] EmptyString e r HF (st_nil float_str) H)
    as (pre & _ & Hpre & Hg).
  apply app_inv_tail in Hpre. subst pre.
  rewrite gen_expression_node; [exact Hg|].
  apply (parse_operand_kind_upto _ _ (Nat.le_refl _) out [] e r H).
Qed.

Ltac run_parser :=
  repeat first
    [ progress cbn [parse_statement parse_statement_with expect pbind
                    toktype_eqb app]
    | match goal with
      | H : type ?t = _ |- context [type ?t] => rewrite H
      | H : parse_operand _ _ _ = _ |- _ => rewrite H
      | H : parse_block _ _ = _ |- _ => rewrite H
      end ].

(** X22.  An assignment [x = e;] becomes [x = e], an increment [x++;]
    becomes [x = x + 1] and [return e;] becomes [return e], each on a line
    of its own at the current indentation, where [e] stands for the tokens of
    the expression written with single spaces. *)
Theorem simple_statement_text
  (fuel : nat) (id asg pp ret semi : LexToken)
  (e_toks rest : list LexToken) (e : Node) (indent : nat) :
  type id = IDENTIFIER -> type asg = EQUALS -> type pp = PLUSPLUS ->
  type ret = RETURN -> type semi = SEMICOLON ->
  tok_ok id -> Forall tok_ok (e_toks ++ semi :: rest) ->
  parse_expression (e_toks ++ semi :: rest) = POk e (semi :: rest) ->
  exists name,
    value id = VStr name
    /\ (exists n,
          parse_statement (S fuel) (id :: asg :: e_toks ++ semi :: rest)
          = POk n rest
          /\ gen n indent
             = Return (indentation indent ++ name ++ " = "
                       ++ spaced (map (word float_str) e_toks) ++ newline)%string)
    /\ (exists n,
          parse_statement (S fuel) (id :: pp :: semi :: rest) = POk n rest
          /\ gen n indent
             = Return (indentation indent ++ name ++ " = " ++ name ++ " + 1"
                       ++ newline)%string)
    /\ (exists n,
          parse_statement (S fuel) (ret :: e_toks ++ semi :: rest) = POk n rest
          /\ gen n indent
             = Return (indentation indent ++ "return "
                       ++ spaced (map (word float_str) e_toks) ++ newline)%string).
Proof.
  intros Hid Hasg Hpp Hret Hsemi Hok HF He.
  destruct (identifier_value id Hid Hok) as [name Hname].
  pose proof (expression_text false e_toks (semi :: rest) e 0 HF He) as Ht.
  unfold parse_expression in He.
  exists name. split; [exact Hname|]. split; [|split].
  - eexists. split.
    + run_parser. unfold parse_after_identifier. run_parser.
      unfold parse_expression. run_parser. reflexivity.
    + cbn [generate_code]. rewrite Ht, Hname. reflexivity.
  - eexists. split.
    + run_parser. unfold parse_after_identifier. run_parser. reflexivity.
    + cbn [generate_code]. rewrite Hname. reflexivity.
  - eexists. split.
    + run_parser. unfold parse_return, parse_expression. run_parser. reflexivity.
    + cbn [generate_code]. rewrite Ht. reflexivity.
Qed.

(** X23.  An output statement [cout << e;] becomes a call of [print] that
    ends the line with nothing, and [cout << e << endl;] one that ends it
    with the two characters backslash and [n] between the quotes. *)
Theorem output_statement_text
  (fuel : nat) (kw lt1 lt2 lt3 lt4 endl semi : LexToken)
  (e_toks rest : list LexToken) (indent : nat) :
  type kw = COUT -> type lt1 = LT -> type lt2 = LT -> type lt3 = LT ->
  type lt4 = LT -> type endl = ENDL -> type semi = SEMICOLON ->
  (forall e,
     Forall tok_ok (e_toks ++ semi :: rest) ->
     parse_operand true [] (e_toks ++ semi :: rest) = POk e (semi :: rest) ->
     exists n,
       parse_statement (S fuel) (kw :: lt1 :: lt2 :: e_toks ++ semi :: rest)
       = POk n rest
       /\ gen n indent
          = Return (indentation indent ++ "print("
                    ++ spaced (map (word float_str) e_toks)
                    ++ ", end='" ++ "" ++ "')" ++ newline)%string)
  /\ (forall e,
        Forall tok_ok (e_toks ++ lt3 :: lt4 :: endl :: semi :: rest) ->
        parse_operand true [] (e_toks ++ lt3 :: lt4 :: endl :: semi :: rest)
        = POk e (lt3 :: lt4 :: endl :: semi :: rest) ->
        exists n,
          parse_statement (S fuel)
            (kw :: lt1 :: lt2 :: e_toks ++ lt3 :: lt4 :: endl :: semi :: rest)
          = POk n rest
          /\ gen n indent
             = Return (indentation indent ++ "print("
                       ++ spaced (map (word float_str) e_toks)
                       ++ ", end='" ++ "\n" ++ "')" ++ newline)%string).
Proof.
  intros Hkw H1 H2 H3 H4 Hendl Hsemi. split.
  - intros e HF He.
    pose proof (expression_text true e_toks _ e 0 HF He) as Ht.
    eexists. split.
    + run_parser. unfold parse_output. run_parser. reflexivity.
    + cbn [generate_code]. rewrite Ht. reflexivity.
  - intros e HF He.
    pose proof (expression_text true e_toks _ e 0 HF He) as Ht.
    eexists. split.
    + run_parser. unfold parse_output. run_parser. reflexivity.
    + cbn [generate_code]. rewrite Ht. reflexivity.
Qed.

(** X24.  A [while] loop and a conditional become a header line, [while
    c:] or [if c:], followed by the text of the block one level deeper; an
    [else] branch adds the line [else:] at the level of the header and the
    text of the second block one level deeper.  The parentheses and braces
    of the source leave no trace. *)
Theorem loop_and_conditional_text
  (fuel : nat) (kw_while kw_if lp rp : LexToken)
  (c_toks r1 r2 : list LexToken) (c b : Node) (body : string) (indent : nat) :
  type kw_while = WHILE -> type kw_if = IF ->
  type lp = LPAREN -> type rp = RPAREN ->
  Forall tok_ok (c_toks ++ rp :: r1) ->
  parse_expression (c_toks ++ rp :: r1) = POk c (rp :: r1) ->
  parse_block (parse_statement fuel) r1 = POk b r2 ->
  gen b (indent + 1) = Return body ->
  (exists n,
     parse_statement (S fuel) (kw_while :: lp :: c_toks ++ rp :: r1) = POk n r2
     /\ gen n indent
        = Return (indentation indent ++ "while "
                  ++ spaced (map (word float_str) c_toks) ++ ":" ++ newline
                  ++ body)%string)
  /\ (match r2 with
      | t :: _ => type t <> ELSE
      | [] => True
      end ->
      exists n,
        parse_statement (S fuel) (kw_if :: lp :: c_toks ++ rp :: r1) = POk n r2
        /\ gen n indent
           = Return (indentation indent ++ "if "
                     ++ spaced (map (word float_str) c_toks) ++ ":" ++ newline
                     ++ body)%string)
  /\ (forall kw_else r3 r4 b2 body2,
        r2 = kw_else :: r3 -> type kw_else = ELSE ->
        parse_block (parse_statement fuel) r3 = POk b2 r4 ->
        gen b2 (indent + 1) = Return body2 ->
        exists n,
          parse_statement (S fuel) (kw_if :: lp :: c_toks ++ rp :: r1) = POk n r4
          /\ gen n indent
             = Return ((indentation indent ++ "if "
                        ++ spaced (map (word float_str) c_toks) ++ ":" ++ newline
                        ++ body)
                       ++ indentation indent ++ "else:" ++ newline
                       ++ body2)%string).
Proof.
  intros Hw Hi Hlp Hrp HF Hc Hb Hbody.
  pose proof (expression_text false c_toks (rp :: r1) c 0 HF Hc) as Ht.
  unfold parse_expression in Hc.
  split; [|split].
  - eexists. split.
    + run_parser. unfold parse_expression. run_parser. reflexivity.
    + cbn [generate_code]. rewrite Ht. cbn [bind]. rewrite Hbody. reflexivity.
  - intros Hr2. eexists. split.
    + run_parser. unfold parse_expression. run_parser.
      destruct r2 as [|t r2']; [reflexivity|].
      rewrite (toktype_eqb_neq _ _ Hr2). reflexivity.
    + cbn [generate_code app]. rewrite Ht. cbn [bind]. rewrite Hbody. reflexivity.
  - intros kw_else r3 r4 b2 body2 -> Helse Hb2 Hbody2. eexists. split.
    + run_parser. unfold parse_expression. run_parser. reflexivity.
    + cbn [generate_code app]. rewrite Ht. cbn [bind]. rewrite Hbody.
      cbn [bind length Nat.ltb Nat.leb]. rewrite Hbody2. reflexivity.
Qed.

(** *** Functions *)

Lemma more_params_parse (l : list (LexToken * LexToken * LexToken)) :
  forall acc t r,
    Forall (fun p => type (fst (fst p)) = COMMA /\ type (snd (fst p)) = INT
                     /\ type (snd p) = IDENTIFIER) l ->
    type t <> COMMA ->
    parse_more_params acc (more_params l ++ t :: r)
    = POk (MkNode params (acc ++ map param_of l) VNone) (t :: r).
Proof.
  induction l as [|[[c i] id] l IH]; intros acc t r Hl Ht.
  - cbn [more_params app map parse_more_params].
    rewrite (toktype_eqb_neq _ _ Ht). now rewrite app_nil_r.
  - apply Forall_cons_iff in Hl as [(Hc & Hi & Hid) Hl]. cbn [fst snd] in *.
    cbn [more_params app map parse_more_params].
    rewrite Hc, Hi, Hid. cbn [toktype_eqb].
    rewrite (IH _ t r Hl Ht). now rewrite <- app_assoc.
Qed.

Lemma join_values_names (ns : list Node) :
  Forall (fun n => exists s, node_value n = VStr s) ns ->
  join_values ns
  = Return (String.concat ", " (map (fun n => py_str float_str (node_value n)) ns)).
Proof.
  induction 1 as [|n ns [s Hs] _ IH]; [reflexivity|].
  cbn [map join_values String.concat]. rewrite Hs.
  destruct ns as [|n' ns]; [reflexivity|].
  cbn [map] in *. rewrite IH. reflexivity.
Qed.

(** X25.  A function definition [int f(int a, int b, ...) { ... }] becomes
    the header [def f(a, b, ...):], with the parameter names in their order
    separated by a comma and a space, followed by the text of the body one
    level deeper; without parameters the header is [def f():].  The return
    type and the parameter types leave no trace. *)
Theorem function_text
  (fuel : nat) (kw name lp i0 id0 rp : LexToken)
  (l : list (LexToken * LexToken * LexToken))
  (r1 r2 : list LexToken) (b : Node) (body : string) (indent : nat) :
  type kw = INT -> type name = IDENTIFIER ->
  type lp = LPAREN -> type rp = RPAREN ->
  type i0 = INT -> type id0 = IDENTIFIER ->
  Forall (fun p => type (fst (fst p)) = COMMA /\ type (snd (fst p)) = INT
                   /\ type (snd p) = IDENTIFIER) l ->
  tok_ok id0 -> Forall (fun p => tok_ok (snd p)) l ->
  parse_block (parse_statement fuel) r1 = POk b r2 ->
  gen b (indent + 1) = Return body ->
  (exists n,
     parse_statement (S fuel)
       (kw :: name :: lp :: i0 :: id0 :: more_params l ++ rp :: r1)
     = POk n r2
     /\ gen n indent
        = Return (indentation indent ++ "def " ++ py_str float_str (value name)
                  ++ "("
                  ++ String.concat ", "
                       (py_str float_str (value id0)
                        :: map (fun p => py_str float_str (value (snd p))) l)
                  ++ "):" ++ newline ++ body)%string)
  /\ (exists n,
        parse_statement (S fuel) (kw :: name :: lp :: rp :: r1) = POk n r2
        /\ gen n indent
           = Return (indentation indent ++ "def "
                     ++ py_str float_str (value name)
                     ++ "(" ++ "" ++ "):" ++ newline ++ body)%string).
Proof.
  intros Hkw Hname Hlp Hrp Hi0 Hid0 Hl Hok0 Hokl Hb Hbody.
  assert (Hrp' : type rp <> COMMA) by (rewrite Hrp; discriminate).
  split.
  - eexists. split.
    + run_parser. unfold parse_params. run_parser.
      rewrite (more_params_parse l _ rp r1 Hl Hrp'). run_parser. reflexivity.
    + cbn [generate_code node_children app].
      rewrite join_values_names.
      * cbn [bind]. rewrite Hbody. cbn [bind map node_value].
        unfold param_of. rewrite map_map. reflexivity.
      * constructor; [now apply identifier_value|].
        apply Forall_map. rewrite Forall_forall in *.
        intros p Hp. cbn [param_of node_value].
        apply identifier_value; [apply (Hl p Hp) | apply (Hokl p Hp)].
  - eexists. split.
    + run_parser. unfold parse_params. run_parser.
      cbn [parse_more_params]. run_parser. reflexivity.
    + cbn [generate_code node_children join_values bind].
      rewrite Hbody. reflexivity.
Qed.

(** X26.  A [for] loop becomes the header [for i in range(e1, e2):], where
    [i] is the declared variable, [e1] the tokens of the initializer and
    [e2] the tokens of the whole guard, followed by the text of the body one
    level deeper.  The name that is incremented in the loop head does not
    appear in the text: any identifier is accepted there, whether it is the
    loop variable or not. *)
Theorem for_loop_text
  (fuel : nat) (kw lp int_kw id asg s1 s2 step pp rp : LexToken)
  (e1_toks e2_toks r1 r2 : list LexToken) (e1 e2 b : Node)
  (body : string) (indent : nat) :
  type kw = FOR -> type lp = LPAREN -> type int_kw = INT ->
  type id = IDENTIFIER -> type asg = EQUALS ->
  type s1 = SEMICOLON -> type s2 = SEMICOLON ->
  type step = IDENTIFIER -> type pp = PLUSPLUS -> type rp = RPAREN ->
  Forall tok_ok (e1_toks ++ s1 :: e2_toks ++ s2 :: step :: pp :: rp :: r1) ->
  parse_expression (e1_toks ++ s1 :: e2_toks ++ s2 :: step :: pp :: rp :: r1)
  = POk e1 (s1 :: e2_toks ++ s2 :: step :: pp :: rp :: r1) ->
  parse_expression (e2_toks ++ s2 :: step :: pp :: rp :: r1)
  = POk e2 (s2 :: step :: pp :: rp :: r1) ->
  parse_block (parse_statement fuel) r1 = POk b r2 ->
  gen b (indent + 1) = Return body ->
  exists n,
    parse_statement (S fuel)
      (kw :: lp :: int_kw :: id :: asg
       :: e1_toks ++ s1 :: e2_toks ++ s2 :: step :: pp :: rp :: r1)
    = POk n r2
    /\ gen n indent
       = Return (indentation indent ++ "for " ++ py_str float_str (value id)
                 ++ " in range(" ++ spaced (map (word float_str) e1_toks)
                 ++ ", " ++ spaced (map (word float_str) e2_toks)
                 ++ "):" ++ newline ++ body)%string.
Proof.
  intros Hkw Hlp Hint Hid Hasg Hs1 Hs2 Hstep Hpp Hrp HF He1 He2 Hb Hbody.
  pose proof (expression_text false e1_toks _ e1 0 HF He1) as Ht1.
  assert (HF2 : Forall tok_ok (e2_toks ++ s2 :: step :: pp :: rp :: r1)).
  { apply Forall_app in HF as [_ HF]. now apply Forall_cons_iff in HF as [_ HF]. }
  pose proof (expression_text false e2_toks _ e2 0 HF2 He2) as Ht2.
  unfold parse_expression in He1, He2.
  eexists. split.
  - run_parser. unfold parse_expression. run_parser. reflexivity.
  - cbn [generate_code]. rewrite Ht1. cbn [bind]. rewrite Ht2. cbn [bind].
    rewrite Hbody. reflexivity.
Qed.

(** ** Line numbers *)

Lemma ascending_weaken (toks : list LexToken) (ln ln' stop : N) :
  (ln' <= ln)%N -> ascending ln toks stop -> ascending ln' toks stop.
Proof.
  destruct toks as [|t r]; cbn [ascending].
  - lia.
  - intros H [H1 H2]. split; [lia | assumption].
Qed.

Lemma line_feeds_skip (k : nat) :
  forall s, (line_feeds (skip_chars k s) <= line_feeds s)%N.
Proof.
  induction k as [|k IH]; intros s.
  - destruct s; cbn [skip_chars]; lia.
  - destruct s as [|c s]; cbn [skip_chars line_feeds]; [lia|].
    specialize (IH s). destruct (is_newline c); lia.
Qed.

Lemma skip_chars_app (a b : string) : skip_chars (String.length a) (a ++ b) = b.
Proof. induction a as [|c a IH]; [now destruct b | exact IH]. Qed.

Lemma line_feeds_run (m rest : string) :
  all_chars is_newline m = true ->
  line_feeds (m ++ rest) = (N.of_nat (String.length m) + line_feeds rest)%N.
Proof.
  induction m as [|c m IH]; intros H; [reflexivity|].
  cbn [all_chars] in H. apply andb_true_iff in H as [Hc Hm].
  cbn [String.append line_feeds String.length]. rewrite Hc, (IH Hm). lia.
Qed.

(** What the first match is made of: a rule of the table, its action and the
    text its pattern matched. *)
Lemma first_match_rule (rs : list rule) (s : string) (a : action) (m : string) :
  first_match rs s = Some (a, m) ->
  exists r rest, In r rs /\ act r = a /\ matcher r s = Some (m, rest).
Proof.
  induction rs as [|r rs IH]; cbn [first_match]; [discriminate|].
  destruct (matcher r s) as [[m' rest]|] eqn:E.
  - intros H. inversion H; subst. exists r, rest. cbn [In]. auto.
  - intros H. destruct (IH H) as (r' & rest & Hin & Ha & Hm).
    exists r', rest. cbn [In]. auto.
Qed.

Lemma newline_match (s m : string) :
  first_match master_rules s = Some (Newline, m) ->
  exists rest, s = (m ++ rest)%string /\ all_chars is_newline m = true
               /\ m <> EmptyString.
Proof.
  intros H. apply first_match_rule in H as (r & rest & Hin & Ha & Hm).
  rewrite master_rules_eq in Hin. cbn [In] in Hin.
  repeat (destruct Hin as [<-|Hin]; [try discriminate Ha|]); [|contradiction].
  cbn [matcher] in Hm. unfold re_newline in Hm.
  destruct (span is_newline s) as [nl rest'] eqn:E.
  apply span_spec in E as (-> & Hnl & _).
  destruct nl; [discriminate|]. inversion Hm; subst.
  eexists. split; [reflexivity|]. split; [assumption | discriminate].
Qed.

Lemma scan_lines (s : string) :
  forall k ln,
    ascending ln (fst (scan k s ln)) (stop_line (snd (scan k s ln)))
    /\ (stop_line (snd (scan k s ln)) <= ln + line_feeds (skip_chars k s))%N.
Proof.
  induction s as [|c s IH]; intros k ln.
  - cbn [scan fst snd ascending stop_line]. destruct k; cbn; lia.
  - cbn [scan]. destruct k as [|k].
    2:{ exact (IH k ln). }
    cbn [skip_chars].
    assert (Hstep : forall k' ,
               ascending ln (fst (scan k' s ln)) (stop_line (snd (scan k' s ln)))
               /\ (stop_line (snd (scan k' s ln))
                   <= ln + line_feeds (String c s))%N).
    { intros k'. destruct (IH k' ln) as [H1 H2]. split; [exact H1|].
      pose proof (line_feeds_skip k' s). cbn [line_feeds].
      destruct (is_newline c); lia. }
    destruct (is_ignored c); [apply Hstep|].
    destruct (first_match master_rules (String c s)) as [[a m]|] eqn:E.
    2:{ cbn [fst snd ascending stop_line]. lia. }
    destruct a.
    + destruct (Hstep (pred (String.length m))) as [H1 H2].
      destruct (scan (pred (String.length m)) s ln) as [ts e].
      cbn [fst snd ascending t_IDENTIFIER lineno] in *. split; [split|]; auto; lia.
    + destruct (t_NUMBER_cases m ln) as [[v ->] | ->].
      * destruct (Hstep (pred (String.length m))) as [H1 H2].
        destruct (scan (pred (String.length m)) s ln) as [ts e].
        cbn [fst snd ascending lineno] in *. split; [split|]; auto; lia.
      * cbn [fst snd ascending stop_line]. lia.
    + apply newline_match in E as (rest & E & Hm & Hne).
      destruct m as [|c' m']; [now elim Hne|].
      cbn [String.append] in E. inversion E; subst c' s.
      cbn [String.length pred].
      destruct (IH (String.length m') (ln + N.of_nat (S (String.length m')))%N)
        as [H1 H2].
      rewrite skip_chars_app in H2. split.
      * eapply ascending_weaken; [|exact H1]. lia.
      * change (String c (m' ++ rest)) with (String c m' ++ rest)%string.
        rewrite (line_feeds_run _ rest Hm). cbn [String.length]. lia.
    + destruct (Hstep (pred (String.length m))) as [H1 H2].
      destruct (scan (pred (String.length m)) s ln) as [ts e].
      cbn [fst snd ascending lineno] in *. split; [split|]; auto; lia.
    + apply Hstep.
Qed.

Lemma ascending_bounds (toks : list LexToken) :
  forall ln stop, ascending ln toks stop ->
    (ln <= stop)%N /\ Forall (fun t => (ln <= lineno t <= stop)%N) toks.
Proof.
  induction toks as [|t r IH]; intros ln stop; cbn [ascending].
  - intros H. split; [assumption | constructor].
  - intros [H1 H2]. destruct (IH _ _ H2) as [H3 H4]. split; [lia|].
    constructor; [lia|]. eapply Forall_impl; [|exact H4].
    cbn beta. intros a Ha. lia.
Qed.

(** *** The token of a syntax error *)

Lemma eats_In (x r : list LexToken) (t : LexToken) : eats x r -> In t r -> In t x.
Proof. intros (pre & -> & _) H. apply in_or_app. now right. Qed.

Lemma pbind_unexpected {A B} (m : presult A)
  (k : A -> list LexToken -> presult B) (t : LexToken) :
  pbind m k = Unexpected t ->
  m = Unexpected t \/ exists a r, m = POk a r /\ k a r = Unexpected t.
Proof.
  destruct m as [a r|t0| |]; cbn [pbind]; intros H; try discriminate.
  - right. exists a, r. auto.
  - inversion H; subst. now left.
Qed.

Lemma expect_unexpected (ty : toktype) (toks : list LexToken) (t : LexToken) :
  expect ty toks = Unexpected t -> exists r, toks = t :: r.
Proof.
  destruct toks as [|t0 r]; cbn [expect]; [discriminate|].
  destruct (toktype_eqb (type t0) ty); [discriminate|].
  intros H. inversion H; subst. eauto.
Qed.

Ltac blame_steps :=
  repeat match goal with
    | H : pbind _ _ = Unexpected _ |- _ =>
        let x := fresh "x" in let r := fresh "r" in let E := fresh "E" in
        apply pbind_unexpected in H as [H | (x & r & E & H)]
    | H : expect _ _ = Unexpected _ |- _ =>
        let r := fresh "r" in let Heq := fresh "Heq" in
        apply expect_unexpected in H as [r Heq];
        first [ subst | inversion Heq; subst; clear Heq ]
    | H : expect _ _ = POk _ _ |- _ =>
        let Heq := fresh "Heq" in let Hty := fresh "Hty" in
        apply expect_ok in H as [Heq Hty];
        first [ subst | inversion Heq; subst; clear Heq ]
    | H : parse_expression _ = _ |- _ => unfold parse_expression in H
    | HS : eater ?p, H : ?p ?x = POk _ _ |- _ => apply HS in H
    | HS : blames ?p, H : ?p ?x = Unexpected _ |- _ => apply HS in H
    | H : Unexpected _ = Unexpected _ |- _ => inversion H; subst; clear H
    | H : POk _ _ = Unexpected _ |- _ => discriminate H
    | H : NeedToken = Unexpected _ |- _ => discriminate H
    | H : match ?x with _ => _ end = Unexpected _ |- _ =>
        let E := fresh "E" in destruct x eqn:E; try discriminate; try subst
    end.

Ltac blame_done :=
  solve [ repeat match goal with
            | H : In ?t ?x |- In ?t ?x => exact H
            | |- In ?t (?t :: _) => left; reflexivity
            | H : eats ?x ?r |- In ?t ?x => apply (eats_In x r t H)
            | |- In ?t (_ :: ?x) => right
            end ].

Lemma parse_operand_blames_upto (k : nat) :
  forall toks, length toks <= k ->
  forall out st t, parse_operand out st toks = Unexpected t -> In t toks.
Proof.
  induction k as [|k IH]; intros toks Hk out st t H.
  - destruct toks; [discriminate | simpl in Hk; lia].
  - destruct toks as [|t0 rest]; [discriminate|].
    cbn [parse_operand] in H. simpl in Hk.
    destruct (is_operand (type t0)) eqn:Eop.
    + assert (H' :
        match rest with
        | [] => NeedToken
        | a :: rest' =>
            if is_binop (type a) then
              let (stack', e') := reduce_for (type a) st (MkNode literal [] (value t0)) in
              match out, type a, stack', rest' with
              | true, LT, [], [] => NeedToken
              | true, LT, [], b :: _ =>
                  if toktype_eqb (type b) LT then POk e' rest
                  else parse_operand out [FBin e' a] rest'
              | _, _, _, _ => parse_operand out (FBin e' a :: stack') rest'
              end
            else POk (reduce_all st (MkNode literal [] (value t0))) rest
        end = Unexpected t).
      { destruct (type t0); try discriminate Eop; exact H. }
      clear H. destruct rest as [|a rest']; [discriminate|].
      destruct (is_binop (type a)); [|discriminate].
      destruct (reduce_for (type a) st (MkNode literal [] (value t0)))
        as [stack' e'].
      assert (Hnext : forall stk, parse_operand out stk rest' = Unexpected t ->
                                  In t (t0 :: a :: rest')).
      { intros stk Hp. do 2 right.
        apply (IH rest' ltac:(simpl in Hk; lia) out stk t Hp). }
      destruct out.
      * destruct (type a); try (now apply (Hnext _ H')).
        destruct stack'; [|now apply (Hnext _ H')].
        destruct rest' as [|b rest'']; [discriminate|].
        destruct (toktype_eqb (type b) LT); [discriminate|].
        now apply (Hnext _ H').
      * apply (Hnext (FBin e' a :: stack')).
        destruct (type a), stack', rest'; exact H'.
    + destruct (type t0) eqn:Et; try discriminate Eop;
        try (inversion H; subst; now left).
      right. apply (IH rest ltac:(lia) out _ t H).
Qed.

Lemma parse_operand_blames out st : blames (parse_operand out st).
Proof.
  intros toks t H.
  apply (parse_operand_blames_upto (length toks) toks (Nat.le_refl _) out st t H).
Qed.

Lemma parse_declaration_tail_blames id : blames (parse_declaration_tail id).
Proof.
  intros toks t H. unfold parse_declaration_tail in H.
  pose proof (parse_operand_blames false []) as Hb.
  pose proof (parse_operand_eats false []) as He.
  blame_steps; blame_done.
Qed.

Lemma parse_float_declaration_blames : blames parse_float_declaration.
Proof.
  intros toks t H. unfold parse_float_declaration in H.
  pose proof (parse_operand_blames false []) as Hb.
  pose proof (parse_operand_eats false []) as He.
  blame_steps; blame_done.
Qed.

Lemma parse_after_identifier_blames id : blames (parse_after_identifier id).
Proof.
  intros toks t H. unfold parse_after_identifier in H.
  pose proof (parse_operand_blames false []) as Hb.
  pose proof (parse_operand_eats false []) as He.
  blame_steps; blame_done.
Qed.

Lemma parse_output_blames : blames parse_output.
Proof.
  intros toks t H. unfold parse_output in H.
  pose proof (parse_operand_blames true []) as Hb.
  pose proof (parse_operand_eats true []) as He.
  blame_steps; blame_done.
Qed.

Lemma parse_return_blames : blames parse_return.
Proof.
  intros toks t H. unfold parse_return in H.
  pose proof (parse_operand_blames false []) as Hb.
  pose proof (parse_operand_eats false []) as He.
  blame_steps; blame_done.
Qed.

Lemma parse_more_params_blames_upto (k : nat) :
  forall toks, length toks <= k ->
  forall acc t, parse_more_params acc toks = Unexpected t -> In t toks.
Proof.
  induction k as [|k IH]; intros toks Hk acc t H.
  - destruct toks; [discriminate | simpl in Hk; lia].
  - destruct toks as [|c r1]; [discriminate|].
    cbn [parse_more_params] in H. simpl in Hk.
    destruct (toktype_eqb (type c) COMMA); [|discriminate].
    destruct r1 as [|i r2]; [discriminate|].
    destruct (toktype_eqb (type i) INT).
    2:{ inversion H; subst. right. now left. }
    destruct r2 as [|id r3]; [discriminate|].
    destruct (toktype_eqb (type id) IDENTIFIER).
    2:{ inversion H; subst. do 2 right. now left. }
    do 3 right. apply (IH r3 ltac:(simpl in Hk; lia) _ t H).
Qed.

Lemma parse_more_params_blames acc : blames (parse_more_params acc).
Proof.
  intros toks t H.
  apply (parse_more_params_blames_upto (length toks) toks (Nat.le_refl _) acc t H).
Qed.

Lemma parse_params_blames : blames parse_params.
Proof.
  intros toks t H. unfold parse_params in H.
  destruct toks as [|t0 r0]; [discriminate|].
  destruct (type t0) eqn:Et; try (inversion H; subst; now left).
  - apply pbind_unexpected in H as [H | (id & r1 & E & H)].
    + apply expect_unexpected in H as [r ->]. right. now left.
    + apply expect_ok in E as [-> Hid].
      apply parse_more_params_blames in H. right. now right.
  - now apply parse_more_params_blames in H.
  - now apply parse_more_params_blames in H.
Qed.

Lemma parse_member_blames : blames parse_member.
Proof.
  intros toks t H. unfold parse_member in H.
  destruct toks as [|t0 r0]; [discriminate|].
  destruct (type t0) eqn:Et; try (inversion H; subst; now left).
  - apply pbind_unexpected in H as [H | (id & r1 & E & H)].
    + apply expect_unexpected in H as [r ->]. right. now left.
    + apply expect_ok in E as [-> Hid].
      apply parse_declaration_tail_blames in H. right. now right.
  - apply parse_float_declaration_blames in H. now right.
Qed.

Section SequenceBlames.
Variables (kind : NodeType) (starts : toktype -> bool).
Variable item : list LexToken -> presult Node.
Hypothesis item_eats : eater item.
Hypothesis item_blames : blames item.

Lemma parse_more_blames (k : nat) :
  forall acc, blames (parse_more kind starts item k acc).
Proof.
  induction k as [|k IH]; intros acc toks t H.
  - destruct toks as [|t0 toks']; cbn [parse_more] in H; [discriminate|].
    destruct (starts (type t0)); discriminate.
  - destruct toks as [|t0 toks']; cbn [parse_more] in H; [discriminate|].
    destruct (starts (type t0)); [|discriminate].
    apply pbind_unexpected in H as [H | (x & r1 & E & H)].
    + now apply item_blames in H.
    + apply item_eats in E. apply IH in H. now apply (eats_In _ _ _ E).
Qed.

Lemma parse_sequence_blames : blames (parse_sequence kind starts item).
Proof.
  intros toks t H. unfold parse_sequence in H.
  apply pbind_unexpected in H as [H | (x & r1 & E & H)].
  - now apply item_blames in H.
  - apply item_eats in E. apply parse_more_blames in H.
    now apply (eats_In _ _ _ E).
Qed.

End SequenceBlames.

Lemma parse_class_blames : blames parse_class.
Proof.
  intros toks t H. unfold parse_class, parse_declarations in H.
  pose proof (parse_sequence_eats declarations starts_member _ parse_member_eats)
    as Hds.
  pose proof (parse_sequence_blames declarations starts_member _
                parse_member_eats parse_member_blames) as Hdb.
  blame_steps; blame_done.
Qed.

Lemma parse_block_blames stmt :
  eater stmt -> blames stmt -> blames (parse_block stmt).
Proof.
  intros Hse Hsb toks t H. unfold parse_block in H.
  pose proof (parse_sequence_eats statements starts_statement _ Hse) as Hseq.
  pose proof (parse_sequence_blames statements starts_statement _ Hse Hsb)
    as Hseqb.
  blame_steps; blame_done.
Qed.

Lemma parse_statement_with_blames block :
  eater block -> blames block -> blames (parse_statement_with block).
Proof.
  intros Hbe Hbb toks t H. unfold parse_statement_with in H.
  destruct toks as [|t0 r0]; [discriminate|].
  pose proof parse_params_eats as Hparams.
  pose proof parse_params_blames as Hparamsb.
  pose proof parse_float_declaration_blames as Hfloat.
  pose proof parse_class_blames as Hclass.
  pose proof parse_output_blames as Hout.
  pose proof parse_return_blames as Hret.
  pose proof (parse_after_identifier_blames t0) as Hid.
  pose proof (parse_operand_eats false []) as He.
  pose proof (parse_operand_blames false []) as Heb.
  destruct (type t0) eqn:Et0; try (inversion H; subst; now left);
    blame_steps; try blame_done.
  all: try match goal with
         | H : parse_declaration_tail ?id ?x = Unexpected _ |- _ =>
             apply (parse_declaration_tail_blames id) in H; blame_done
         end.
Qed.

Lemma parse_statement_blames (fuel : nat) : blames (parse_statement fuel).
Proof.
  induction fuel as [|fuel IH].
  - intros toks t H. discriminate.
  - cbn [parse_statement].
    apply parse_statement_with_blames;
      [apply parse_block_eats, parse_statement_eats
      | apply parse_block_blames; [apply parse_statement_eats | exact IH]].
Qed.

Lemma parse_program_blames (fuel : nat) : blames (parse_program fuel).
Proof.
  intros toks t H. unfold parse_program in H.
  pose proof (parse_sequence_eats statements starts_statement _
                (parse_statement_eats fuel)) as Hseq.
  pose proof (parse_sequence_blames statements starts_statement _
                (parse_statement_eats fuel) (parse_statement_blames fuel))
    as Hseqb.
  apply pbind_unexpected in H as [H | (p & r1 & E & H)].
  - destruct toks as [|t0 r0]; [discriminate|].
    destruct (toktype_eqb (type t0) INCLUDE).
    + pose proof (parse_includes_eats (t0 :: r0) []) as Hs.
      destruct (parse_includes [] (t0 :: r0)) as [p1 r2]. cbn [snd] in Hs.
      apply pbind_unexpected in H as [H | (p2 & r3 & E & H)]; [|discriminate].
      apply Hseqb in H. now apply (eats_In _ _ _ Hs).
    + apply pbind_unexpected in H as [H | (p2 & r3 & E & H)]; [|discriminate].
      now apply Hseqb in H.
  - apply parse_program_eats_rest in E.
    destruct r1 as [|t1 r1]; [discriminate|]. inversion H; subst.
    apply (eats_In _ _ _ E). now left.
Qed.

(** X27.  The line counter only grows, and by no more than the line feeds
    of the text: the tokens of a scan carry line numbers that go up from the
    counter at the start to the counter at the end, which is at most the
    counter at the start plus the number of line feeds in the text.  So the
    line named in a diagnostic, and the counter a call of [transpile] leaves
    behind, lie between the counter before the call and that bound. *)
Theorem line_numbers_are_bounded (ln : N) (s : string) :
  ascending ln (fst (tokenize s ln)) (stop_line (snd (tokenize s ln)))
  /\ (stop_line (snd (tokenize s ln)) <= ln + line_feeds s)%N
  /\ forall result l,
       transpile float_str ln s = Some (result, l) ->
       (ln <= l <= ln + line_feeds s)%N.
Proof.
  destruct (scan_lines s 0 ln) as [H1 H2]. cbn [skip_chars] in H2.
  assert (H2' : (stop_line (snd (scan 0 s ln)) <= ln + line_feeds s)%N)
    by (destruct s; exact H2).
  split; [exact H1|]. split; [exact H2'|].
  intros result l H.
  destruct (ascending_bounds _ _ _ H1) as [H3 H4].
  assert (Hbody : exists out, transpile_body float_str ln s = Some (out, l)).
  { unfold transpile in H.
    destruct (transpile_body float_str ln s) as [[[text|[msg| | | |]] l']|];
      inversion H; subst; eauto. }
  destruct Hbody as [out Hb]. clear H.
  unfold transpile_body, tokenize in *.
  destruct (scan 0 s ln) as [toks stop]. cbn [fst snd] in *.
  destruct (parse toks) as [ast r|t| |] eqn:E.
  - destruct stop; inversion Hb; subst; cbn [stop_line] in *; lia.
  - inversion Hb; subst.
    assert (Hin : In t toks) by (apply (parse_program_blames _ _ _ E)).
    rewrite Forall_forall in H4. specialize (H4 t Hin). cbn beta in H4. lia.
  - destruct stop; inversion Hb; subst; cbn [stop_line] in *; lia.
  - discriminate.
Qed.

(** ** Programs one after the other *)

Lemma parse_operand_stable_upto (k : nat) :
  forall toks, length toks <= k ->
  forall out st e r tl,
    parse_operand out st toks = POk e r ->
    parse_operand out st (toks ++ tl) = POk e (r ++ tl).
Proof.
  induction k as [|k IH]; intros toks Hk out st e r tl H.
  - destruct toks; [discriminate | simpl in Hk; lia].
  - destruct toks as [|t rest]; [discriminate|].
    cbn [app parse_operand] in *. simpl in Hk.
    destruct (type t); try discriminate H.
    + (* IDENTIFIER *)
      destruct rest as [|a rest']; [discriminate|]. cbn [app].
      destruct (is_binop (type a)); [|inversion H; subst; reflexivity].
      destruct (reduce_for (type a) st (MkNode literal [] (value t)))
        as [stack' e'].
      assert (Hnext : forall stk, parse_operand out stk rest' = POk e r ->
                 parse_operand out stk (rest' ++ tl) = POk e (r ++ tl))
        by (intros stk Hp; apply (IH rest' ltac:(simpl in Hk; lia) _ _ _ _ _ Hp)).
      destruct out; [|destruct (type a), stack', rest'; now apply Hnext].
      destruct (type a); try now apply Hnext.
      destruct stack'; [|now apply Hnext].
      destruct rest' as [|b rest'']; [discriminate|]. cbn [app].
      destruct (toktype_eqb (type b) LT); [|now apply Hnext].
      inversion H; subst. reflexivity.
    + (* NUMBER *)
      destruct rest as [|a rest']; [discriminate|]. cbn [app].
      destruct (is_binop (type a)); [|inversion H; subst; reflexivity].
      destruct (reduce_for (type a) st (MkNode literal [] (value t)))
        as [stack' e'].
      assert (Hnext : forall stk, parse_operand out stk rest' = POk e r ->
                 parse_operand out stk (rest' ++ tl) = POk e (r ++ tl))
        by (intros stk Hp; apply (IH rest' ltac:(simpl in Hk; lia) _ _ _ _ _ Hp)).
      destruct out; [|destruct (type a), stack', rest'; now apply Hnext].
      destruct (type a); try now apply Hnext.
      destruct stack'; [|now apply Hnext].
      destruct rest' as [|b rest'']; [discriminate|]. cbn [app].
      destruct (toktype_eqb (type b) LT); [|now apply Hnext].
      inversion H; subst. reflexivity.
    + (* STRING *)
      destruct rest as [|a rest']; [discriminate|]. cbn [app].
      destruct (is_binop (type a)); [|inversion H; subst; reflexivity].
      destruct (reduce_for (type a) st (MkNode literal [] (value t)))
        as [stack' e'].
      assert (Hnext : forall stk, parse_operand out stk rest' = POk e r ->
                 parse_operand out stk (rest' ++ tl) = POk e (r ++ tl))
        by (intros stk Hp; apply (IH rest' ltac:(simpl in Hk; lia) _ _ _ _ _ Hp)).
      destruct out; [|destruct (type a), stack', rest'; now apply Hnext].
      destruct (type a); try now apply Hnext.
      destruct stack'; [|now apply Hnext].
      destruct rest' as [|b rest'']; [discriminate|]. cbn [app].
      destruct (toktype_eqb (type b) LT); [|now apply Hnext].
      inversion H; subst. reflexivity.
    + (* NOT *)
      apply (IH rest ltac:(lia) _ _ _ _ _ H).
Qed.

Lemma parse_operand_settled out st : settled (parse_operand out st).
Proof.
  intros toks n r tl H.
  apply (parse_operand_stable_upto (length toks) toks (Nat.le_refl _) _ _ _ _ _ H).
Qed.

(** Reads a production again with more tokens behind it, from what each of
    its steps did. *)
Ltac rerun tl :=
  repeat match goal with
    | HS : settled ?p, H : ?p ?y = POk ?a ?r |- _ =>
        lazymatch y with
        | (_ ++ tl) => fail
        | _ => apply (HS y a r tl) in H
        end
    | HS : stable ?p, H : ?p ?y = POk ?a (?t :: ?r) |- _ =>
        lazymatch y with
        | (_ ++ tl) => fail
        | _ => apply (fun H0 => HS y a (t :: r) tl H0 ltac:(discriminate)) in H
        end
    end;
  repeat first
    [ progress cbn [app pbind expect toktype_eqb]
    | progress unfold parse_expression
    | match goal with
      | H : type ?t = _ |- context [type ?t] => rewrite H
      | H : toktype_eqb ?a ?b = _ |- context [toktype_eqb ?a ?b] => rewrite H
      | H : ?p ?y = POk _ _ |- context [?p ?y] => rewrite H
      end ];
  try reflexivity.

Lemma parse_declaration_tail_settled id : settled (parse_declaration_tail id).
Proof.
  intros toks n r tl H. pose proof (parse_operand_settled false []) as He.
  unfold parse_declaration_tail in *. steps; rerun tl.
Qed.

Lemma parse_float_declaration_settled : settled parse_float_declaration.
Proof.
  intros toks n r tl H. pose proof (parse_operand_settled false []) as He.
  unfold parse_float_declaration in *. steps; rerun tl.
Qed.

Lemma parse_after_identifier_settled id : settled (parse_after_identifier id).
Proof.
  intros toks n r tl H. pose proof (parse_operand_settled false []) as He.
  unfold parse_after_identifier in *. steps; rerun tl.
Qed.

Lemma parse_output_settled : settled parse_output.
Proof.
  intros toks n r tl H. pose proof (parse_operand_settled true []) as He.
  unfold parse_output in *. steps; rerun tl.
Qed.

Lemma parse_return_settled : settled parse_return.
Proof.
  intros toks n r tl H. pose proof (parse_operand_settled false []) as He.
  unfold parse_return in *. steps; rerun tl.
Qed.

Lemma parse_more_params_stable_upto (k : nat) :
  forall toks, length toks <= k ->
  forall acc n r tl,
    parse_more_params acc toks = POk n r -> r <> [] ->
    parse_more_params acc (toks ++ tl) = POk n (r ++ tl).
Proof.
  induction k as [|k IH]; intros toks Hk acc n r tl H Hr.
  - destruct toks; [|simpl in Hk; lia]. inversion H; subst. now elim Hr.
  - destruct toks as [|c r1]; [inversion H; subst; now elim Hr|].
    cbn [app parse_more_params] in *. simpl in Hk.
    destruct (toktype_eqb (type c) COMMA); [|inversion H; subst; reflexivity].
    destruct r1 as [|i r2]; [discriminate|]. cbn [app].
    destruct (toktype_eqb (type i) INT); [|discriminate].
    destruct r2 as [|id r3]; [discriminate|]. cbn [app].
    destruct (toktype_eqb (type id) IDENTIFIER); [|discriminate].
    apply (IH r3 ltac:(simpl in Hk; lia) _ _ _ _ H Hr).
Qed.

Lemma parse_more_params_stable acc : stable (parse_more_params acc).
Proof.
  intros toks n r tl H Hr.
  apply (parse_more_params_stable_upto (length toks) toks (Nat.le_refl _)
           _ _ _ _ H Hr).
Qed.

Lemma parse_params_stable : stable parse_params.
Proof.
  intros toks n r tl H Hr. unfold parse_params in *.
  destruct toks as [|t r0]; [discriminate|]. cbn [app].
  destruct (type t); try discriminate.
  - apply pbind_ok in H as (id & r1 & E & H).
    apply expect_ok in E as [-> Hid]. cbn [app expect]. rewrite Hid.
    cbn [toktype_eqb pbind]. now apply parse_more_params_stable.
  - now apply (parse_more_params_stable [] (t :: r0)).
  - now apply (parse_more_params_stable [] (t :: r0)).
Qed.

Lemma parse_member_settled : settled parse_member.
Proof.
  intros toks n r tl H. unfold parse_member in *.
  destruct toks as [|t r0]; [discriminate|]. cbn [app].
  destruct (type t); try discriminate.
  - apply pbind_ok in H as (id & r1 & E & H).
    apply expect_ok in E as [-> Hid]. cbn [app expect]. rewrite Hid.
    cbn [toktype_eqb pbind]. now apply parse_declaration_tail_settled.
  - now apply parse_float_declaration_settled.
Qed.

Section SequenceStable.
Variables (kind : NodeType) (starts : toktype -> bool).
Variable item : list LexToken -> presult Node.
Hypothesis item_stable : stable item.

(** More fuel does not change a sequence that was read to its end. *)
Lemma parse_more_fuel_mono (k : nat) :
  forall k' acc toks n r,
    k <= k' ->
    parse_more kind starts item k acc toks = POk n r ->
    parse_more kind starts item k' acc toks = POk n r.
Proof.
  induction k as [|k IH]; intros k' acc toks n r Hk H.
  - destruct toks as [|t toks']; cbn [parse_more] in *;
      [now destruct k'|].
    destruct (starts (type t)) eqn:Es; [discriminate|].
    destruct k'; cbn [parse_more]; now rewrite Es.
  - destruct k' as [|k']; [lia|].
    destruct toks as [|t toks']; cbn [parse_more] in *; [assumption|].
    destruct (starts (type t)); [|assumption].
    apply pbind_ok in H as (x & r1 & E & H). rewrite E. cbn [pbind].
    apply IH; [lia | assumption].
Qed.

Lemma parse_more_end (k : nat) (acc : Node) :
  parse_more kind starts item k acc [] = POk acc [].
Proof. now destruct k. Qed.

Lemma parse_more_stable (k : nat) :
  forall acc toks n r tl,
    parse_more kind starts item k acc toks = POk n r -> r <> [] ->
    parse_more kind starts item k acc (toks ++ tl) = POk n (r ++ tl).
Proof.
  induction k as [|k IH]; intros acc toks n r tl H Hr.
  - destruct toks as [|t toks']; cbn [parse_more app] in *.
    + inversion H; subst. now elim Hr.
    + destruct (starts (type t)); [discriminate|]. now inversion H; subst.
  - destruct toks as [|t toks']; cbn [parse_more app] in *.
    + inversion H; subst. now elim Hr.
    + destruct (starts (type t)); [|now inversion H; subst].
      apply pbind_ok in H as (x & r1 & E & H).
      assert (Hr1 : r1 <> []).
      { intros ->. rewrite parse_more_end in H. inversion H; subst. now elim Hr. }
      change (t :: toks' ++ tl) with ((t :: toks') ++ tl).
      rewrite (item_stable _ _ _ tl E Hr1). cbn [pbind]. now apply IH.
Qed.

Lemma parse_sequence_stable : stable (parse_sequence kind starts item).
Proof.
  intros toks n r tl H Hr. unfold parse_sequence in *.
  apply pbind_ok in H as (x & r1 & E & H).
  assert (Hr1 : r1 <> []).
  { intros ->. rewrite parse_more_end in H. inversion H; subst. now elim Hr. }
  rewrite (item_stable _ _ _ tl E Hr1). cbn [pbind].
  apply (parse_more_fuel_mono (length r1)); [rewrite length_app; lia|].
  now apply parse_more_stable.
Qed.

End SequenceStable.

Lemma settled_stable (p : list LexToken -> presult Node) : settled p -> stable p.
Proof. intros Hp toks n r tl H _. now apply Hp. Qed.

Lemma parse_class_settled : settled parse_class.
Proof.
  intros toks n r tl H.
  pose proof (parse_sequence_stable declarations starts_member _
                (settled_stable _ parse_member_settled)) as Hds.
  unfold parse_class, parse_declarations in *. steps; rerun tl.
Qed.

Lemma parse_block_settled stmt : stable stmt -> settled (parse_block stmt).
Proof.
  intros Hstmt toks n r tl H.
  pose proof (parse_sequence_stable statements starts_statement _ Hstmt) as Hseq.
  unfold parse_block in *. steps; rerun tl.
Qed.

Lemma parse_statement_with_stable block :
  settled block -> stable_but_else (parse_statement_with block).
Proof.
  intros Hblock toks n r tl H Hr.
  pose proof parse_params_stable as Hparams.
  pose proof parse_float_declaration_settled as Hfloat.
  pose proof parse_class_settled as Hclass.
  pose proof parse_output_settled as Hout.
  pose proof parse_return_settled as Hret.
  pose proof (parse_operand_settled false []) as He.
  unfold parse_statement_with in *.
  destruct toks as [|t0 r0]; [discriminate|].
  pose proof (parse_after_identifier_settled t0) as Hid.
  cbn [app]. destruct (type t0) eqn:Et0; try discriminate; steps; rerun tl.
  - now apply (parse_declaration_tail_settled x (l :: l0)).
  - destruct Hr as [Hr|Hr]; [now elim Hr|].
    destruct tl as [|e tl']; [reflexivity|]. cbn [no_else] in Hr.
    now rewrite (toktype_eqb_neq _ _ Hr).
Qed.

Lemma parse_statement_stable (fuel : nat) : stable_but_else (parse_statement fuel).
Proof.
  induction fuel as [|fuel IH]; [intros toks n r tl H; discriminate|].
  cbn [parse_statement]. apply parse_statement_with_stable, parse_block_settled.
  intros toks n r tl H Hr. apply IH; [assumption | now left].
Qed.

(** *** Sequences that follow each other *)

Section SequenceCompose.
Variables (kind : NodeType) (starts : toktype -> bool).
Variable item : list LexToken -> presult Node.
Variable next : list LexToken.

(** A sequence gathered under a node that already holds [pre]. *)
Lemma parse_more_prefix (k : nat) :
  forall l0 toks l r pre,
    parse_more kind starts item k (MkNode kind l0 VNone) toks
    = POk (MkNode kind l VNone) r ->
    parse_more kind starts item k (MkNode kind (pre ++ l0) VNone) toks
    = POk (MkNode kind (pre ++ l) VNone) r.
Proof.
  induction k as [|k IH]; intros l0 toks l r pre H.
  - destruct toks as [|t toks']; cbn [parse_more] in *.
    + now inversion H; subst.
    + destruct (starts (type t)); [discriminate|]. now inversion H; subst.
  - destruct toks as [|t toks']; cbn [parse_more] in *.
    + now inversion H; subst.
    + destruct (starts (type t)); [|now inversion H; subst].
      apply pbind_ok in H as (x & r1 & E & H). rewrite E. cbn [pbind].
      cbn [append_child] in *. rewrite <- app_assoc. now apply IH.
Qed.

Lemma parse_more_shape (k : nat) :
  forall l0 toks n r,
    parse_more kind starts item k (MkNode kind l0 VNone) toks = POk n r ->
    exists l, n = MkNode kind l VNone.
Proof.
  induction k as [|k IH]; intros l0 toks n r H.
  - destruct toks as [|t toks']; cbn [parse_more] in *.
    + inversion H; subst. eauto.
    + destruct (starts (type t)); [discriminate|]. inversion H; subst. eauto.
  - destruct toks as [|t toks']; cbn [parse_more] in *.
    + inversion H; subst. eauto.
    + destruct (starts (type t)); [|inversion H; subst; eauto].
      apply pbind_ok in H as (x & r1 & E & H). cbn [append_child] in H.
      now apply IH in H.
Qed.

Lemma parse_sequence_shape (toks : list LexToken) (n : Node) (r : list LexToken) :
  parse_sequence kind starts item toks = POk n r ->
  exists l, n = MkNode kind l VNone.
Proof.
  unfold parse_sequence. intros H.
  apply pbind_ok in H as (x & r1 & E & H). now apply parse_more_shape in H.
Qed.

Hypothesis item_next :
  forall toks n r, item toks = POk n r -> item (toks ++ next) = POk n (r ++ next).

(** A sequence read to the end of the tokens goes on with the items that
    follow. *)
Lemma parse_more_compose (k : nat) :
  forall acc toks n k2 n' r',
    parse_more kind starts item k acc toks = POk n [] ->
    parse_more kind starts item k2 n next = POk n' r' ->
    parse_more kind starts item (k + k2) acc (toks ++ next) = POk n' r'.
Proof.
  induction k as [|k IH]; intros acc toks n k2 n' r' H H2.
  - destruct toks as [|t0 toks']; cbn [parse_more] in H.
    + inversion H; subst. exact H2.
    + destruct (starts (type t0)); [discriminate|]. inversion H.
  - destruct toks as [|t0 toks']; cbn [parse_more] in H.
    + inversion H; subst. cbn [app].
      apply (parse_more_fuel_mono kind starts item k2); [lia | exact H2].
    + cbn [app Nat.add parse_more].
      destruct (starts (type t0)); [|inversion H].
      apply pbind_ok in H as (x & r1 & E & H).
      change (t0 :: toks' ++ next) with ((t0 :: toks') ++ next).
      rewrite (item_next _ _ _ E). cbn [pbind]. now apply (IH _ _ n).
Qed.

Hypothesis item_reads :
  forall toks n r, item toks = POk n r -> length r < length toks.

Lemma parse_sequence_compose (toks : list LexToken) (l1 l2 : list Node) :
  match next with t :: _ => starts (type t) = true | [] => False end ->
  parse_sequence kind starts item toks = POk (MkNode kind l1 VNone) [] ->
  parse_sequence kind starts item next = POk (MkNode kind l2 VNone) [] ->
  parse_sequence kind starts item (toks ++ next)
  = POk (MkNode kind (l1 ++ l2) VNone) [].
Proof.
  intros Hnext H1 H2. unfold parse_sequence in *.
  apply pbind_ok in H1 as (x & r1 & E1 & H1).
  apply pbind_ok in H2 as (y & r2 & E2 & H2).
  rewrite (item_next _ _ _ E1). cbn [pbind].
  apply (parse_more_fuel_mono kind starts item (length r1 + S (length r2))).
  { rewrite length_app. apply item_reads in E2. lia. }
  apply (parse_more_compose _ _ _ (MkNode kind l1 VNone)); [exact H1|].
  destruct next as [|t tl]; [contradiction|].
  cbn [parse_more]. rewrite Hnext, E2. cbn [pbind append_child].
  now apply (parse_more_prefix _ [y]).
Qed.

End SequenceCompose.

Lemma parse_includes_app (toks tl : list LexToken) :
  forall acc,
    snd (parse_includes acc toks) <> [] ->
    parse_includes acc (toks ++ tl)
    = (fst (parse_includes acc toks), snd (parse_includes acc toks) ++ tl).
Proof.
  induction toks as [|t r IH]; intros acc H; cbn [parse_includes app] in *.
  - now elim H.
  - destruct (toktype_eqb (type t) INCLUDE); [now apply IH | reflexivity].
Qed.

Lemma statement_start (fuel : nat) (t : LexToken) (r : list LexToken) n r' :
  parse_statement fuel (t :: r) = POk n r' -> starts_statement (type t) = true.
Proof.
  intros H. destruct (starts_statement (type t)) eqn:E; [reflexivity|].
  destruct fuel; [discriminate|].
  rewrite (statement_needs_start fuel t r E) in H. discriminate.
Qed.

(** The statements of a program, and the tokens they were read from once
    the include directives are taken off. *)
Lemma parse_program_statements (fuel : nat) (toks : list LexToken) ast r :
  parse_program fuel toks = POk ast r ->
  r = []
  /\ exists l body,
       ast = MkNode program [MkNode statements l VNone] VNone
       /\ parse_sequence statements starts_statement (parse_statement fuel) body
          = POk (MkNode statements l VNone) []
       /\ forall tl,
            parse_program fuel (toks ++ tl)
            = (let* (p, r) :=
                 (let* (p2, r) :=
                    parse_sequence statements starts_statement
                      (parse_statement fuel) (body ++ tl) in
                  POk (MkNode program [p2] VNone) r) in
               match r with
               | [] => POk p []
               | t :: _ => Unexpected t
               end).
Proof.
  intros H. unfold parse_program in H.
  apply pbind_ok in H as (p & r1 & E & H).
  destruct r1 as [|t1 r1]; [|discriminate]. inversion H; subst p r. clear H.
  split; [reflexivity|].
  destruct toks as [|t r0]; [discriminate|].
  destruct (toktype_eqb (type t) INCLUDE) eqn:Et.
  - destruct (parse_includes [] (t :: r0)) as [p1 body] eqn:Ei.
    apply pbind_ok in E as (p2 & r3 & E & H'). inversion H'; subst. clear H'.
    destruct (parse_sequence_shape _ _ _ _ _ _ E) as [l ->].
    exists l, body. split; [reflexivity|]. split; [exact E|].
    intros tl. unfold parse_program. cbn [app]. rewrite Et.
    change (t :: r0 ++ tl) with ((t :: r0) ++ tl).
    rewrite parse_includes_app; rewrite Ei; cbn [fst snd]; [reflexivity|].
    intros ->. unfold parse_sequence in E. destruct fuel; discriminate.
  - apply pbind_ok in E as (p2 & r3 & E & H'). inversion H'; subst. clear H'.
    destruct (parse_sequence_shape _ _ _ _ _ _ E) as [l ->].
    exists l, (t :: r0). split; [reflexivity|]. split; [exact E|].
    intros tl. unfold parse_program. cbn [app]. now rewrite Et.
Qed.

Lemma gen_statements_app (l1 l2 : list Node) (v1 v2 v : pyval) (indent : nat)
  (s1 s2 : string) :
  gen (MkNode statements l1 v1) indent = Return s1 ->
  gen (MkNode statements l2 v2) indent = Return s2 ->
  gen (MkNode statements (l1 ++ l2) v) indent = Return (s1 ++ s2)%string.
Proof.
  cbn [generate_code]. revert s1.
  induction l1 as [|c l1 IH]; intros s1 H1 H2.
  - inversion H1; subst. exact H2.
  - cbn [app]. destruct (gen c indent) as [sc|]; [|discriminate].
    cbn [bind] in *.
    destruct ((fix each (l : list Node) : outcome string :=
                 match l with
                 | [] => Return EmptyString
                 | child :: l' =>
                     s <- gen child indent ;; r <- each l' ;;
                     Return (s ++ r)%string
                 end) l1) as [sr|] eqn:E; [|discriminate].
    cbn [bind] in H1. inversion H1; subst.
    rewrite (IH sr eq_refl H2). cbn [bind]. now rewrite string_app_assoc.
Qed.

Lemma gen_program_text (l : list Node) (text : string) :
  gen (MkNode program [MkNode statements l VNone] VNone) 0 = Return text ->
  gen (MkNode statements l VNone) 0 = Return text.
Proof.
  cbn [generate_code]. intros H.
  destruct ((fix each (l : list Node) : outcome string :=
               match l with
               | [] => Return EmptyString
               | child :: l' =>
                   s <- gen child 0 ;; r <- each l' ;; Return (s ++ r)%string
               end) l) as [s|]; [|discriminate].
  cbn [bind] in H. rewrite string_app_nil_r in H. exact H.
Qed.

(** X28.  Programs can be put one after the other: when two token
    sequences are accepted and the second does not begin with an include
    directive, the first followed by the second is accepted, its statements
    are those of the first followed by those of the second, and its text is
    the text of the first followed by the text of the second.  No statement
    is translated differently for what stands before or after it. *)
Theorem programs_compose
  (toks1 toks2 : list LexToken) (t : LexToken) (ast1 ast2 : Node)
  (r1 r2 : list LexToken) :
  parse toks1 = POk ast1 r1 ->
  parse (t :: toks2) = POk ast2 r2 ->
  type t <> INCLUDE ->
  exists l1 l2,
    ast1 = MkNode program [MkNode statements l1 VNone] VNone
    /\ ast2 = MkNode program [MkNode statements l2 VNone] VNone
    /\ parse (toks1 ++ t :: toks2)
       = POk (MkNode program [MkNode statements (l1 ++ l2) VNone] VNone) []
    /\ forall text1 text2,
         gen ast1 0 = Return text1 -> gen ast2 0 = Return text2 ->
         gen (MkNode program [MkNode statements (l1 ++ l2) VNone] VNone) 0
         = Return (text1 ++ text2)%string.
Proof.
  intros H1 H2 Ht.
  set (F := S (length (toks1 ++ t :: toks2))).
  assert (HF1 : length toks1 < F) by (unfold F; rewrite length_app; lia).
  assert (HF2 : length (t :: toks2) < F)
    by (unfold F; rewrite length_app; cbn [length]; lia).
  unfold parse in H1, H2.
  rewrite (parse_program_ext _ F) in H1 by lia.
  rewrite (parse_program_ext _ F) in H2 by (cbn [length] in *; lia).
  destruct (parse_program_statements F toks1 ast1 r1 H1)
    as (-> & l1 & body & -> & Hs1 & Happ).
  apply toktype_eqb_neq in Ht.
  unfold parse_program in H2. rewrite Ht in H2.
  apply pbind_ok in H2 as (p & rr & E2 & H2).
  apply pbind_ok in E2 as (p2 & r3 & E2 & H').
  inversion H'; subst p rr. clear H'.
  destruct r3 as [|t3 r3]; [|discriminate]. inversion H2; subst ast2 r2. clear H2.
  destruct (parse_sequence_shape _ _ _ _ _ _ E2) as [l2 ->].
  assert (Hstart : starts_statement (type t) = true).
  { unfold parse_sequence in E2. apply pbind_ok in E2 as (y & ry & Ey & _).
    now apply statement_start in Ey. }
  assert (Hcomp :
    parse_sequence statements starts_statement (parse_statement F)
      (body ++ t :: toks2)
    = POk (MkNode statements (l1 ++ l2) VNone) []).
  { apply parse_sequence_compose; [| |exact Hstart|exact Hs1|exact E2].
    - intros toks n r H. apply parse_statement_stable; [exact H|].
      right. cbn [no_else]. intros Hn. rewrite Hn in Hstart. discriminate.
    - intros toks n r H. apply parse_statement_suffix in H.
      now apply strict_suffix_length in H. }
  exists l1, l2. split; [reflexivity|]. split; [reflexivity|]. split.
  - unfold parse. fold F. rewrite Happ, Hcomp. reflexivity.
  - intros text1 text2 Hg1 Hg2.
    apply gen_program_text in Hg1, Hg2.
    pose proof (gen_statements_app l1 l2 VNone VNone VNone 0 _ _ Hg1 Hg2) as Hg.
    cbn [generate_code]. cbn [generate_code] in Hg. rewrite Hg. cbn [bind].
    now rewrite string_app_nil_r.
Qed.

End FurtherFacts.

(** * Faults of the lexer *)

Section LexerFaults.
Import Lexer Parser Shape Further LexerFacts ParserFacts StatementFacts.
Variable float_str : string -> string.

(** ** The text of a match *)

















(** ** Where the scan stops *)



(** ** An integer literal too long for [int] *)

(** A run of more than 4300 digits makes [t_NUMBER] raise [ValueError]; the
    scan ends there, and so does the call, whatever was read before. *)
Lemma long_integer_scan (c : ascii) (ds s : string) (ln : N) :
  is_digit c = true -> all_chars is_digit ds = true ->
  int_max_str_digits <= String.length ds -> number_ends s ->
  scan 0 (String c ds ++ s) ln = ([], LexRaise ValueError ln).
Proof.
  intros Hc Hds Hlen Hs.
  rewrite (number_scan c ds s ln Hc (integer_match c ds s Hc Hds Hs)).
  unfold t_NUMBER, py_int.
  rewrite digits_no_dot by (cbn [all_chars]; now rewrite Hc).
  replace (Nat.ltb int_max_str_digits (String.length (String c ds))) with true;
    [reflexivity|].
  symmetry. apply Nat.ltb_lt. cbn [String.length]. lia.
Qed.

(** C3.  [transpile] does not turn every failure into a returned string.
    The digits of an integer literal are converted by [int], which raises
    [ValueError] when there are more than 4300 of them; [transpile] catches
    [SyntaxError] only, so the exception reaches the caller.  This is so
    for every input that starts with such a literal, whatever the line
    counter, and for [int x = 99...9;] with 4301 nines. *)
Theorem long_integer_escapes_transpile
  (c : ascii) (ds s : string) (ln : N) :
  is_digit c = true -> all_chars is_digit ds = true ->
  int_max_str_digits <= String.length ds -> number_ends s ->
  tokenize (String c ds ++ s) ln = ([], LexRaise ValueError ln)
  /\ transpile_body float_str ln (String c ds ++ s) = Some (Raise ValueError, ln)
  /\ transpile float_str ln (String c ds ++ s) = Some (Raise ValueError, ln)
  /\ transpile float_str initial_lineno ("int x = " ++ nines 4301 ++ ";")
     = Some (Raise ValueError, 1%N).
Proof.
  intros Hc Hds Hlen Hs.
  pose proof (long_integer_scan c ds s ln Hc Hds Hlen Hs) as H.
  unfold transpile, transpile_body, tokenize. rewrite H.
  do 3 (split; [reflexivity|]). vm_compute. reflexivity.
Qed.

End LexerFaults.

(** * Instances of the faults *)

Module LexerFaultSamples.
Import Lexer Parser Shape Further Inputs.
Local Open Scope list_scope.

(** C3 on a literal of 4301 nines followed by a semicolon. *)
Lemma long_integer_escapes_transpile_witness :
  (is_digit "9" = true /\ all_chars is_digit (nines 4300) = true
   /\ int_max_str_digits <= String.length (nines 4300) /\ number_ends ";")
  /\ tokenize (String "9" (nines 4300) ++ ";") initial_lineno
     = ([], LexRaise ValueError 1)
  /\ transpile literal_text initial_lineno (String "9" (nines 4300) ++ ";")
     = Some (Raise ValueError, 1%N).
Proof.
  assert (Hds : all_chars is_digit (nines 4300) = true)
    by (vm_compute; reflexivity).
  assert (Hlen : int_max_str_digits <= String.length (nines 4300))
    by (apply Nat.leb_le; vm_compute; reflexivity).
  assert (Hs : number_ends ";") by (split; [reflexivity | discriminate]).
  split; [split; [reflexivity | split; [exact Hds | split; [exact Hlen | exact Hs]]]|].
  destruct (long_integer_escapes_transpile literal_text "9" (nines 4300) ";"
              initial_lineno eq_refl Hds Hlen Hs) as (Ht & _ & Hr & _).
  split; [exact Ht | exact Hr].
Defined.



End LexerFaultSamples.

(** * Instances of the further properties *)

Module FurtherSamples.
Import Lexer Parser Shape Further Inputs MoreInputs.
Local Open Scope list_scope.

(** X1 on [#include <iostream>] and a line feed. *)
Lemma no_statement_is_unexpected_end_witness :
  without_includes ("#include <iostream>" ++ newline) newline
  /\ transpile literal_text initial_lineno ("#include <iostream>" ++ newline)
     = Some (Return "Unexpected end of input", 2%N).
Proof.
  assert (H : without_includes ("#include <iostream>" ++ newline) newline).
  { apply (wi_directive "#include <iostream>" newline newline).
    - exists " ", "iostream". repeat split; try reflexivity. discriminate.
    - apply (wi_blank (ascii_of_nat 10) EmptyString EmptyString);
        [reflexivity | apply wi_end]. }
  split; [exact H|].
  exact (no_statement_is_unexpected_end literal_text initial_lineno _ _ H).
Defined.

(** X2 on [int x = 5;], read at line 1 and at line 5. *)
Lemma generated_text_ignores_line_counter_witness :
  transpile_body literal_text 1 "int x = 5;"
  = Some (Return ("x = 5" ++ newline)%string, 1%N)
  /\ transpile_body literal_text (1 + 4) "int x = 5;"
     = Some (Return ("x = 5" ++ newline)%string, (1 + 4)%N)
  /\ transpile literal_text (1 + 4) "int x = 5;"
     = Some (Return ("x = 5" ++ newline)%string, (1 + 4)%N).
Proof.
  split; [reflexivity|].
  exact (generated_text_ignores_line_counter literal_text 1 4 "int x = 5;"
           _ 1 eq_refl).
Defined.

(** X3 on [int x = 5;] and a line feed. *)
Lemma valid_input_repeats_witness :
  transpile_body literal_text 1 ("int x = 5;" ++ newline)
  = Some (Return ("x = 5" ++ newline)%string, 2%N)
  /\ transpile_twice literal_text 1 ("int x = 5;" ++ newline)
       ("int x = 5;" ++ newline)
     = Some (Return ("x = 5" ++ newline)%string,
             Return ("x = 5" ++ newline)%string).
Proof.
  split; [reflexivity|].
  exact (valid_input_repeats literal_text 1 ("int x = 5;" ++ newline) _ 2
           eq_refl).
Defined.

(** X4 on [x x @], read with the counter at 3: the second [x] is reported
    on line 3. *)
Lemma diagnostic_lines_follow_counter_witness :
  tokenize "x x @" 1 = ([t_x; t_x], LexIllegal "@" 1)
  /\ parse [t_x; t_x] = Unexpected t_x
  /\ transpile literal_text (1 + 2) "x x @"
     = Some (Return "Syntax error at 'x' on line 3", 3%N).
Proof.
  split; [reflexivity|]. split; [reflexivity|].
  exact (proj1 (diagnostic_lines_follow_counter literal_text 1 2 "x x @"
                  [t_x; t_x] (LexIllegal "@" 1) eq_refl) t_x eq_refl).
Defined.

(** X5 on [int x]: the word [int] is the keyword. *)
Lemma word_is_one_token_witness :
  (is_ident_start "i" = true /\ all_chars is_ident_char "nt" = true
   /\ stops is_ident_char " x")
  /\ tokenize ("int" ++ " x") 1
     = (mkTok INT (VStr "int") 1 :: fst (tokenize " x" 1), snd (tokenize " x" 1)).
Proof.
  split; [repeat split|].
  exact (word_is_one_token "i" "nt" " x" 1 eq_refl eq_refl eq_refl).
Defined.

(** X6 on [include int x = 5;]. *)
Lemma bare_include_is_a_directive_witness :
  stops is_ident_char " int x = 5;"
  /\ transpile literal_text 1 ("include" ++ " int x = 5;")
     = transpile literal_text 1 " int x = 5;".
Proof.
  split; [reflexivity|].
  exact (bare_include_is_a_directive literal_text 1 " int x = 5;" eq_refl).
Defined.

(** X8 on a comment opened on one line and closed on the next. *)
Lemma block_comment_stops_at_line_end_witness :
  no_close " a " = true
  /\ tokenize ("/*" ++ " a " ++ String (ascii_of_nat 10) "*/") 1
     = (mkTok DIVIDE (VStr "/") 1 :: mkTok MULTIPLY (VStr "*") 1
        :: fst (tokenize (" a " ++ String (ascii_of_nat 10) "*/") 1),
        snd (tokenize (" a " ++ String (ascii_of_nat 10) "*/") 1)).
Proof.
  split; [reflexivity|].
  exact (block_comment_stops_at_line_end " a " "*/" 1 eq_refl).
Defined.

(** X9 on a string literal that holds a line feed. *)
Lemma string_literal_is_one_token_witness :
  all_chars (fun c => negb (is_dquote c)) ("a" ++ newline ++ "b") = true
  /\ tokenize (quoted ("a" ++ newline ++ "b") ++ ";") 1
     = (mkTok STRING (VStr (quoted ("a" ++ newline ++ "b"))) 1
        :: fst (tokenize ";" 1), snd (tokenize ";" 1)).
Proof.
  split; [reflexivity|].
  exact (string_literal_is_one_token ("a" ++ newline ++ "b") ";" 1 eq_refl).
Defined.

(** X10 on a double quote followed by [abc;]. *)
Lemma unclosed_string_is_illegal_witness :
  all_chars (fun c => negb (is_dquote c)) "abc;" = true
  /\ tokenize (String dquote "abc;") 1 = ([], LexIllegal dquote 1).
Proof.
  split; [reflexivity|].
  exact (unclosed_string_is_illegal "abc;" 1 eq_refl).
Defined.

(** X12 on the integer 42 in front of a semicolon. *)
Lemma integer_literal_round_trip_witness :
  ((42 < 10 ^ 4300)%N /\ number_ends ";")
  /\ tokenize (str_of_int 42 ++ ";") 1
     = (mkTok NUMBER (VInt 42) 1 :: fst (tokenize ";" 1), snd (tokenize ";" 1)).
Proof.
  assert (Hn : (42 < 10 ^ 4300)%N) by (vm_compute; reflexivity).
  assert (Hs : number_ends ";") by (split; [reflexivity | discriminate]).
  split; [split; assumption|].
  exact (integer_literal_round_trip 42 ";" 1 Hn Hs).
Defined.

(** X13 on [3.14;]. *)
Lemma float_literal_is_one_token_witness :
  (is_digit "3" = true /\ all_chars is_digit "" = true
   /\ "14" <> EmptyString /\ all_chars is_digit "14" = true
   /\ stops is_digit ";")
  /\ tokenize ("3" ++ "." ++ "14" ++ ";") 1
     = (mkTok NUMBER (VFloat ("3" ++ "." ++ "14")) 1
        :: fst (tokenize ";" 1), snd (tokenize ";" 1)).
Proof.
  assert (Hne : "14" <> EmptyString) by discriminate.
  split; [repeat split; assumption|].
  exact (float_literal_is_one_token "3" "" "14" ";" 1 eq_refl eq_refl Hne
           eq_refl eq_refl).
Defined.

(** X15 on [a < b < c;]: the tree nests to the right, the text is flat. *)
Lemma expression_text_is_flat_witness :
  Forall tok_ok [t_a; t_lt; t_b; t_lt; t_c; t_semi]
  /\ parse_operand false [] [t_a; t_lt; t_b; t_lt; t_c; t_semi]
     = POk (bin (lit t_a) t_lt (bin (lit t_b) t_lt (lit t_c))) [t_semi]
  /\ generate_code literal_text
       (bin (lit t_a) t_lt (bin (lit t_b) t_lt (lit t_c))) 0
     = Return "a < b < c".
Proof.
  assert (HF : Forall tok_ok [t_a; t_lt; t_b; t_lt; t_c; t_semi]).
  { repeat (constructor;
            [first [exact I | reflexivity | (eexists; reflexivity)]|]).
    constructor. }
  split; [exact HF|]. split; [reflexivity|].
  destruct (expression_text_is_flat literal_text false
              [t_a; t_lt; t_b; t_lt; t_c; t_semi] _ [t_semi] HF eq_refl)
    as (pre & _ & Hpre & Hg).
  change [t_a; t_lt; t_b; t_lt; t_c; t_semi]
    with ([t_a; t_lt; t_b; t_lt; t_c] ++ [t_semi]) in Hpre.
  apply app_inv_tail in Hpre. subst pre. exact (Hg 0).
Defined.

(** X16 on [x = 5;] inside two blocks. *)
Lemma statement_text_is_laid_out_witness :
  Forall tok_ok [t_x; t_equals; t_5; t_semi]
  /\ parse_statement 1 [t_x; t_equals; t_5; t_semi]
     = POk (MkNode assignment [lit t_5] (VStr "x")) []
  /\ exists text,
       generate_code literal_text (MkNode assignment [lit t_5] (VStr "x")) 2
       = Return text
       /\ String.prefix (indentation 2) text = true
       /\ ends_with_newline text = true.
Proof.
  assert (HF : Forall tok_ok [t_x; t_equals; t_5; t_semi]).
  { repeat (constructor;
            [first [exact I | reflexivity | (eexists; reflexivity)]|]).
    constructor. }
  split; [exact HF|]. split; [reflexivity|].
  exact (statement_text_is_laid_out literal_text 1
           [t_x; t_equals; t_5; t_semi] _ [] HF eq_refl 2).
Defined.

(** X17 on [int x = 5;]. *)
Lemma result_ends_with_line_feed_iff_translated_witness :
  transpile literal_text 1 "int x = 5;"
  = Some (Return ("x = 5" ++ newline)%string, 1%N)
  /\ (ends_with_newline ("x = 5" ++ newline) = true
      <-> transpile_body literal_text 1 "int x = 5;"
          = Some (Return ("x = 5" ++ newline)%string, 1%N)).
Proof.
  split; [reflexivity|].
  exact (result_ends_with_line_feed_iff_translated literal_text 1 "int x = 5;"
           _ 1 eq_refl).
Defined.

(** X18 on [using namespace std;]. *)
Lemma tokens_without_production_are_rejected_witness :
  tokenize "using namespace std;" 1
  = ([t_using; t_namespace; t_std; t_semi], LexEof 1)
  /\ Exists (fun t => in_grammar (type t) = false)
       [t_using; t_namespace; t_std; t_semi]
  /\ (forall ast r, parse [t_using; t_namespace; t_std; t_semi] <> POk ast r)
  /\ exists msg l,
       transpile_body literal_text 1 "using namespace std;"
       = Some (Raise (SyntaxError msg), l).
Proof.
  assert (Hex : Exists (fun t => in_grammar (type t) = false)
                  [t_using; t_namespace; t_std; t_semi]).
  { apply Exists_cons_tl, Exists_cons_hd. reflexivity. }
  split; [reflexivity|]. split; [exact Hex|].
  exact (tokens_without_production_are_rejected literal_text 1
           "using namespace std;" _ _ eq_refl Hex).
Defined.

(** X19 on [int f(, int a) { return a; }]. *)
Lemma parameter_list_may_start_with_comma_witness :
  (type t_int = INT /\ type t_f = IDENTIFIER /\ type t_lparen = LPAREN
   /\ type t_comma = COMMA /\ type t_a = IDENTIFIER)
  /\ parse_params
       (t_comma :: t_int :: t_a
        :: [t_rparen; t_lbrace; t_return; t_a; t_semi; t_rbrace])
     = parse_params
         (t_int :: t_a :: [t_rparen; t_lbrace; t_return; t_a; t_semi; t_rbrace])
  /\ parse_statement 2
       (t_int :: t_f :: t_lparen :: t_comma :: t_int :: t_a
        :: [t_rparen; t_lbrace; t_return; t_a; t_semi; t_rbrace])
     = parse_statement 2
         (t_int :: t_f :: t_lparen :: t_int :: t_a
          :: [t_rparen; t_lbrace; t_return; t_a; t_semi; t_rbrace]).
Proof.
  split; [repeat split|].
  exact (parameter_list_may_start_with_comma 1 t_int t_f t_lparen t_comma
           t_int t_a [t_rparen; t_lbrace; t_return; t_a; t_semi; t_rbrace]
           eq_refl eq_refl eq_refl eq_refl eq_refl eq_refl).
Defined.

(** X20 on [float x;]. *)
Lemma float_needs_initializer_witness :
  (type t_float = FLOAT /\ type t_x = IDENTIFIER /\ type t_semi <> EQUALS)
  /\ parse_statement 1 (t_float :: t_x :: t_semi :: []) = Unexpected t_semi
  /\ parse_member (t_float :: t_x :: t_semi :: []) = Unexpected t_semi.
Proof.
  assert (Hne : type t_semi <> EQUALS) by discriminate.
  split; [repeat split; assumption|].
  exact (float_needs_initializer 0 t_float t_x t_semi [] eq_refl eq_refl Hne).
Defined.

(** X21 on [{ }], [int f() { }] and [class A { }]. *)
Lemma empty_body_is_rejected_witness :
  (type t_lbrace = LBRACE /\ starts_statement (type t_rbrace) = false
   /\ starts_member (type t_rbrace) = false)
  /\ parse_block (parse_statement 1) (t_lbrace :: t_rbrace :: [])
     = Unexpected t_rbrace
  /\ parse_statement 2 (t_int :: t_f :: t_lparen :: t_rparen
                        :: t_lbrace :: t_rbrace :: [])
     = Unexpected t_rbrace
  /\ parse_statement 1 (t_class :: t_A :: t_lbrace :: t_rbrace :: [])
     = Unexpected t_rbrace.
Proof.
  split; [repeat split|].
  destruct (empty_body_is_rejected 0 t_lbrace t_rbrace [] eq_refl) as [H1 H2].
  destruct (H1 eq_refl) as [Hb Hf].
  split; [exact Hb|]. split.
  - exact (Hf t_int t_f t_lparen t_rparen eq_refl eq_refl eq_refl eq_refl).
  - exact (H2 eq_refl t_class t_A eq_refl eq_refl).
Defined.

(** X22 on [x = a + 5;], [x++;] and [return a + 5;], one level deep. *)
Lemma simple_statement_text_witness :
  (type t_x = IDENTIFIER /\ type t_equals = EQUALS /\ type t_pp = PLUSPLUS
   /\ type t_return = RETURN /\ type t_semi = SEMICOLON /\ tok_ok t_x
   /\ Forall tok_ok ([t_a; t_plus; t_5] ++ [t_semi])
   /\ parse_expression ([t_a; t_plus; t_5] ++ [t_semi])
      = POk (bin (lit t_a) t_plus (lit t_5)) [t_semi])
  /\ exists name,
       value t_x = VStr name
       /\ (exists n,
             parse_statement 1 [t_x; t_equals; t_a; t_plus; t_5; t_semi]
             = POk n []
             /\ generate_code literal_text n 1
                = Return ("    " ++ name ++ " = a + 5" ++ newline)%string)
       /\ (exists n,
             parse_statement 1 [t_x; t_pp; t_semi] = POk n []
             /\ generate_code literal_text n 1
                = Return ("    " ++ name ++ " = " ++ name ++ " + 1"
                          ++ newline)%string)
       /\ (exists n,
             parse_statement 1 [t_return; t_a; t_plus; t_5; t_semi] = POk n []
             /\ generate_code literal_text n 1
                = Return ("    return a + 5" ++ newline)%string).
Proof.
  assert (Hx : tok_ok t_x) by (exists "x"; reflexivity).
  assert (HF : Forall tok_ok ([t_a; t_plus; t_5] ++ [t_semi])).
  { repeat (constructor;
            [first [exact I | reflexivity | (eexists; reflexivity)]|]).
    constructor. }
  split; [repeat split; assumption|].
  exact (simple_statement_text literal_text 0 t_x t_equals t_pp t_return t_semi
           [t_a; t_plus; t_5] [] _ 1 eq_refl eq_refl eq_refl eq_refl eq_refl
           Hx HF eq_refl).
Defined.

(** X23 on [cout << a + 5;] and [cout << a + 5 << endl;]. *)
Lemma output_statement_text_witness :
  (type t_cout = COUT /\ type t_lt = LT /\ type t_endl = ENDL
   /\ type t_semi = SEMICOLON)
  /\ (exists n,
        parse_statement 1 [t_cout; t_lt; t_lt; t_a; t_plus; t_5; t_semi]
        = POk n []
        /\ generate_code literal_text n 0
           = Return ("print(a + 5, end='')" ++ newline)%string)
  /\ (exists n,
        parse_statement 1
          [t_cout; t_lt; t_lt; t_a; t_plus; t_5; t_lt; t_lt; t_endl; t_semi]
        = POk n []
        /\ generate_code literal_text n 0
           = Return ("print(a + 5, end='\n')" ++ newline)%string).
Proof.
  assert (HF1 : Forall tok_ok ([t_a; t_plus; t_5] ++ [t_semi])).
  { repeat (constructor;
            [first [exact I | reflexivity | (eexists; reflexivity)]|]).
    constructor. }
  assert (HF2 : Forall tok_ok
                  ([t_a; t_plus; t_5] ++ [t_lt; t_lt; t_endl; t_semi])).
  { repeat (constructor;
            [first [exact I | reflexivity | (eexists; reflexivity)]|]).
    constructor. }
  split; [repeat split|].
  destruct (output_statement_text literal_text 0 t_cout t_lt t_lt t_lt t_lt
              t_endl t_semi [t_a; t_plus; t_5] [] 0
              eq_refl eq_refl eq_refl eq_refl eq_refl eq_refl eq_refl)
    as [H1 H2].
  split; [exact (H1 _ HF1 eq_refl) | exact (H2 _ HF2 eq_refl)].
Defined.

(** X24 on [while (a < 5) { x++; }] and [if (a < 5) { x++; } else
    { x++; }]. *)
Lemma loop_and_conditional_text_witness :
  (type t_while = WHILE /\ type t_if = IF /\ type t_lparen = LPAREN
   /\ type t_rparen = RPAREN /\ type t_else = ELSE
   /\ parse_expression
        ([t_a; t_lt; t_5]
         ++ t_rparen :: [t_lbrace; t_x; t_pp; t_semi; t_rbrace; t_else;
                         t_lbrace; t_x; t_pp; t_semi; t_rbrace])
      = POk (bin (lit t_a) t_lt (lit t_5))
          (t_rparen :: [t_lbrace; t_x; t_pp; t_semi; t_rbrace; t_else;
                        t_lbrace; t_x; t_pp; t_semi; t_rbrace])
   /\ parse_block (parse_statement 1)
        [t_lbrace; t_x; t_pp; t_semi; t_rbrace; t_else;
         t_lbrace; t_x; t_pp; t_semi; t_rbrace]
      = POk (MkNode statements [MkNode increment [] (VStr "x")] VNone)
          [t_else; t_lbrace; t_x; t_pp; t_semi; t_rbrace])
  /\ (exists n,
        parse_statement 2
          [t_while; t_lparen; t_a; t_lt; t_5; t_rparen;
           t_lbrace; t_x; t_pp; t_semi; t_rbrace; t_else;
           t_lbrace; t_x; t_pp; t_semi; t_rbrace]
        = POk n [t_else; t_lbrace; t_x; t_pp; t_semi; t_rbrace]
        /\ generate_code literal_text n 0
           = Return ("while a < 5:" ++ newline
                     ++ "    x = x + 1" ++ newline)%string)
  /\ (exists n,
        parse_statement 2
          [t_if; t_lparen; t_a; t_lt; t_5; t_rparen;
           t_lbrace; t_x; t_pp; t_semi; t_rbrace; t_else;
           t_lbrace; t_x; t_pp; t_semi; t_rbrace]
        = POk n []
        /\ generate_code literal_text n 0
           = Return ("if a < 5:" ++ newline
                     ++ "    x = x + 1" ++ newline
                     ++ "else:" ++ newline
                     ++ "    x = x + 1" ++ newline)%string).
Proof.
  assert (HF : Forall tok_ok
                 ([t_a; t_lt; t_5]
                  ++ t_rparen :: [t_lbrace; t_x; t_pp; t_semi; t_rbrace; t_else;
                                  t_lbrace; t_x; t_pp; t_semi; t_rbrace])).
  { repeat (constructor;
            [first [exact I | reflexivity | (eexists; reflexivity)]|]).
    constructor. }
  split; [repeat split|].
  destruct (loop_and_conditional_text literal_text 1 t_while t_if t_lparen
              t_rparen [t_a; t_lt; t_5]
              [t_lbrace; t_x; t_pp; t_semi; t_rbrace; t_else;
               t_lbrace; t_x; t_pp; t_semi; t_rbrace]
              [t_else; t_lbrace; t_x; t_pp; t_semi; t_rbrace]
              _ _ ("    x = x + 1" ++ newline) 0
              eq_refl eq_refl eq_refl eq_refl HF eq_refl eq_refl eq_refl)
    as (Hw & _ & He).
  split; [exact Hw|].
  exact (He t_else [t_lbrace; t_x; t_pp; t_semi; t_rbrace] []
           (MkNode statements [MkNode increment [] (VStr "x")] VNone)
           ("    x = x + 1" ++ newline)%string
           eq_refl eq_refl eq_refl eq_refl).
Defined.

(** X25 on [int f(int a, int b) { return a; }] and [int f() { return a; }]. *)
Lemma function_text_witness :
  (type t_int = INT /\ type t_f = IDENTIFIER /\ type t_lparen = LPAREN
   /\ type t_rparen = RPAREN /\ type t_comma = COMMA
   /\ type t_a = IDENTIFIER /\ type t_b = IDENTIFIER
   /\ parse_block (parse_statement 1)
        [t_lbrace; t_return; t_a; t_semi; t_rbrace]
      = POk (MkNode statements [MkNode return_ [lit t_a] VNone] VNone) [])
  /\ (exists n,
        parse_statement 2
          [t_int; t_f; t_lparen; t_int; t_a; t_comma; t_int; t_b; t_rparen;
           t_lbrace; t_return; t_a; t_semi; t_rbrace]
        = POk n []
        /\ generate_code literal_text n 0
           = Return ("def f(a, b):" ++ newline
                     ++ "    return a" ++ newline)%string)
  /\ (exists n,
        parse_statement 2
          [t_int; t_f; t_lparen; t_rparen;
           t_lbrace; t_return; t_a; t_semi; t_rbrace]
        = POk n []
        /\ generate_code literal_text n 0
           = Return ("def f():" ++ newline ++ "    return a" ++ newline)%string).
Proof.
  assert (Ha : tok_ok t_a) by (exists "a"; reflexivity).
  assert (Hl : Forall (fun p => type (fst (fst p)) = COMMA
                                /\ type (snd (fst p)) = INT
                                /\ type (snd p) = IDENTIFIER)
                 [(t_comma, t_int, t_b)])
    by (constructor; [repeat split | constructor]).
  assert (Hb : Forall (fun p : LexToken * LexToken * LexToken => tok_ok (snd p))
                 [(t_comma, t_int, t_b)])
    by (constructor; [exists "b"; reflexivity | constructor]).
  split; [repeat split|].
  exact (function_text literal_text 1 t_int t_f t_lparen t_int t_a t_rparen
           [(t_comma, t_int, t_b)]
           [t_lbrace; t_return; t_a; t_semi; t_rbrace] [] _
           ("    return a" ++ newline)%string 0
           eq_refl eq_refl eq_refl eq_refl eq_refl eq_refl Hl Ha Hb
           eq_refl eq_refl).
Defined.

(** X26 on [for (int i = 0; i < 5; j++) { x++; }]. *)
Lemma for_loop_text_witness :
  (type t_for = FOR /\ type t_lparen = LPAREN /\ type t_int = INT
   /\ type t_i = IDENTIFIER /\ type t_equals = EQUALS
   /\ type t_semi = SEMICOLON /\ type t_j = IDENTIFIER
   /\ type t_pp = PLUSPLUS /\ type t_rparen = RPAREN
   /\ parse_expression
        ([t_0] ++ t_semi :: [t_i; t_lt; t_5] ++ t_semi :: t_j :: t_pp
         :: t_rparen :: [t_lbrace; t_x; t_pp; t_semi; t_rbrace])
      = POk (lit t_0)
          (t_semi :: [t_i; t_lt; t_5] ++ t_semi :: t_j :: t_pp
           :: t_rparen :: [t_lbrace; t_x; t_pp; t_semi; t_rbrace])
   /\ parse_expression
        ([t_i; t_lt; t_5] ++ t_semi :: t_j :: t_pp
         :: t_rparen :: [t_lbrace; t_x; t_pp; t_semi; t_rbrace])
      = POk (bin (lit t_i) t_lt (lit t_5))
          (t_semi :: t_j :: t_pp
           :: t_rparen :: [t_lbrace; t_x; t_pp; t_semi; t_rbrace])
   /\ parse_block (parse_statement 1) [t_lbrace; t_x; t_pp; t_semi; t_rbrace]
      = POk (MkNode statements [MkNode increment [] (VStr "x")] VNone) [])
  /\ exists n,
       parse_statement 2
         [t_for; t_lparen; t_int; t_i; t_equals; t_0; t_semi;
          t_i; t_lt; t_5; t_semi; t_j; t_pp; t_rparen;
          t_lbrace; t_x; t_pp; t_semi; t_rbrace]
       = POk n []
       /\ generate_code literal_text n 0
          = Return ("for i in range(0, i < 5):" ++ newline
                    ++ "    x = x + 1" ++ newline)%string.
Proof.
  assert (HF : Forall tok_ok
                 ([t_0] ++ t_semi :: [t_i; t_lt; t_5] ++ t_semi :: t_j :: t_pp
                  :: t_rparen :: [t_lbrace; t_x; t_pp; t_semi; t_rbrace])).
  { repeat (constructor;
            [first [exact I | reflexivity | (eexists; reflexivity)]|]).
    constructor. }
  split; [repeat split|].
  exact (for_loop_text literal_text 1 t_for t_lparen t_int t_i t_equals
           t_semi t_semi t_j t_pp t_rparen [t_0] [t_i; t_lt; t_5]
           [t_lbrace; t_x; t_pp; t_semi; t_rbrace] [] _ _ _
           ("    x = x + 1" ++ newline)%string 0
           eq_refl eq_refl eq_refl eq_refl eq_refl eq_refl eq_refl eq_refl
           eq_refl eq_refl HF eq_refl eq_refl eq_refl eq_refl).
Defined.

(** X28 on [x++;] followed by [x = 5;]. *)
Lemma programs_compose_witness :
  (parse [t_x; t_pp; t_semi]
   = POk (MkNode program
            [MkNode statements [MkNode increment [] (VStr "x")] VNone] VNone) []
   /\ parse (t_x :: [t_equals; t_5; t_semi])
      = POk (MkNode program
               [MkNode statements [MkNode assignment [lit t_5] (VStr "x")] VNone]
               VNone) []
   /\ type t_x <> INCLUDE)
  /\ parse ([t_x; t_pp; t_semi] ++ t_x :: [t_equals; t_5; t_semi])
     = POk (MkNode program
              [MkNode statements
                 ([MkNode increment [] (VStr "x")]
                  ++ [MkNode assignment [lit t_5] (VStr "x")]) VNone] VNone) []
  /\ generate_code literal_text
       (MkNode program
          [MkNode statements
             ([MkNode increment [] (VStr "x")]
              ++ [MkNode assignment [lit t_5] (VStr "x")]) VNone] VNone) 0
     = Return (("x = x + 1" ++ newline) ++ ("x = 5" ++ newline))%string.
Proof.
  assert (Hne : type t_x <> INCLUDE) by discriminate.
  split; [split; [reflexivity | split; [reflexivity | exact Hne]]|].
  destruct (programs_compose literal_text [t_x; t_pp; t_semi]
              [t_equals; t_5; t_semi] t_x _ _ [] [] eq_refl eq_refl Hne)
    as (l1 & l2 & E1 & E2 & Hp & Hg).
  injection E1 as <-. injection E2 as <-.
  split; [exact Hp | exact (Hg _ _ eq_refl eq_refl)].
Defined.

End FurtherSamples.
